(** * dx-automator: the metrics collector of [examples/metrics.py]

    A shallow embedding of [MetricCollector] (tree construction in
    [process_repo], bottom-up statistics in [aggregate], flattening in
    [summarize], the control flow of [run]) and the properties of the
    design document that concern it.

    Conventions of the embedding.
    - Python numbers that measure days are exact rationals ([Qc], canonical
      fractions with Leibniz equality): no rounding, no NaN, no signed zero.
      [statistics.mean] sums exactly before it divides, so the only
      rounding that the abstraction hides is that of the final quotient and
      of the average of the two middle elements in [statistics.median].
    - A [dict] keyed by metric name is a [gmap string _]; the order in which
      Python walks its items is not observable in what is proved here, and
      lemmas below show the loops do not depend on it. The one place where
      it is observable, the columns that [output_google_sheet] adds, takes
      a row as the list of its items.
    - The children of a node ([node['nodes']], a [defaultdict]) are an
      association list in insertion order: the order in which [aggregate]
      walks them is the subject of one of the properties.
    - Raised exceptions are values of the type [result].
    - What lives in [common/] (the class [Issue], [get_delta_days],
      [get_date_time], [ADMINS], [ALL_REPOS], the data source) is not among
      the sources: the functions below take it as parameters, or model it
      from the design document where a statement needs its contents.

    The file has the definitions first (built-ins, the tree, [aggregate],
    the collector, [output_google_sheet], [aggregate] once more on a store
    of shared objects, the vocabulary of the statements, sample data), then
    the properties: those of the design document, then further ones. *)

From Stdlib Require Import QArith Qcanon.
From stdpp Require Import base option list sorting strings gmap fin_maps numbers.

Local Open Scope Qc_scope.

(** ** Exceptions *)

Inductive exn :=
  ValueError | StatisticsError | IndexError | AttributeError | TypeError.

Inductive result (A : Type) :=
  | Ok (a : A)
  | Raise (e : exn).
Arguments Ok {A} a.
Arguments Raise {A} e.

Definition result_bind {A B} (f : A → result B) (r : result A) : result B :=
  match r with
  | Ok a => f a
  | Raise e => Raise e
  end.

#[global] Instance result_mbind : MBind result := @result_bind.
#[global] Instance result_mret : MRet result := @Ok.

(** ** Python built-ins and the [statistics] module, on day counts *)

Module Py.

Definition len (l : list Qc) : nat := length l.

(** [sorted(l)]: ascending. *)
Definition sorted (l : list Qc) : list Qc := merge_sort Qcle l.

(** [l[i]] for a non-negative index. *)
Definition index (l : list Qc) (i : nat) : result Qc :=
  match l !! i with
  | Some x => Ok x
  | None => Raise IndexError
  end.

(** [min(l)]: the first element that no later element is smaller than. *)
Definition min (l : list Qc) : result Qc :=
  match l with
  | [] => Raise ValueError
  | x :: l => Ok (foldl (λ m y, if decide (y < m) then y else m) x l)
  end.

(** [max(l)]. *)
Definition max (l : list Qc) : result Qc :=
  match l with
  | [] => Raise ValueError
  | x :: l => Ok (foldl (λ m y, if decide (m < y) then y else m) x l)
  end.

Definition sum (l : list Qc) : Qc := foldr Qcplus 0 l.

Definition of_nat (n : nat) : Qc := Qc_of_Z (Z.of_nat n).

(** [statistics.mean(data)]. *)
Definition mean (data : list Qc) : result Qc :=
  let n := len data in
  if decide (n < 1)%nat then Raise StatisticsError
  else Ok (sum data / of_nat n).

(** [statistics.median(data)]. *)
Definition median (data : list Qc) : result Qc :=
  let data := sorted data in
  let n := len data in
  if decide (n = 0)%nat then Raise StatisticsError
  else if decide (n mod 2 = 1)%nat then index data (n / 2)
  else
    let i := (n / 2)%nat in
    a ← index data (i - 1);
    b ← index data i;
    Ok ((a + b) / of_nat 2).

End Py.

(** ** The tree *)

(** The record that [aggregate] stores for a metric. *)
Record summary := Summary {
  r_values : list Qc;
  r_count : nat;
  r_min : Qc;
  r_max : Qc;
  r_mean : Qc;
  r_median : Qc;
}.

(** A value under a metric name: a day count on a leaf, a record above. *)
Inductive MetricValue :=
  | Scalar (x : Qc)
  | Aggregated (r : summary).

(** [base_type()]: [{'nodes': defaultdict(base_type), 'metrics': {}}]. *)
#[warnings="-register-all"]
Inductive node := Node {
  nodes : list (string * node);
  metrics : gmap string MetricValue;
}.

Definition base_type : node := Node [] ∅.

(** ** [MetricCollector.aggregate] *)

(** Lines 125-129: a record gives its ['values'], a number a one-element
    list. *)
Definition as_list (value : MetricValue) : list Qc :=
  match value with
  | Aggregated r => r_values r
  | Scalar x => [x]
  end.

(** Lines 122-131, the body of the inner loop on the local [metrics]. *)
Definition extend (metric_id : string) (value : MetricValue)
    (acc : gmap string (list Qc)) : gmap string (list Qc) :=
  let acc :=
    match acc !! metric_id with
    | None => <[metric_id := []]> acc
    | Some _ => acc
    end in
  alter (λ l, l ++ as_list value) metric_id acc.

(** Lines 118-131: the two nested loops. *)
Definition collect (children : list (string * node)) : gmap string (list Qc) :=
  foldl (λ acc item, map_fold extend acc (metrics item.2)) ∅ children.

(** Lines 134-141: the dict literal, its entries evaluated in order. *)
Definition summarise_values (values : list Qc) : result summary :=
  let sorted_values := Py.sorted values in
  let count := Py.len values in
  mn ← Py.min values;
  mx ← Py.max values;
  mean ← Py.mean values;
  median ← Py.median values;
  Ok (Summary sorted_values count mn mx mean median).

(** Lines 133-141: the second loop, writing [node['metrics']]. *)
Definition store (collected : gmap string (list Qc))
    (own : gmap string MetricValue) : result (gmap string MetricValue) :=
  map_fold (λ metric_id values acc,
              own ← acc;
              r ← summarise_values values;
              Ok (<[metric_id := Aggregated r]> own))
           (Ok own) collected.

Definition aggregate (n : node) : result node :=
  own ← store (collect (nodes n)) (metrics n);
  Ok (Node (nodes n) own).

(** ** [defaultdict(base_type)]: children in insertion order *)

Fixpoint get_child (key : string) (children : list (string * node))
    : option node :=
  match children with
  | [] => None
  | (k, c) :: rest => if decide (k = key) then Some c else get_child key rest
  end.

(** Replace the child under [key] where it stands, or append it. *)
Fixpoint put_child (key : string) (c : node) (children : list (string * node))
    : list (string * node) :=
  match children with
  | [] => [(key, c)]
  | (k, c') :: rest =>
      if decide (k = key) then (k, c) :: rest
      else (k, c') :: put_child key c rest
  end.

(** [children[key]]: the child, a fresh [base_type()] when there is none.
    Python inserts the fresh node at once; here every use writes the node
    back with [put_child], which inserts it then. *)
Definition getitem (key : string) (children : list (string * node)) : node :=
  default base_type (get_child key children).

(** [n['nodes'][key]['metrics'] = m] *)
Definition set_child_metrics (key : string) (m : gmap string MetricValue)
    (n : node) : node :=
  let c := getitem key (nodes n) in
  Node (put_child key (Node (nodes c) m) (nodes n)) (metrics n).

(** [n['nodes'][key]['metrics'][metric_id] = value] *)
Definition set_child_metric (key metric_id : string) (value : MetricValue)
    (n : node) : node :=
  let c := getitem key (nodes n) in
  Node (put_child key (Node (nodes c) (<[metric_id := value]> (metrics c)))
          (nodes n))
       (metrics n).

(** ** Issues *)

(** Modelled from the spec: the class [Issue] and the helpers
    [get_delta_days] and [get_date_time] live in [common/issue.py], which is
    not among the sources. An [Issue.t] holds what [process_repo] reads from
    an issue: [author] and [created_at] as the constructor sets them, the
    other attributes as [process_events] leaves them, [category] and
    [status] the results of [get_issue_category()] and [get_issue_status()].
    Instants are integers (seconds); the metrics of an issue are day
    counts. *)
Module Issue.
Record t := {
  url : string;
  author : string;
  created_at : Z;
  closed : bool;
  first_admin_comment : option Z;
  category : option string;
  status : string;
  metrics : gmap string Qc;
}.
End Issue.

(** Modelled from the spec: [get_delta_days(start, end)], "the day-delta
    between" two instants. *)
Definition get_delta_days (start_ end_ : Z) : Qc := Q2Qc ((end_ - start_) # 86400).

(** Truth value of [issue_category] in [if issue_category:]: [None] and
    the empty string are false. *)
Definition truthy (issue_category : option string) : option string :=
  match issue_category with
  | Some c => if decide (c = EmptyString) then None else Some c
  | None => None
  end.

(** ** [MetricCollector] *)

(** A row of the report, [repo_metrics] in [summarize]. *)
Inductive cell := Str (s : string) | Num (x : Qc) | Int (n : nat).

(** The attributes of the collector. [untagged_issues] holds the issue
    objects; [run] reads only their [url]. *)
Record collector := Collector {
  self_metrics : node;
  untagged_issues : list Issue.t;
  all_metrics : list (gmap string cell);
}.

(** What a run lets out. *)
Inductive event :=
  | Print (line : string)
  | PrintJson (tree : node)
  | OutputGoogleSheet (rows : list (gmap string cell)).

(** The first line printed when issues lack a category; the label name
    stands between double quotes (character 34). *)
Definition untagged_header : string :=
  "These issues need a " +:+ String (Ascii.ascii_of_nat 34) "type"
    +:+ String (Ascii.ascii_of_nat 34) " label:".

(** [MetricCollector.__init__], the spreadsheet connector apart. *)
Definition init : collector := Collector base_type [] [].

(** [summarize], lines 143-153. A number where a record is expected has no
    [items()]. *)
Definition summarize (name reporting_date : string) (n : node)
    (all_metrics : list (gmap string cell)) : result (list (gmap string cell)) :=
  repo_metrics ←
    map_fold (λ metric values acc,
                repo_metrics ← acc;
                match values with
                | Aggregated r =>
                    Ok (<[metric +:+ "_median" := Num (r_median r)]>
                       (<[metric +:+ "_mean" := Num (r_mean r)]>
                       (<[metric +:+ "_max" := Num (r_max r)]>
                       (<[metric +:+ "_min" := Num (r_min r)]>
                       (<[metric +:+ "_count" := Int (r_count r)]>
                        repo_metrics)))))
                | Scalar _ => Raise AttributeError
                end)
             (Ok (<["date" := Str reporting_date]> {["name" := Str name]}))
             (metrics n);
  Ok (all_metrics ++ [repo_metrics]).

Section collector.
(** [common.admins.ADMINS], [common.repos.ALL_REPOS] (a dict from an
    organisation to its repositories, in insertion order), the cached
    data source and the parser of dates: none is among the sources. *)
Context (ADMINS : list string).
Context (ALL_REPOS : list (string * list string)).
Context (get_repo_issues : string → string → list Issue.t).
Context (get_date_time : string → Z).

(** Lines 87-108 of [process_repo]: the metrics of the issue once the
    duration metrics carry the category, and the issue itself once for
    each [self.untagged_issues.append(issue)]. *)
Definition categorise (issue : Issue.t) : gmap string Qc * list Issue.t :=
  let issue_category := truthy (Issue.category issue) in
  let '(m, untagged) :=
    match Issue.metrics issue !! "time_to_close" with
    | Some time_to_close =>
        let m := delete "time_to_close" (Issue.metrics issue) in
        if decide (Issue.status issue ∉ ["duplicate"; "invalid"]) then
          match Issue.first_admin_comment issue with
          | Some _ =>
              match issue_category with
              | Some c => (<["time_to_close_" +:+ c := time_to_close]> m, [])
              | None => (m, [issue])
              end
          | None => (m, [])
          end
        else (m, [])
    | None => (Issue.metrics issue, [])
    end in
  let '(m, untagged) :=
    match m !! "time_awaiting_resolution" with
    | Some resolution =>
        let m := delete "time_awaiting_resolution" m in
        match issue_category with
        | Some c =>
            (<["time_awaiting_resolution_" +:+ c := resolution]> m, untagged)
        | None => (m, untagged ++ [issue])
        end
    | None => (m, untagged)
    end in
  let m :=
    match Issue.first_admin_comment issue with
    | Some _ => m
    | None => delete "time_to_close_pr" m
    end in
  (m, untagged).

(** The body of the loop of [process_repo], lines 76-115, on the
    repository node and [self.untagged_issues]. The node takes the
    metrics mapping of the issue itself (line 110), its day counts being
    the numbers ([Scalar]) of the leaf, so line 115 writes [time_open] into
    that same mapping. *)
Definition process_issue (start_date end_date : Z)
    (st : node * list Issue.t) (issue : Issue.t) : node * list Issue.t :=
  if decide (Issue.author issue ∈ ADMINS) then st
  else if decide (end_date < Issue.created_at issue)%Z then st
  else
    let st :=
      if decide (start_date ≤ Issue.created_at issue)%Z then
        let '(m, untagged) := categorise issue in
        (set_child_metrics (Issue.url issue) (Scalar <$> m) st.1,
         st.2 ++ untagged)
      else st in
    if Issue.closed issue then st
    else
      let time_open := get_delta_days (Issue.created_at issue) end_date in
      (set_child_metric (Issue.url issue) "time_open" (Scalar time_open) st.1,
       st.2).

(** [process_repo], lines 67-115. *)
Definition process_repo (st : node * list Issue.t) (org repo : string)
    (start_date end_date : string) : node * list Issue.t :=
  let start_date := get_date_time start_date in
  let end_date := get_date_time end_date in
  let issues := get_repo_issues org repo in
  foldl (process_issue start_date end_date) st issues.

(** Lines 36-39 of [run], on the node of the organisation. *)
Definition process_org_repo (start_date end_date org : string)
    (st : node * list Issue.t) (repo : string) : node * list Issue.t :=
  let org_node := st.1 in
  let repo_node := getitem repo (nodes org_node) in
  let '(repo_node, untagged) :=
    process_repo (repo_node, st.2) org repo start_date end_date in
  (Node (put_child repo repo_node (nodes org_node)) (metrics org_node),
   untagged).

(** Lines 33-39 of [run], on the global node. *)
Definition process_org (start_date end_date : string)
    (st : node * list Issue.t) (org : string * list string)
    : node * list Issue.t :=
  let global_node := st.1 in
  let org_node := getitem org.1 (nodes global_node) in
  let '(org_node, untagged) :=
    foldl (process_org_repo start_date end_date org.1)
          (org_node, st.2) org.2 in
  (Node (put_child org.1 org_node (nodes global_node)) (metrics global_node),
   untagged).

(** Lines 33-39 of [run]: the tree of every organisation and
    repository. *)
Definition process_all (start_date end_date : string)
    (st : node * list Issue.t) : node * list Issue.t :=
  foldl (process_org start_date end_date) st ALL_REPOS.

(** Lines 51-55 of [run]. The loops of lines 48-55 walk the keys of a
    dict and look each one up; keys of a dict are distinct, so that is a
    walk over the children. *)
Fixpoint aggregate_repos (end_date : string) (repos : list (string * node))
    (rows : list (gmap string cell))
    : result (list (string * node) * list (gmap string cell)) :=
  match repos with
  | [] => Ok ([], rows)
  | (repo, repo_node) :: rest =>
      repo_node ← aggregate repo_node;
      rows ← summarize repo end_date repo_node rows;
      '(rest, rows) ← aggregate_repos end_date rest rows;
      Ok ((repo, repo_node) :: rest, rows)
  end.

(** Lines 48-58 of [run]. *)
Fixpoint aggregate_orgs (end_date : string) (orgs : list (string * node))
    (rows : list (gmap string cell))
    : result (list (string * node) * list (gmap string cell)) :=
  match orgs with
  | [] => Ok ([], rows)
  | (org, org_node) :: rest =>
      '(repos, rows) ← aggregate_repos end_date (nodes org_node) rows;
      org_node ← aggregate (Node repos (metrics org_node));
      rows ← summarize org end_date org_node rows;
      '(rest, rows) ← aggregate_orgs end_date rest rows;
      Ok ((org, org_node) :: rest, rows)
  end.

(** Lines 48-61 of [run]: the bottom-up pass. *)
Definition aggregate_tree (end_date : string) (global_node : node)
    (rows : list (gmap string cell))
    : result (node * list (gmap string cell)) :=
  '(orgs, rows) ← aggregate_orgs end_date (nodes global_node) rows;
  global_node ← aggregate (Node orgs (metrics global_node));
  rows ← summarize "global" end_date global_node rows;
  Ok (global_node, rows).

(** [run], lines 30-65: the collector afterwards and what was let out. *)
Definition run (self : collector) (start_date end_date : string)
    : result (collector * list event) :=
  let '(global_node, untagged) :=
    process_all start_date end_date (self_metrics self, untagged_issues self) in
  match untagged with
  | _ :: _ =>
      Ok (Collector global_node untagged (all_metrics self),
          Print untagged_header :: (Print ∘ Issue.url <$> untagged))
  | [] =>
      '(global_node, rows) ←
        aggregate_tree end_date global_node (all_metrics self);
      Ok (Collector global_node untagged rows,
          [PrintJson global_node; OutputGoogleSheet rows])
  end.

End collector.

(** ** [output_google_sheet]

    Lines 158-172 compute what goes to the spreadsheet: the header, with a
    column for each key of [self.all_metrics] it lacked, and a row of cells
    for each row of [self.all_metrics]. The order in which the items of a
    row are walked orders the new columns, so a row is here the list of
    its items in insertion order. The requests to the spreadsheet are not
    embedded: the header read by the first one is a parameter, the result
    holds the bodies of the other two. *)

(** [metrics.get(metric_id)]: [None] for a missing key. *)
Fixpoint get (metric_id : string) (metrics : list (string * cell))
    : option cell :=
  match metrics with
  | [] => None
  | (k, v) :: rest =>
      if decide (k = metric_id) then Some v else get metric_id rest
  end.

(** Lines 170-172, on [header] and [row]. *)
Definition add_column (st : list string * list (option cell))
    (item : string * cell) : list string * list (option cell) :=
  if decide (item.1 ∈ st.1) then st
  else (st.1 ++ [item.1], st.2 ++ [Some item.2]).

(** Lines 163-172: the header and the row after one row of
    [self.all_metrics]. *)
Definition sheet_row (header : list string) (metrics : list (string * cell))
    : list string * list (option cell) :=
  let row := (λ metric_id, get metric_id metrics) <$> header in
  foldl add_column (header, row) metrics.

(** Lines 160-172: [header] and [values]. *)
Definition output_google_sheet (header : list string)
    (all_metrics : list (list (string * cell)))
    : list string * list (list (option cell)) :=
  foldl (λ st metrics,
           let '(header, row) := sheet_row st.1 metrics in
           (header, st.2 ++ [row]))
        (header, []) all_metrics.

(** ** [aggregate] on shared objects

    The embedding above passes values around. Python passes references: the
    ['values'] of a record of a child, the list that [extend] grows and the
    metrics mapping that line 134 writes are objects, and a write to one is
    seen through every reference to it. [Store] embeds [aggregate] once
    more with these objects in a store, to tell which of them a call
    writes. A location is an index in the store; an object is never
    freed. *)

Module Store.
Local Open Scope nat_scope.

(** A value under a metric name: a number, or a record whose ['values']
    refers to a list. (The record is an object too; nothing writes it once
    it is made, so it is kept by value.) *)
Inductive value :=
  | Num (x : Qc)
  | Rec (values : nat) (count : nat) (mn mx mean median : Qc).

Inductive object :=
  | ListObj (l : list Qc)
  | DictObj (d : gmap string value).

(** A node: its children in insertion order, and the location of its
    ['metrics']. *)
#[warnings="-register-all"]
Inductive tree := Tree {
  children : list (string * tree);
  metrics_at : nat;
}.

(** A new object; its location is the next free index. *)
Definition alloc (o : object) (h : list object) : nat * list object :=
  (length h, h ++ [o]).

Definition read_list (h : list object) (l : nat) : result (list Qc) :=
  match h !! l with
  | Some (ListObj v) => Ok v
  | _ => Raise TypeError
  end.

Definition read_dict (h : list object) (l : nat)
    : result (gmap string value) :=
  match h !! l with
  | Some (DictObj d) => Ok d
  | _ => Raise TypeError
  end.

(** Lines 125-129: the list handed to [extend]; for a number it is the new
    one-element list, which nothing else refers to. *)
Definition as_list (h : list object) (v : value) : result (list Qc) :=
  match v with
  | Rec values _ _ _ _ _ => read_list h values
  | Num x => Ok [x]
  end.

(** Lines 122-131. The local [metrics] maps a name to the location of its
    list; [metrics[metric_id].extend(value)] writes that list in place. *)
Definition extend (metric_id : string) (v : value)
    (st : list object * gmap string nat)
    : result (list object * gmap string nat) :=
  let '(h, acc, l) :=
    match st.2 !! metric_id with
    | None =>
        let '(l, h) := alloc (ListObj []) st.1 in
        (h, <[metric_id := l]> st.2, l)
    | Some l => (st.1, st.2, l)
    end in
  vs ← as_list h v;
  old ← read_list h l;
  Ok (<[l := ListObj (old ++ vs)]> h, acc).

(** Lines 120-131: the first loop. *)
Definition collect (items : list (string * tree))
    (st : list object * gmap string nat)
    : result (list object * gmap string nat) :=
  foldl (λ res item,
           st ← res;
           d ← read_dict st.1 (metrics_at item.2);
           map_fold (λ metric_id v res, res ≫= extend metric_id v) (Ok st) d)
        (Ok st) items.

(** Lines 134-141 for one name: the dict literal makes a new sorted list,
    then the entry of the node's own mapping is written in place. *)
Definition store_one (own : nat) (metric_id : string) (l : nat)
    (h : list object) : result (list object) :=
  values ← read_list h l;
  let '(sorted_values, h) := alloc (ListObj (Py.sorted values)) h in
  let count := Py.len values in
  mn ← Py.min values;
  mx ← Py.max values;
  mean ← Py.mean values;
  median ← Py.median values;
  d ← read_dict h own;
  Ok (<[own := DictObj (<[metric_id :=
                           Rec sorted_values count mn mx mean median]> d)]> h).

(** [aggregate(node)]: the store afterwards. The node itself, a pair of
    references, is not written. *)
Definition aggregate (h : list object) (n : tree) : result (list object) :=
  st ← collect (children n) (h, ∅);
  map_fold (λ metric_id l res, res ≫= store_one (metrics_at n) metric_id l)
           (Ok st.1) st.2.

(** What a reference to a value, and to a metrics mapping, stands for. *)
Definition value_of (h : list object) (v : value) : option MetricValue :=
  match v with
  | Num x => Some (Scalar x)
  | Rec values count mn mx mean median =>
      match h !! values with
      | Some (ListObj l) =>
          Some (Aggregated (Summary l count mn mx mean median))
      | _ => None
      end
  end.

(** The mapping at [l] stands for [m]. *)
Definition stands_for (h : list object) (l : nat)
    (m : gmap string MetricValue) : Prop :=
  ∃ d, h !! l = Some (DictObj d) ∧
       ∀ k, match d !! k with
            | Some v => is_Some (value_of h v) ∧ m !! k = value_of h v
            | None => m !! k = None
            end.

(** The first loop writes new lists only: the store has grown from [h0],
    the objects of [h0] are as they were, and the local [metrics] refers to
    lists that [h0] did not have. *)
Definition loop_inv (h0 : list object) (st : list object * gmap string nat)
    : Prop :=
  length h0 ≤ length st.1 ∧
  (∀ l, l < length h0 → st.1 !! l = h0 !! l) ∧
  (∀ k l, st.2 !! k = Some l → length h0 ≤ l).

(** The list at a location, and the list that the local [metrics] holds
    under a name. *)
Definition list_at (h : list object) (l : nat) : option (list Qc) :=
  match h !! l with
  | Some (ListObj vs) => Some vs
  | _ => None
  end.

Definition acc_view (st : list object * gmap string nat) (k : string)
    : option (list Qc) :=
  st.2 !! k ≫= list_at st.1.

(** The local [metrics] refers to lists, a different one under each
    name. *)
Definition acc_ok (st : list object * gmap string nat) : Prop :=
  (∀ k l, st.2 !! k = Some l → is_Some (list_at st.1 l)) ∧
  (∀ k1 k2 l, st.2 !! k1 = Some l → st.2 !! k2 = Some l → k1 = k2).

(** A sample store: the metrics of two leaves and of their parent, and the
    list of a record that the parent already holds. *)
Definition sample_store : list object :=
  [DictObj {["time_open" := Num (Q2Qc (3 # 1))]};
   DictObj {["time_open" := Rec 3 1 (Q2Qc (1 # 2)) (Q2Qc (1 # 2))
                              (Q2Qc (1 # 2)) (Q2Qc (1 # 2))]};
   DictObj ∅;
   ListObj [Q2Qc (1 # 2)]].

Definition sample_tree : tree :=
  Tree [("i1", Tree [] 0); ("i2", Tree [] 1)] 2.

End Store.

(** ** Vocabulary of the statements *)

(** [m] is the least, respectively the greatest, element of [l]. *)
Definition least (m : Qc) (l : list Qc) : Prop := m ∈ l ∧ ∀ y, y ∈ l → m ≤ y.
Definition greatest (m : Qc) (l : list Qc) : Prop := m ∈ l ∧ ∀ y, y ∈ l → y ≤ m.

(** [m] is the middle of the ascending sequence [s]: its middle element
    when the length is odd, the average of its two middle elements when the
    length is even. *)
Definition middle (m : Qc) (s : list Qc) : Prop :=
  (∀ k, length s = (2 * k + 1)%nat → s !! k = Some m) ∧
  (∀ k, length s = (2 * k + 2)%nat →
     ∃ a b, s !! k = Some a ∧ s !! (k + 1)%nat = Some b ∧ m = (a + b) / Py.of_nat 2).

(** What one child contributes to a metric name, what all children
    contribute in the order they are walked, and whether any child holds the
    name at all. *)
Definition contribution (metric_id : string) (item : node) : list Qc :=
  match metrics item !! metric_id with
  | Some value => as_list value
  | None => []
  end.

Definition contributions (metric_id : string)
    (children : list (string * node)) : list Qc :=
  children ≫= (λ item, contribution metric_id item.2).

Definition observed (metric_id : string)
    (children : list (string * node)) : Prop :=
  Exists (λ item, is_Some (metrics item.2 !! metric_id)) children.

#[global] Instance observed_dec metric_id children :
  Decision (observed metric_id children).
Proof. unfold observed. apply _. Defined.

(** Records are made by [aggregate] only, from at least one value. *)
Definition wf_value (value : MetricValue) : Prop :=
  match value with
  | Scalar _ => True
  | Aggregated r => r_values r ≠ []
  end.

#[global] Instance wf_value_dec value : Decision (wf_value value).
Proof. destruct value; simpl; apply _. Defined.

Definition wf_metrics (m : gmap string MetricValue) : Prop :=
  map_Forall (λ _ value, wf_value value) m.

#[global] Instance wf_metrics_dec m : Decision (wf_metrics m).
Proof. unfold wf_metrics. apply _. Defined.

Definition wf_children (children : list (string * node)) : Prop :=
  Forall (λ item, wf_metrics (metrics item.2)) children.

#[global] Instance wf_children_dec children : Decision (wf_children children).
Proof. unfold wf_children. apply _. Defined.

(** The metrics attached for an issue: those of the leaf under its url in
    the node of its repository. *)
Definition attached (repo_node : node) (url : string)
    : option (gmap string MetricValue) :=
  metrics <$> get_child url (nodes repo_node).

(** The two gates of lines 78-82. *)
Definition gated (ADMINS : list string) (end_date : Z) (issue : Issue.t) : Prop :=
  Issue.author issue ∈ ADMINS ∨ (end_date < Issue.created_at issue)%Z.

#[global] Instance gated_dec ADMINS end_date issue :
  Decision (gated ADMINS end_date issue).
Proof. unfold gated. apply _. Defined.

(** The leaf that one pass of the loop body leaves under the url of an
    issue in a repository that had none there. *)
Definition leaf_of (ADMINS : list string) (start_date end_date : Z)
    (issue : Issue.t) : option node :=
  get_child (Issue.url issue)
    (nodes (process_issue ADMINS start_date end_date (base_type, []) issue).1).

(** ** Sample data *)

Definition days (n : Z) (d : positive) : Qc := Q2Qc (n # d).

Definition leaf (ms : list (string * Qc)) : node :=
  Node [] (list_to_map (prod_map id Scalar <$> ms)).

(** A repository with four issues. *)
Definition sample_repo : node :=
  Node [("i1", leaf [("time_to_close_bug", days 3 1)]);
        ("i2", leaf [("time_to_close_bug", days 7 1); ("time_open", days 1 2)]);
        ("i3", leaf [("time_to_close_bug", days 4 1)]);
        ("i4", leaf [("time_to_close_bug", days 1 1)])] ∅.

(** The issues one pass of the loop body appends to
    [self.untagged_issues]. *)
Definition untagged_of (ADMINS : list string) (start_date end_date : Z)
    (issue : Issue.t) : list Issue.t :=
  if decide (gated ADMINS end_date issue) then []
  else if decide (start_date ≤ Issue.created_at issue)%Z
  then (categorise issue).2
  else [].

(** All of them, in the order in which a run meets them. *)
Definition offenders (ADMINS : list string)
    (ALL_REPOS : list (string * list string))
    (get_repo_issues : string → string → list Issue.t)
    (start_date end_date : Z) : list Issue.t :=
  ALL_REPOS ≫= λ org,
    org.2 ≫= λ repo,
      get_repo_issues org.1 repo ≫= untagged_of ADMINS start_date end_date.

(** The shape of the tree that lines 33-39 of [run] build from a new
    collector: leaves hold day counts, the nodes above hold nothing yet. *)
Definition is_scalar (value : MetricValue) : Prop :=
  match value with
  | Scalar _ => True
  | Aggregated _ => False
  end.

#[global] Instance is_scalar_dec value : Decision (is_scalar value).
Proof. destruct value; simpl; apply _. Defined.

Definition leaf_node (n : node) : Prop :=
  map_Forall (λ _ value, is_scalar value) (metrics n).

#[global] Instance leaf_node_dec n : Decision (leaf_node n).
Proof. unfold leaf_node. apply _. Defined.

#[global] Instance summary_eq_dec : EqDecision summary.
Proof. solve_decision. Defined.

#[global] Instance MetricValue_eq_dec : EqDecision MetricValue.
Proof. solve_decision. Defined.

Definition repo_tree (n : node) : Prop :=
  metrics n = ∅ ∧ Forall (λ item, leaf_node item.2) (nodes n).

#[global] Instance repo_tree_dec n : Decision (repo_tree n).
Proof. unfold repo_tree. apply _. Defined.

Definition org_tree (n : node) : Prop :=
  metrics n = ∅ ∧ Forall (λ item, repo_tree item.2) (nodes n).

#[global] Instance org_tree_dec n : Decision (org_tree n).
Proof. unfold org_tree. apply _. Defined.

Definition global_tree (n : node) : Prop :=
  metrics n = ∅ ∧ Forall (λ item, org_tree item.2) (nodes n).

#[global] Instance global_tree_dec n : Decision (global_tree n).
Proof. unfold global_tree. apply _. Defined.

(** A node after [aggregate]: each entry is a record that repeats the
    statistics of its own values. *)
Definition aggregated_node (n : node) : Prop :=
  map_Forall (λ _ value,
                ∃ r, value = Aggregated r ∧ summarise_values (r_values r) = Ok r)
             (metrics n).

(** One organisation with two repositories. *)
Definition sample_global : node :=
  Node [("org",
         Node [("A", sample_repo);
               ("B", Node [("i5", leaf [("time_to_close_feature", days 10 1)])]
                          ∅)] ∅)] ∅.

(** A record and a metrics mapping as plain fractions, to read them. *)
Definition show_summary (r : summary) : list Q * nat * Q * Q * Q * Q :=
  (this <$> r_values r, r_count r,
   this (r_min r), this (r_max r), this (r_mean r), this (r_median r)).

Definition show_metrics (n : node)
    : list (string * (Q + list Q * nat * Q * Q * Q * Q)) :=
  map_to_list
    ((λ value, match value with
               | Scalar x => inl (this x)
               | Aggregated r => inr (show_summary r)
               end) <$> metrics n).

(** The scenario of the design document: repository A with two bugs closed
    after 3 and 7 days, repository B with a feature closed after 10. *)
Definition scenario_issue (url category : string) (time_to_close : Qc)
    : Issue.t :=
  {| Issue.url := url;
     Issue.author := "alice";
     Issue.created_at := 950400;
     Issue.closed := true;
     Issue.first_admin_comment := Some 1000000%Z;
     Issue.category := Some category;
     Issue.status := "normal";
     Issue.metrics := {["time_to_close" := time_to_close]} |}.

Definition scenario_issues (org repo : string) : list Issue.t :=
  if decide (repo = "A")
  then [scenario_issue "A/1" "bug" (days 3 1);
        scenario_issue "A/2" "bug" (days 7 1)]
  else [scenario_issue "B/1" "feature" (days 10 1)].

(** Dates of a sample run, in seconds: ten days for the start date, a
    hundred days for any other date. *)
Definition sample_dates (date : string) : Z :=
  if decide (date = "2020-01-01") then 864000%Z else 8640000%Z.

(** A closed bug an admin has commented on. *)
Definition sample_closed : Issue.t :=
  {| Issue.url := "https://github.com/org/repo/issues/1";
     Issue.author := "alice";
     Issue.created_at := 950400;
     Issue.closed := true;
     Issue.first_admin_comment := Some 1000000%Z;
     Issue.category := Some "bug";
     Issue.status := "normal";
     Issue.metrics := {["time_to_close" := days 3 1]} |}.

(** A closed pull request that fixes a bug, commented on by an admin:
    event processing left a [time_to_close_pr] beside the
    [time_to_close]. *)
Definition sample_closed_pr : Issue.t :=
  {| Issue.url := "https://github.com/org/repo/pull/10";
     Issue.author := "alice";
     Issue.created_at := 950400;
     Issue.closed := true;
     Issue.first_admin_comment := Some 1000000%Z;
     Issue.category := Some "bug";
     Issue.status := "normal";
     Issue.metrics := {["time_to_close" := days 3 1;
                        "time_to_close_pr" := days 3 1]} |}.

(** The same bug without a comment of an admin. *)
Definition sample_unanswered : Issue.t :=
  {| Issue.url := "https://github.com/org/repo/issues/2";
     Issue.author := "alice";
     Issue.created_at := 950400;
     Issue.closed := true;
     Issue.first_admin_comment := None;
     Issue.category := Some "bug";
     Issue.status := "normal";
     Issue.metrics := {["time_to_close" := days 3 1]} |}.

(** The same bug, commented on, created before the start date. *)
Definition sample_early_closed : Issue.t :=
  {| Issue.url := "https://github.com/org/repo/issues/3";
     Issue.author := "alice";
     Issue.created_at := 86400;
     Issue.closed := true;
     Issue.first_admin_comment := Some 1000000%Z;
     Issue.category := Some "bug";
     Issue.status := "normal";
     Issue.metrics := {["time_to_close" := days 12 1]} |}.

(** An open bug that awaits its resolution. *)
Definition sample_open : Issue.t :=
  {| Issue.url := "https://github.com/org/repo/issues/4";
     Issue.author := "alice";
     Issue.created_at := 950400;
     Issue.closed := false;
     Issue.first_admin_comment := Some 1000000%Z;
     Issue.category := Some "bug";
     Issue.status := "normal";
     Issue.metrics := {["time_awaiting_resolution" := days 2 1]} |}.

(** An open issue created before the start date. *)
Definition sample_early_open : Issue.t :=
  {| Issue.url := "https://github.com/org/repo/issues/5";
     Issue.author := "alice";
     Issue.created_at := 86400;
     Issue.closed := false;
     Issue.first_admin_comment := None;
     Issue.category := None;
     Issue.status := "normal";
     Issue.metrics := {["time_awaiting_resolution" := days 2 1]} |}.

(** An issue an admin opened. *)
Definition sample_admin : Issue.t :=
  {| Issue.url := "https://github.com/org/repo/issues/6";
     Issue.author := "bob";
     Issue.created_at := 950400;
     Issue.closed := true;
     Issue.first_admin_comment := Some 1000000%Z;
     Issue.category := Some "bug";
     Issue.status := "normal";
     Issue.metrics := {["time_to_close" := days 3 1]} |}.

(** An open issue without a category that awaits its resolution. *)
Definition sample_untagged : Issue.t :=
  {| Issue.url := "https://github.com/org/repo/issues/7";
     Issue.author := "alice";
     Issue.created_at := 950400;
     Issue.closed := false;
     Issue.first_admin_comment := None;
     Issue.category := None;
     Issue.status := "normal";
     Issue.metrics := {["time_awaiting_resolution" := days 2 1]} |}.


(** ** Vocabulary of the further statements *)

(** How many values a child brings under a metric name. *)
Definition child_count (metric_id : string) (item : string * node) : nat :=
  match metrics item.2 !! metric_id with
  | Some (Scalar _) => 1
  | Some (Aggregated r) => r_count r
  | None => 0
  end.

(** The node holds, under the name, the statistics of the values [vs]:
    nothing when there are none, their record otherwise. *)
Definition holds_stats (metric_id : string) (vs : list Qc) (n : node) : Prop :=
  (vs = [] → metrics n !! metric_id = None) ∧
  (vs ≠ [] → ∃ r, summarise_values vs = Ok r ∧
                  metrics n !! metric_id = Some (Aggregated r)).

(** The values that the issues of a repository, of an organisation and of
    the whole tree hold under a metric name, in the order of the walk. *)
Definition repo_values (metric_id : string) (repo_node : node) : list Qc :=
  contributions metric_id (nodes repo_node).

Definition org_values (metric_id : string) (org_node : node) : list Qc :=
  nodes org_node ≫= λ item, repo_values metric_id item.2.

Definition global_values (metric_id : string) (global_node : node) : list Qc :=
  nodes global_node ≫= λ item, org_values metric_id item.2.

(** What a child tells of its values under a metric name from its
    statistics alone: its least and its greatest value (a number itself, a
    record its [min] and its [max]). *)
Definition child_min (metric_id : string) (item : string * node)
    : option Qc :=
  match metrics item.2 !! metric_id with
  | Some (Scalar x) => Some x
  | Some (Aggregated r) => Some (r_min r)
  | None => None
  end.

Definition child_max (metric_id : string) (item : string * node)
    : option Qc :=
  match metrics item.2 !! metric_id with
  | Some (Scalar x) => Some x
  | Some (Aggregated r) => Some (r_max r)
  | None => None
  end.

(** The record a child holds under a metric name, if it holds one, repeats
    the statistics of its own values, as every record [aggregate] makes. *)
Definition coherent_at (metric_id : string) (item : string * node) : Prop :=
  ∀ r, metrics item.2 !! metric_id = Some (Aggregated r) →
       summarise_values (r_values r) = Ok r.

(** [item'] is [item] after the pass: the same name, and under every
    metric name the statistics of the [values] beneath [item]. *)
Definition rolled_up (values : string → node → list Qc)
    (item item' : string * node) : Prop :=
  item'.1 = item.1 ∧ ∀ k, holds_stats k (values k item.2) item'.2.

(** The cells that [summarize] writes for a record: one for each key of
    the record other than ['values'], its name the suffix of the column,
    in the order of the dict literal of [aggregate]. *)
Definition stat_cells (r : summary) : list (string * cell) :=
  [("_count", Int (r_count r)); ("_min", Num (r_min r));
   ("_max", Num (r_max r)); ("_mean", Num (r_mean r));
   ("_median", Num (r_median r))].

(** The suffixes alone. *)
Definition stat_names : list string :=
  ["_count"; "_min"; "_max"; "_mean"; "_median"].

(** What [summarize] makes of the metrics mapping of the node. *)
Definition summarize_post name date (m : gmap string MetricValue)
    (res : result (gmap string cell)) : Prop :=
  match res with
  | Ok row =>
      map_Forall (λ _ value, ∃ r, value = Aggregated r) m ∧
      size row = (2 + 5 * size m)%nat ∧
      ∀ key c, row !! key = Some c ↔
        (key = "name" ∧ c = Str name) ∨ (key = "date" ∧ c = Str date) ∨
        ∃ k r suffix, m !! k = Some (Aggregated r) ∧
                      (suffix, c) ∈ stat_cells r ∧ key = k +:+ suffix
  | Raise e => e = AttributeError ∧ ∃ k x, m !! k = Some (Scalar x)
  end.

(** The names of the rows that the bottom-up pass appends for a tree: for
    each organisation those of its repositories and then its own, and
    [global] at the end. *)
Definition report_names (global_node : node) : list string :=
  (nodes global_node ≫= λ org, (nodes org.2).*1 ++ [org.1]) ++ ["global"].

Definition row_name (row : gmap string cell) : option cell := row !! "name".
Definition row_date (row : gmap string cell) : option cell := row !! "date".

(** A row of cells reads the row [metrics] in the columns [header]:
    filled up with empty cells to the width of the header, it holds under
    each column what [metrics] has under its name. *)
Definition aligned (header : list string) (row : list (option cell))
    (metrics : list (string * cell)) : Prop :=
  (λ col, get col metrics) <$> header =
    row ++ replicate (length header - length row) None.

(** The header and the row while the items of [metrics] are walked:
    [seen] are the items behind. *)
Definition row_inv header metrics (seen : list (string * cell))
    (st : list string * list (option cell)) : Prop :=
  ∃ new,
    st.1 = header ++ new ∧
    NoDup new ∧
    (∀ col, col ∈ new → (col ∉ header) ∧ col ∈ seen.*1) ∧
    (∀ k, k ∈ seen.*1 → k ∈ st.1) ∧
    st.2 = (λ col, get col metrics) <$> st.1.

(** The header and the rows of cells while [self.all_metrics] is walked. *)
Definition sheet_inv header (seen : list (list (string * cell)))
    (st : list string * list (list (option cell))) : Prop :=
  ∃ new,
    st.1 = header ++ new ∧
    NoDup new ∧
    (∀ col, col ∈ new →
       (col ∉ header) ∧ ∃ metrics, metrics ∈ seen ∧ col ∈ metrics.*1) ∧
    Forall2 (λ row metrics,
               ∃ cols rest,
                 st.1 = cols ++ rest ∧
                 row = (λ col, get col metrics) <$> cols ∧
                 (∀ k, k ∈ metrics.*1 → k ∈ cols) ∧
                 (∀ col, col ∈ rest → col ∉ cols))
            st.2 seen.

(** ** Further sample data *)

(** A record without values, as [aggregate] never makes one, and a node
    whose only child holds it. *)
Definition empty_record : summary := Summary [] 0 0 0 0 0.

Definition sample_hollow : node :=
  Node [("i1", Node [] {["time_open" := Aggregated empty_record]})] ∅.

(** A repository that was aggregated before its only issue changed its
    metric. *)
Definition sample_stale : node :=
  Node [("i1", leaf [("time_open", days 2 1)])]
       {["time_to_close_bug" :=
           Aggregated (Summary [days 3 1] 1 (days 3 1) (days 3 1) (days 3 1)
                         (days 3 1))]}.

(** A node as [aggregate] leaves it: the two bugs of repository A. *)
Definition sample_summarised : node :=
  Node [] {["time_to_close_bug" :=
              Aggregated (Summary [days 3 1; days 7 1] 2 (days 3 1) (days 7 1)
                            (days 5 1) (days 5 1))]}.

(** An issue without a category that holds both durations. *)
Definition sample_untagged_closed : Issue.t :=
  {| Issue.url := "https://github.com/org/repo/issues/8";
     Issue.author := "alice";
     Issue.created_at := 950400;
     Issue.closed := true;
     Issue.first_admin_comment := Some 1000000%Z;
     Issue.category := None;
     Issue.status := "normal";
     Issue.metrics := {["time_to_close" := days 3 1;
                        "time_awaiting_resolution" := days 2 1]} |}.

(** A pull request no admin has commented on; event processing left a
    [time_to_close_pr] and the time to the first contact. *)
Definition sample_pr : Issue.t :=
  {| Issue.url := "https://github.com/org/repo/pull/9";
     Issue.author := "alice";
     Issue.created_at := 950400;
     Issue.closed := true;
     Issue.first_admin_comment := None;
     Issue.category := Some "pr";
     Issue.status := "normal";
     Issue.metrics := {["time_to_close_pr" := days 5 1;
                        "time_to_contact" := days 1 1]} |}.

(** A sheet and three rows of the report. *)
Definition sample_header : list string := ["name"; "date"; "time_open_count"].

Definition sample_rows : list (list (string * cell)) :=
  [[("name", Str "A"); ("date", Str "2020-04-20");
    ("time_to_close_bug_count", Int 2)];
   [("name", Str "B"); ("date", Str "2020-04-20");
    ("time_to_close_feature_count", Int 1)];
   [("name", Str "org"); ("date", Str "2020-04-20");
    ("time_to_close_feature_count", Int 1);
    ("time_to_close_bug_count", Int 2)]].

(** * Properties *)

(** ** The built-ins *)

Section builtins.
Implicit Types (l data : list Qc) (x y m : Qc).

Lemma sorted_Sorted l : Sorted Qcle (Py.sorted l).
Proof. apply (Sorted_merge_sort Qcle). Qed.

Lemma sorted_Permutation l : Py.sorted l ≡ₚ l.
Proof. apply (merge_sort_Permutation Qcle). Qed.

Lemma sorted_length l : length (Py.sorted l) = length l.
Proof. by rewrite sorted_Permutation. Qed.

(** The ascending arrangement of a bag of numbers is unique. *)
Lemma sorted_perm l1 l2 : l1 ≡ₚ l2 → Py.sorted l1 = Py.sorted l2.
Proof.
  intros Hp. apply (Sorted_unique Qcle); [apply sorted_Sorted..|].
  by rewrite !sorted_Permutation.
Qed.

Lemma sorted_idemp l : Py.sorted (Py.sorted l) = Py.sorted l.
Proof. apply sorted_perm, sorted_Permutation. Qed.

Lemma sorted_nil_inv l : Py.sorted l = [] → l = [].
Proof.
  intros H. apply Permutation_nil_r. rewrite <-H. symmetry.
  apply sorted_Permutation.
Qed.

Lemma least_unique m1 m2 l1 l2 :
  l1 ≡ₚ l2 → least m1 l1 → least m2 l2 → m1 = m2.
Proof.
  intros Hp [Hin1 Hle1] [Hin2 Hle2].
  apply Qcle_antisym; [apply Hle1; by rewrite Hp|apply Hle2; by rewrite <-Hp].
Qed.

Lemma greatest_unique m1 m2 l1 l2 :
  l1 ≡ₚ l2 → greatest m1 l1 → greatest m2 l2 → m1 = m2.
Proof.
  intros Hp [Hin1 Hle1] [Hin2 Hle2].
  apply Qcle_antisym; [apply Hle2; by rewrite <-Hp|apply Hle1; by rewrite Hp].
Qed.

Lemma min_fold_least l x :
  least (foldl (λ m y, if decide (y < m) then y else m) x l) (x :: l).
Proof.
  revert x. induction l as [|z l IH]; intros x; simpl.
  - split; [left|]. intros y ->%list_elem_of_singleton. apply Qcle_refl.
  - destruct (IH (if decide (z < x) then z else x)) as [Hin Hle].
    split.
    + apply elem_of_cons in Hin as [->|Hin].
      * case_decide; [right; left|left].
      * do 2 right. done.
    + intros y Hy. case_decide as Hlt.
      * apply elem_of_cons in Hy as [->|Hy]; [|by apply Hle].
        eapply Qcle_trans; [apply Hle; left|]. by apply Qclt_le_weak.
      * apply elem_of_cons in Hy as [->|Hy]; [apply Hle; left|].
        apply elem_of_cons in Hy as [->|Hy]; [|apply Hle; by right].
        eapply Qcle_trans; [apply Hle; left|]. by apply Qcnot_lt_le.
Qed.

Lemma max_fold_greatest l x :
  greatest (foldl (λ m y, if decide (m < y) then y else m) x l) (x :: l).
Proof.
  revert x. induction l as [|z l IH]; intros x; simpl.
  - split; [left|]. intros y ->%list_elem_of_singleton. apply Qcle_refl.
  - destruct (IH (if decide (x < z) then z else x)) as [Hin Hle].
    split.
    + apply elem_of_cons in Hin as [->|Hin].
      * case_decide; [right; left|left].
      * do 2 right. done.
    + intros y Hy. case_decide as Hlt.
      * apply elem_of_cons in Hy as [->|Hy]; [|by apply Hle].
        eapply Qcle_trans; [|apply Hle; left]. by apply Qclt_le_weak.
      * apply elem_of_cons in Hy as [->|Hy]; [apply Hle; left|].
        apply elem_of_cons in Hy as [->|Hy]; [|apply Hle; by right].
        eapply Qcle_trans; [|apply Hle; left]. by apply Qcnot_lt_le.
Qed.

Lemma min_Ok l m : Py.min l = Ok m → least m l.
Proof. destruct l; [done|]. intros [= <-]. apply min_fold_least. Qed.

Lemma max_Ok l m : Py.max l = Ok m → greatest m l.
Proof. destruct l; [done|]. intros [= <-]. apply max_fold_greatest. Qed.

Lemma min_perm l1 l2 : l1 ≡ₚ l2 → Py.min l1 = Py.min l2.
Proof.
  intros Hp. destruct l1 as [|x1 l1], l2 as [|x2 l2]; [done| | |].
  - by apply Permutation_nil_cons in Hp.
  - symmetry in Hp. by apply Permutation_nil_cons in Hp.
  - simpl. f_equal. eapply least_unique; [done|apply min_fold_least..].
Qed.

Lemma max_perm l1 l2 : l1 ≡ₚ l2 → Py.max l1 = Py.max l2.
Proof.
  intros Hp. destruct l1 as [|x1 l1], l2 as [|x2 l2]; [done| | |].
  - by apply Permutation_nil_cons in Hp.
  - symmetry in Hp. by apply Permutation_nil_cons in Hp.
  - simpl. f_equal. eapply greatest_unique; [done|apply max_fold_greatest..].
Qed.

Lemma sum_perm l1 l2 : l1 ≡ₚ l2 → Py.sum l1 = Py.sum l2.
Proof.
  induction 1 as [|x l1 l2 _ IH|x y l|l1 l2 l3 _ IH1 _ IH2]; simpl.
  - done.
  - by rewrite IH.
  - rewrite !Qcplus_assoc. f_equal. apply Qcplus_comm.
  - congruence.
Qed.

Lemma mean_perm l1 l2 : l1 ≡ₚ l2 → Py.mean l1 = Py.mean l2.
Proof.
  intros Hp. unfold Py.mean, Py.len.
  by rewrite (sum_perm _ _ Hp), (Permutation_length Hp).
Qed.

Lemma median_perm l1 l2 : l1 ≡ₚ l2 → Py.median l1 = Py.median l2.
Proof. intros Hp. unfold Py.median. by rewrite (sorted_perm _ _ Hp). Qed.

End builtins.

(** ** The record of statistics *)

Section summarise.
Implicit Types (l : list Qc) (r : summary).

Lemma of_nat_ne_0 n : n ≠ 0%nat → Py.of_nat n ≠ 0.
Proof.
  intros Hn H. apply (f_equal this) in H. unfold Py.of_nat, Qc_of_Z in H.
  simpl in H. injection H. lia.
Qed.

Lemma median_Ok l : l ≠ [] → ∃ m, Py.median l = Ok m ∧ middle m (Py.sorted l).
Proof.
  intros Hl. unfold Py.median, Py.len, Py.index.
  pose proof (sorted_length l) as Hlen.
  assert (length l ≠ 0%nat) as Hn by (by destruct l).
  set (s := Py.sorted l) in *. set (n := length s) in *.
  case_decide as H0; [lia|]. case_decide as Hodd.
  - assert (n / 2 < n)%nat as Hlt by (apply Nat.div_lt; lia).
    destruct (lookup_lt_is_Some_2 s _ Hlt) as [m Hm]. rewrite Hm.
    exists m. split; [done|]. split.
    + intros k Hk. replace k with (n / 2)%nat; [done|].
      fold n in Hk. rewrite Hk. rewrite Nat.add_comm, Nat.mul_comm.
      rewrite Nat.div_add by lia. done.
    + intros k Hk. fold n in Hk. rewrite Hk in Hodd.
      replace (2 * k + 2)%nat with (0 + (k + 1) * 2)%nat in Hodd by lia.
      rewrite Nat.Div0.mod_add in Hodd. done.
  - assert (∃ k, n = 2 * k + 2)%nat as [k Hk].
    { exists (n / 2 - 1)%nat. pose proof (Nat.div_mod_eq n 2).
      pose proof (Nat.mod_upper_bound n 2). lia. }
    assert (n / 2 = k + 1)%nat as ->.
    { rewrite Hk. replace (2 * k + 2)%nat with (0 + (k + 1) * 2)%nat by lia.
      by rewrite Nat.div_add by lia. }
    replace (k + 1 - 1)%nat with k by lia.
    destruct (lookup_lt_is_Some_2 s k) as [a Ha]; [lia|].
    destruct (lookup_lt_is_Some_2 s (k + 1)) as [b Hb]; [lia|].
    rewrite Ha, Hb. simpl. eexists. split; [done|]. split.
    + intros k' Hk'. fold n in Hk'. lia.
    + intros k' Hk'. fold n in Hk'. assert (k' = k) as -> by lia. eauto.
Qed.

Lemma summarise_values_nil : summarise_values [] = Raise ValueError.
Proof. done. Qed.

(** On a non-empty list the record exists, and is the one of the design
    document. *)
Lemma summarise_values_Ok l :
  l ≠ [] →
  ∃ r, summarise_values l = Ok r ∧
    r_values r = Py.sorted l ∧
    r_count r = length l ∧
    least (r_min r) l ∧
    greatest (r_max r) l ∧
    r_mean r * Py.of_nat (length l) = Py.sum l ∧
    middle (r_median r) (Py.sorted l).
Proof.
  intros Hl. destruct (median_Ok l Hl) as (md & Hmd & Hmid).
  unfold summarise_values. rewrite Hmd.
  destruct l as [|x l]; [done|].
  eexists. split; [reflexivity|]. simpl. split_and!; try done.
  - apply min_fold_least.
  - apply max_fold_greatest.
  - unfold Qcdiv. rewrite <-Qcmult_assoc, Qcmult_inv_l, Qcmult_1_r; [done|].
    by apply of_nat_ne_0.
Qed.

Lemma summarise_values_Raise l e :
  summarise_values l = Raise e → l = [] ∧ e = ValueError.
Proof.
  destruct l as [|x l]; [by intros [= <-]|].
  destruct (summarise_values_Ok (x :: l)) as (r & -> & _); done.
Qed.

Lemma summarise_values_Ok_inv l r : summarise_values l = Ok r → l ≠ [].
Proof. by intros H ->. Qed.

(** The record depends on the bag of values only. *)
Lemma summarise_values_perm l1 l2 :
  l1 ≡ₚ l2 → summarise_values l1 = summarise_values l2.
Proof.
  intros Hp. unfold summarise_values, Py.len.
  by rewrite (min_perm _ _ Hp), (max_perm _ _ Hp), (mean_perm _ _ Hp),
    (median_perm _ _ Hp), (sorted_perm _ _ Hp), (Permutation_length Hp).
Qed.

(** A record made from the values of a record repeats its statistics. *)
Lemma summarise_values_sorted l :
  summarise_values (Py.sorted l) = summarise_values l.
Proof. apply summarise_values_perm, sorted_Permutation. Qed.

End summarise.

(** ** The two loops of [aggregate] *)

Section loops.
Implicit Types (acc : gmap string (list Qc)) (own : gmap string MetricValue).
Implicit Types (children : list (string * node)) (k : string).

Lemma lookup_extend k value acc j :
  extend k value acc !! j =
    if decide (k = j) then Some (default [] (acc !! k) ++ as_list value)
    else acc !! j.
Proof.
  unfold extend. case_decide as Hkj.
  - subst j. destruct (acc !! k) as [l|] eqn:Hk.
    + by rewrite lookup_alter_eq, Hk.
    + by rewrite lookup_alter_eq, lookup_insert_eq.
  - rewrite lookup_alter_ne by done.
    destruct (acc !! k); [done|]. by rewrite lookup_insert_ne.
Qed.

(** The inner loop, whatever the order in which the items are walked. *)
Lemma lookup_map_fold_extend acc (m : gmap string MetricValue) k :
  map_fold extend acc m !! k =
    match m !! k with
    | Some value => Some (default [] (acc !! k) ++ as_list value)
    | None => acc !! k
    end.
Proof.
  revert k.
  apply (map_fold_weak_ind (λ r (m : gmap string MetricValue), ∀ k,
    r !! k = match m !! k with
             | Some value => Some (default [] (acc !! k) ++ as_list value)
             | None => acc !! k
             end)).
  - intros k. by rewrite lookup_empty.
  - intros i x m' r Hi IH k. rewrite lookup_extend.
    case_decide as Hik.
    + subst k. rewrite lookup_insert_eq, IH, Hi. done.
    + rewrite lookup_insert_ne by done. apply IH.
Qed.

Lemma observed_cons k item children :
  observed k (item :: children) ↔
    is_Some (metrics item.2 !! k) ∨ observed k children.
Proof. apply Exists_cons. Qed.

Lemma contributions_cons k item children :
  contributions k (item :: children) =
    contribution k item.2 ++ contributions k children.
Proof. done. Qed.

Lemma contributions_unobserved k children :
  ¬ observed k children → contributions k children = [].
Proof.
  induction children as [|item children IH]; [done|].
  rewrite observed_cons. intros Hn.
  rewrite contributions_cons, IH by tauto.
  unfold contribution. destruct (metrics item.2 !! k) eqn:Hk; [|done].
  destruct Hn. left. eauto.
Qed.

Lemma lookup_foldl_collect children acc k :
  foldl (λ acc item, map_fold extend acc (metrics item.2)) acc children !! k =
    if decide (observed k children)
    then Some (default [] (acc !! k) ++ contributions k children)
    else acc !! k.
Proof.
  revert acc. induction children as [|item children IH]; intros acc;
    cbn [foldl].
  - rewrite decide_False; [done|]. by intros ?%Exists_nil.
  - rewrite IH, lookup_map_fold_extend, contributions_cons.
    unfold contribution.
    destruct (metrics item.2 !! k) as [value|] eqn:Hk.
    + simpl. rewrite (decide_True (P := observed k (item :: children)))
        by (apply observed_cons; left; eauto).
      case_decide as Hobs; [by rewrite (assoc_L (++))|].
      by rewrite contributions_unobserved, app_nil_r.
    + simpl. destruct (decide (observed k children)) as [Hobs|Hobs].
      * rewrite decide_True; [done|]. apply observed_cons. by right.
      * rewrite decide_False; [done|]. rewrite observed_cons.
        intros [[? ?]|?]; [congruence|done].
Qed.

(** The local [metrics] after the first loop: one entry per metric name
    some child holds, with the contributions in the order of the walk. *)
Lemma lookup_collect children k :
  collect children !! k =
    if decide (observed k children) then Some (contributions k children)
    else None.
Proof. unfold collect. by rewrite lookup_foldl_collect, lookup_empty. Qed.

(** The second loop: it raises exactly when some collected list is empty,
    and otherwise overwrites the collected names and keeps the other
    entries of the node. *)
Lemma store_spec (collected : gmap string (list Qc)) own :
  match store collected own with
  | Ok own' =>
      ∀ k, match collected !! k with
           | Some l => ∃ r, summarise_values l = Ok r ∧
                            own' !! k = Some (Aggregated r)
           | None => own' !! k = own !! k
           end
  | Raise e => e = ValueError ∧ ∃ k, collected !! k = Some []
  end.
Proof.
  unfold store.
  apply (map_fold_weak_ind (λ res (m : gmap string (list Qc)),
    match res with
    | Ok own' =>
        ∀ k, match m !! k with
             | Some l => ∃ r, summarise_values l = Ok r ∧
                              own' !! k = Some (Aggregated r)
             | None => own' !! k = own !! k
             end
    | Raise e => e = ValueError ∧ ∃ k, m !! k = Some []
    end)).
  - intros k. by rewrite lookup_empty.
  - intros i l m res Hi IH. destruct res as [own'|e]; simpl.
    + destruct (summarise_values l) as [r|e] eqn:Hr; simpl.
      * intros k. destruct (decide (i = k)) as [->|Hik].
        -- rewrite !lookup_insert_eq. eauto.
        -- rewrite !lookup_insert_ne by done. apply IH.
      * apply summarise_values_Raise in Hr as [-> ->].
        split; [done|]. exists i. by rewrite lookup_insert_eq.
    + destruct IH as [-> [k Hk]]. split; [done|]. exists k.
      rewrite lookup_insert_ne; [done|]. congruence.
Qed.

End loops.

(** ** [aggregate] *)

Section aggregate.
Implicit Types (n : node) (children : list (string * node)) (k : string).

(** What a call does, in one statement: it raises [ValueError] exactly
    when some metric name some child holds receives no value at all, and
    otherwise returns the node with its children as they were, a record
    under each such name and its other entries kept. *)
Lemma aggregate_spec n :
  match aggregate n with
  | Ok n' =>
      nodes n' = nodes n ∧
      ∀ k, if decide (observed k (nodes n))
           then ∃ r, summarise_values (contributions k (nodes n)) = Ok r ∧
                     metrics n' !! k = Some (Aggregated r)
           else metrics n' !! k = metrics n !! k
  | Raise e =>
      e = ValueError ∧
      ∃ k, observed k (nodes n) ∧ contributions k (nodes n) = []
  end.
Proof.
  unfold aggregate.
  pose proof (store_spec (collect (nodes n)) (metrics n)) as Hs.
  destruct (store _ _) as [own'|e]; simpl.
  - split; [done|]. intros k. specialize (Hs k).
    rewrite lookup_collect in Hs. by case_decide.
  - destruct Hs as [-> [k Hk]]. split; [done|]. exists k.
    rewrite lookup_collect in Hk. case_decide; [|done].
    by injection Hk as ->.
Qed.

Lemma contribution_nonempty k item value :
  wf_metrics (metrics item) → metrics item !! k = Some value →
  contribution k item ≠ [].
Proof.
  intros Hwf Hk. unfold contribution. rewrite Hk.
  specialize (Hwf k value Hk). by destruct value.
Qed.

Lemma contributions_nonempty k children :
  wf_children children → observed k children → contributions k children ≠ [].
Proof.
  induction 1 as [|item children Hwf _ IH]; [by intros ?%Exists_nil|].
  rewrite observed_cons, contributions_cons. intros [[value Hk]|Hobs] Happ.
  - apply app_eq_nil in Happ as [Hc _].
    by apply (contribution_nonempty _ _ _ Hwf Hk).
  - apply app_eq_nil in Happ as [_ Hc]. by apply IH.
Qed.

(** A call on well-formed children returns. *)
Lemma aggregate_Ok n :
  wf_children (nodes n) → ∃ n', aggregate n = Ok n'.
Proof.
  intros Hwf. pose proof (aggregate_spec n) as Hs.
  destruct (aggregate n) as [n'|e]; [eauto|].
  destruct Hs as (_ & k & Hobs & Hnil).
  by destruct (contributions_nonempty k _ Hwf Hobs).
Qed.

(** The records a call stores are well formed, so the whole tree stays
    well formed from the leaves up. *)
Lemma aggregate_wf_metrics n n' :
  wf_metrics (metrics n) → aggregate n = Ok n' → wf_metrics (metrics n').
Proof.
  intros Hwf Hn' k value Hk. pose proof (aggregate_spec n) as Hs.
  rewrite Hn' in Hs. destruct Hs as [_ Hs]. specialize (Hs k).
  case_decide.
  - destruct Hs as (r & Hr & Hk'). rewrite Hk in Hk'. injection Hk' as ->.
    simpl. apply summarise_values_Ok_inv in Hr as Hne.
    destruct (summarise_values_Ok _ Hne) as (r' & Hr' & Hv & _).
    rewrite Hr in Hr'. injection Hr' as <-. rewrite Hv. intros Hnil.
    by apply sorted_nil_inv in Hnil.
  - rewrite Hs in Hk. by apply (Hwf k).
Qed.

Lemma contributions_perm k children1 children2 :
  children1 ≡ₚ children2 →
  contributions k children1 ≡ₚ contributions k children2.
Proof. intros Hp. unfold contributions. by rewrite Hp. Qed.

Lemma observed_perm k children1 children2 :
  children1 ≡ₚ children2 → observed k children1 → observed k children2.
Proof.
  unfold observed. rewrite !Exists_exists. intros Hp (item & Hin & Hk).
  exists item. by rewrite <-Hp.
Qed.

(** C1. On a node whose children hold day counts or records (of at
    least one value, as every record [aggregate] makes), [aggregate]
    returns, and under every metric name that some child holds it stores
    the record whose [values] are the ascending arrangement of what the
    children contribute (a number one value, a record its [values]),
    whose [count] is their number, [min] and [max] their least and
    greatest, [mean] their sum divided by their number, [median] the
    middle of the ascending arrangement, the average of the two middle
    values when their number is even. *)
Theorem aggregate_stores_statistics n metric_id :
  wf_children (nodes n) →
  observed metric_id (nodes n) →
  ∃ n' r,
    aggregate n = Ok n' ∧
    metrics n' !! metric_id = Some (Aggregated r) ∧
    Sorted Qcle (r_values r) ∧
    r_values r ≡ₚ contributions metric_id (nodes n) ∧
    r_count r = length (contributions metric_id (nodes n)) ∧
    least (r_min r) (contributions metric_id (nodes n)) ∧
    greatest (r_max r) (contributions metric_id (nodes n)) ∧
    r_mean r * Py.of_nat (length (contributions metric_id (nodes n))) =
      Py.sum (contributions metric_id (nodes n)) ∧
    middle (r_median r) (r_values r).
Proof.
  intros Hwf Hobs. destruct (aggregate_Ok n Hwf) as [n' Hn'].
  pose proof (aggregate_spec n) as Hs. rewrite Hn' in Hs.
  destruct Hs as [_ Hs]. specialize (Hs metric_id).
  rewrite decide_True in Hs by done. destruct Hs as (r & Hr & Hk).
  pose proof (contributions_nonempty _ _ Hwf Hobs) as Hne.
  destruct (summarise_values_Ok _ Hne)
    as (r' & Hr' & Hv & Hc & Hmin & Hmax & Hmean & Hmed).
  rewrite Hr in Hr'. injection Hr' as <-.
  exists n', r. rewrite Hv. split_and!; try done.
  - apply sorted_Sorted.
  - apply sorted_Permutation.
Qed.

(** C4. Walking the children of a node in another order changes nothing
    in what [aggregate] stores: the two calls return the same metrics
    mapping (hence the same [count], [min], [max], [mean] and [median]
    under every metric name), or both raise the same exception. *)
Theorem aggregate_order_independent children1 children2 own :
  children1 ≡ₚ children2 →
  match aggregate (Node children1 own), aggregate (Node children2 own) with
  | Ok n1, Ok n2 => metrics n1 = metrics n2
  | Raise e1, Raise e2 => e1 = e2
  | _, _ => False
  end.
Proof.
  intros Hp.
  pose proof (aggregate_spec (Node children1 own)) as H1.
  pose proof (aggregate_spec (Node children2 own)) as H2.
  assert (∀ k children children' n,
    children ≡ₚ children' →
    observed k children' → contributions k children' = [] →
    (if decide (observed k children)
     then ∃ r, summarise_values (contributions k children) = Ok r ∧
               metrics n !! k = Some (Aggregated r)
     else metrics n !! k = own !! k) → False) as Hmixed.
  { intros k c c' n Hcc Hobs Hnil Hk.
    rewrite decide_True in Hk by (by eapply observed_perm).
    destruct Hk as (r & Hr & _).
    rewrite (summarise_values_perm _ _ (contributions_perm k _ _ Hcc)) in Hr.
    by rewrite Hnil in Hr. }
  destruct (aggregate (Node children1 own)) as [n1|e1],
    (aggregate (Node children2 own)) as [n2|e2]; simpl in *.
  - destruct H1 as [_ H1], H2 as [_ H2]. apply map_eq. intros k.
    specialize (H1 k). specialize (H2 k).
    destruct (decide (observed k children1)) as [Hobs|Hobs].
    + rewrite decide_True in H2 by (by eapply observed_perm).
      destruct H1 as (r1 & Hr1 & ->), H2 as (r2 & Hr2 & ->).
      rewrite (summarise_values_perm _ _ (contributions_perm k _ _ Hp)) in Hr1.
      congruence.
    + rewrite decide_False in H2; [congruence|].
      intros Hobs'. apply Hobs. by eapply observed_perm.
  - destruct H1 as [_ H1], H2 as (_ & k & Hobs & Hnil).
    exact (Hmixed k children1 children2 n1 Hp Hobs Hnil (H1 k)).
  - destruct H2 as [_ H2], H1 as (_ & k & Hobs & Hnil).
    symmetry in Hp.
    exact (Hmixed k children2 children1 n2 Hp Hobs Hnil (H2 k)).
  - destruct H1 as [-> _], H2 as [-> _]. done.
Qed.

(** C8. On a node whose children are well formed, [aggregate] raises
    nothing; it stores a record only under the metric names that some
    child holds, each made from at least one value; the other entries of
    the node are as before; and a node without children is returned as it
    is, with the empty metrics mapping [base_type()] gave it. *)
Theorem aggregate_emits_nonempty_only n :
  wf_children (nodes n) →
  ∃ n',
    aggregate n = Ok n' ∧
    (∀ k, observed k (nodes n) →
       contributions k (nodes n) ≠ [] ∧
       ∃ r, metrics n' !! k = Some (Aggregated r) ∧
            r_values r ≠ [] ∧ (0 < r_count r)%nat) ∧
    (∀ k, ¬ observed k (nodes n) → metrics n' !! k = metrics n !! k) ∧
    (nodes n = [] → n' = n ∧ (metrics n = ∅ → metrics n' = ∅)).
Proof.
  intros Hwf. destruct (aggregate_Ok n Hwf) as [n' Hn']. exists n'.
  pose proof (aggregate_spec n) as Hs. rewrite Hn' in Hs.
  destruct Hs as [Hnodes Hs]. split_and!; [done|..].
  - intros k Hobs. specialize (Hs k). rewrite decide_True in Hs by done.
    destruct Hs as (r & Hr & Hk).
    pose proof (contributions_nonempty _ _ Hwf Hobs) as Hne.
    split; [done|]. exists r.
    destruct (summarise_values_Ok _ Hne) as (r' & Hr' & Hv & Hc & _).
    rewrite Hr in Hr'. injection Hr' as <-. split_and!; [done|..].
    + rewrite Hv. by intros ?%sorted_nil_inv.
    + rewrite Hc. destruct (contributions k (nodes n)); [done|simpl; lia].
  - intros k Hobs. specialize (Hs k). by rewrite decide_False in Hs.
  - intros Hnil. assert (metrics n' = metrics n) as Hm.
    { apply map_eq. intros k. specialize (Hs k).
      rewrite decide_False in Hs; [done|]. rewrite Hnil.
      by intros ?%Exists_nil. }
    split; [|congruence]. destruct n, n'; simpl in *. congruence.
Qed.

End aggregate.

(** A witness of C1: the four issues of [sample_repo]. *)
Lemma aggregate_stores_statistics_witness :
  ∃ n' r,
    aggregate sample_repo = Ok n' ∧
    metrics n' !! "time_to_close_bug" = Some (Aggregated r) ∧
    Sorted Qcle (r_values r) ∧
    r_values r ≡ₚ contributions "time_to_close_bug" (nodes sample_repo) ∧
    r_count r = length (contributions "time_to_close_bug" (nodes sample_repo)) ∧
    least (r_min r) (contributions "time_to_close_bug" (nodes sample_repo)) ∧
    greatest (r_max r) (contributions "time_to_close_bug" (nodes sample_repo)) ∧
    r_mean r
      * Py.of_nat (length (contributions "time_to_close_bug" (nodes sample_repo))) =
      Py.sum (contributions "time_to_close_bug" (nodes sample_repo)) ∧
    middle (r_median r) (r_values r).
Proof.
  apply (aggregate_stores_statistics sample_repo "time_to_close_bug").
  - apply (bool_decide_unpack _). vm_compute. exact I.
  - apply (bool_decide_unpack _). vm_compute. exact I.
Defined.

(** A witness of C4: two issues swapped. *)
Lemma aggregate_order_independent_witness :
  match
    aggregate (Node [("i1", leaf [("time_open", days 3 1)]);
                     ("i2", leaf [("time_open", days 1 2)])] ∅),
    aggregate (Node [("i2", leaf [("time_open", days 1 2)]);
                     ("i1", leaf [("time_open", days 3 1)])] ∅)
  with
  | Ok n1, Ok n2 => metrics n1 = metrics n2
  | Raise e1, Raise e2 => e1 = e2
  | _, _ => False
  end.
Proof. apply aggregate_order_independent. apply perm_swap. Defined.

(** A witness of C8. *)
Lemma aggregate_emits_nonempty_only_witness :
  ∃ n',
    aggregate sample_repo = Ok n' ∧
    (∀ k, observed k (nodes sample_repo) →
       contributions k (nodes sample_repo) ≠ [] ∧
       ∃ r, metrics n' !! k = Some (Aggregated r) ∧
            r_values r ≠ [] ∧ (0 < r_count r)%nat) ∧
    (∀ k, ¬ observed k (nodes sample_repo) →
       metrics n' !! k = metrics sample_repo !! k) ∧
    (nodes sample_repo = [] →
       n' = sample_repo ∧ (metrics sample_repo = ∅ → metrics n' = ∅)).
Proof.
  apply (aggregate_emits_nonempty_only sample_repo).
  apply (bool_decide_unpack _). vm_compute. exact I.
Defined.

(** ** The examples of the design document *)

(** [median] of one element is that element; for 1, 2, 3, 4 the record
    has count 4, min 1, max 4, mean and median 5/2. *)
Example summarise_values_singleton (x : Qc) :
  ∃ r, summarise_values [x] = Ok r ∧
       r_values r = [x] ∧ r_count r = 1%nat ∧
       r_min r = x ∧ r_max r = x ∧ r_median r = x.
Proof. eexists. split; [reflexivity|]. by repeat split. Qed.

Example summarise_values_1234 :
  match summarise_values [days 3 1; days 1 1; days 4 1; days 2 1] with
  | Ok r =>
      show_summary r = ([1; 2; 3; 4]%Q, 4%nat, 1%Q, 4%Q, (5 # 2)%Q, (5 # 2)%Q)
  | Raise _ => False
  end.
Proof. vm_compute. reflexivity. Qed.

(** ** Children of a node *)

Section children.
Implicit Types (children : list (string * node)) (k u : string) (n c : node).

Lemma get_child_put_child k c children u :
  get_child u (put_child k c children) =
    if decide (k = u) then Some c else get_child u children.
Proof.
  induction children as [|[k' c'] children IH]; simpl.
  - by repeat case_decide.
  - repeat (case_decide; simpl; simplify_eq); try done; congruence.
Qed.

Lemma get_child_set_child_metrics k m n u :
  get_child u (nodes (set_child_metrics k m n)) =
    if decide (k = u) then Some (Node (nodes (getitem k (nodes n))) m)
    else get_child u (nodes n).
Proof. unfold set_child_metrics. simpl. apply get_child_put_child. Qed.

Lemma get_child_set_child_metric k metric_id value n u :
  get_child u (nodes (set_child_metric k metric_id value n)) =
    if decide (k = u)
    then Some (Node (nodes (getitem k (nodes n)))
                    (<[metric_id := value]> (metrics (getitem k (nodes n)))))
    else get_child u (nodes n).
Proof. unfold set_child_metric. simpl. apply get_child_put_child. Qed.

Lemma metrics_set_child_metrics k m n :
  metrics (set_child_metrics k m n) = metrics n.
Proof. done. Qed.

Lemma metrics_set_child_metric k metric_id value n :
  metrics (set_child_metric k metric_id value n) = metrics n.
Proof. done. Qed.

Lemma getitem_None k children : get_child k children = None → getitem k children = base_type.
Proof. unfold getitem. by intros ->. Qed.

Lemma getitem_Some k children c : get_child k children = Some c → getitem k children = c.
Proof. unfold getitem. by intros ->. Qed.

End children.

(** ** The loop body of [process_repo] *)

Section process_issue.
Context (ADMINS : list string) (start_date end_date : Z).
Implicit Types (st : node * list Issue.t) (issue : Issue.t) (u : string).

Lemma get_delta_days_nonneg (a b : Z) : (a ≤ b)%Z → 0 ≤ get_delta_days a b.
Proof.
  intros Hab. unfold get_delta_days, Qcle. simpl.
  rewrite (Qred_correct ((b - a) # 86400)). unfold Qle. simpl. lia.
Qed.

(** The tree after the loop body, the list of untagged issues apart. *)
Lemma process_issue_fst st issue :
  (process_issue ADMINS start_date end_date st issue).1 =
    if decide (Issue.author issue ∈ ADMINS) then st.1
    else if decide (end_date < Issue.created_at issue)%Z then st.1
    else
      let n :=
        if decide (start_date ≤ Issue.created_at issue)%Z
        then set_child_metrics (Issue.url issue)
               (Scalar <$> (categorise issue).1) st.1
        else st.1 in
      if Issue.closed issue then n
      else set_child_metric (Issue.url issue) "time_open"
             (Scalar (get_delta_days (Issue.created_at issue) end_date)) n.
Proof.
  unfold process_issue. repeat case_decide; try done;
    destruct (categorise issue), (Issue.closed issue); done.
Qed.

(** The list of untagged issues after the loop body. *)
Lemma process_issue_snd st issue :
  (process_issue ADMINS start_date end_date st issue).2 =
    if decide (gated ADMINS end_date issue) then st.2
    else if decide (start_date ≤ Issue.created_at issue)%Z
    then st.2 ++ (categorise issue).2
    else st.2.
Proof.
  unfold process_issue, gated.
  destruct (decide (Issue.author issue ∈ ADMINS)).
  { rewrite (decide_True (P := _ ∨ _)) by (by left). done. }
  destruct (decide (end_date < Issue.created_at issue)%Z).
  { rewrite (decide_True (P := _ ∨ _)) by (by right). done. }
  rewrite (decide_False (P := _ ∨ _)) by (by intros [?|?]).
  case_decide; destruct (categorise issue), (Issue.closed issue); done.
Qed.

Lemma process_issue_gated st issue :
  gated ADMINS end_date issue →
  process_issue ADMINS start_date end_date st issue = st.
Proof.
  unfold process_issue. intros [?|?].
  - by rewrite decide_True.
  - case_decide; [done|]. by rewrite decide_True.
Qed.

(** The loop body touches no leaf but the one of its issue. *)
Lemma process_issue_other st issue u :
  Issue.url issue ≠ u →
  get_child u (nodes (process_issue ADMINS start_date end_date st issue).1) =
    get_child u (nodes st.1).
Proof.
  intros Hu. rewrite process_issue_fst.
  repeat case_decide; try done; destruct (Issue.closed issue);
    rewrite ?get_child_set_child_metric, ?get_child_set_child_metrics,
      ?decide_False by done; done.
Qed.

(** The leaf of an issue, case by case. *)
Lemma leaf_of_eq issue :
  leaf_of ADMINS start_date end_date issue =
    if decide (gated ADMINS end_date issue) then None
    else
      let d := Scalar (get_delta_days (Issue.created_at issue) end_date) in
      if decide (start_date ≤ Issue.created_at issue)%Z then
        let m := Scalar <$> (categorise issue).1 in
        Some (Node [] (if Issue.closed issue then m else <["time_open" := d]> m))
      else if Issue.closed issue then None
      else Some (Node [] {["time_open" := d]}).
Proof.
  unfold leaf_of, gated. rewrite process_issue_fst.
  destruct (decide (Issue.author issue ∈ ADMINS)).
  { rewrite (decide_True (P := _ ∨ _)) by (by left). done. }
  destruct (decide (end_date < Issue.created_at issue)%Z).
  { rewrite (decide_True (P := _ ∨ _)) by (by right). done. }
  rewrite (decide_False (P := _ ∨ _)) by (by intros [?|?]).
  case_decide; destruct (Issue.closed issue); simpl;
    rewrite ?get_child_set_child_metric, ?get_child_set_child_metrics,
      ?decide_True by done; try done.
  unfold getitem. simpl. by rewrite !decide_True by done.
Qed.

(** Running the loop body for an issue where its leaf is absent, or is
    already the leaf of that issue, leaves the leaf of that issue. *)
Lemma process_issue_self st issue :
  get_child (Issue.url issue) (nodes st.1) = None ∨
    get_child (Issue.url issue) (nodes st.1) =
      leaf_of ADMINS start_date end_date issue →
  get_child (Issue.url issue)
    (nodes (process_issue ADMINS start_date end_date st issue).1) =
    leaf_of ADMINS start_date end_date issue.
Proof.
  rewrite leaf_of_eq, process_issue_fst. unfold gated.
  destruct (decide (Issue.author issue ∈ ADMINS)).
  { rewrite (decide_True (P := _ ∨ _)) by (by left). by intros [?|?]. }
  destruct (decide (end_date < Issue.created_at issue)%Z).
  { rewrite (decide_True (P := _ ∨ _)) by (by right). by intros [?|?]. }
  rewrite (decide_False (P := _ ∨ _)) by (by intros [?|?]). cbn zeta.
  set (u := Issue.url issue). set (c := getitem u (nodes st.1)).
  intros Hst.
  destruct (decide (start_date ≤ Issue.created_at issue)%Z),
    (Issue.closed issue).
  - rewrite get_child_set_child_metrics, decide_True by done. fold c.
    assert (nodes c = []) as ->; [|done].
    unfold c, getitem. by destruct Hst as [-> | ->].
  - rewrite get_child_set_child_metric, decide_True by done.
    unfold getitem at 1 2.
    rewrite get_child_set_child_metrics, decide_True by done. fold c. simpl.
    assert (nodes c = []) as ->; [|done].
    unfold c, getitem. by destruct Hst as [-> | ->].
  - by destruct Hst.
  - rewrite get_child_set_child_metric, decide_True by done. fold c.
    unfold c, getitem. destruct Hst as [-> | ->]; simpl.
    + by rewrite insert_empty.
    + by rewrite insert_singleton_eq.
Qed.

(** The leaf of an issue after the whole loop, when no other issue of the
    repository shares its url and the repository had no leaf there. *)
Lemma foldl_process_issue_leaf issues st issue :
  issue ∈ issues →
  (∀ j, j ∈ issues → Issue.url j = Issue.url issue → j = issue) →
  get_child (Issue.url issue) (nodes st.1) = None →
  get_child (Issue.url issue)
    (nodes (foldl (process_issue ADMINS start_date end_date) st issues).1) =
    leaf_of ADMINS start_date end_date issue.
Proof.
  intros Hin Huniq Hnone.
  assert (∀ issues st,
    (∀ j, j ∈ issues → Issue.url j = Issue.url issue → j = issue) →
    let st' := foldl (process_issue ADMINS start_date end_date) st issues in
    (get_child (Issue.url issue) (nodes st.1) =
       leaf_of ADMINS start_date end_date issue →
     get_child (Issue.url issue) (nodes st'.1) =
       leaf_of ADMINS start_date end_date issue) ∧
    (get_child (Issue.url issue) (nodes st.1) = None →
     get_child (Issue.url issue) (nodes st'.1) =
       leaf_of ADMINS start_date end_date issue ∨
     (get_child (Issue.url issue) (nodes st'.1) = None ∧ issue ∉ issues)))
    as Hgen.
  { clear. induction issues as [|j issues IH]; intros st Huniq; simpl.
    - split; [done|]. intros ?. right. split; [done|]. by intros ?%elem_of_nil.
    - assert (∀ j, j ∈ issues → Issue.url j = Issue.url issue → j = issue)
        as Huniq' by (intros; apply Huniq; [by right|done]).
      destruct (IH (process_issue ADMINS start_date end_date st j) Huniq')
        as [IH1 IH2].
      destruct (decide (Issue.url j = Issue.url issue)) as [Hj|Hj].
      + assert (j = issue) as -> by (apply Huniq; [left|done]).
        split; intros Hst; [|left]; apply IH1, process_issue_self; auto.
      + rewrite process_issue_other in IH1, IH2 by done.
        split; [done|]. intros Hst. destruct (IH2 Hst) as [?|[? ?]]; [by left|].
        right. split; [done|]. intros [->|?]%elem_of_cons; done. }
  destruct (Hgen issues st Huniq) as [_ H2].
  by destruct (H2 Hnone) as [?|[_ ?]].
Qed.

End process_issue.

(** ** The category and the duration metrics *)

(** Two metric names built from different literals differ. *)
Ltac key_neq :=
  let H := fresh in intros H; discriminate H.

(** Lookups through the inserts and deletes of [categorise]. *)
Ltac lookup_keys :=
  repeat first
    [ rewrite lookup_delete_ne by key_neq
    | rewrite lookup_insert_ne by key_neq
    | rewrite lookup_delete_eq
    | rewrite lookup_insert_eq
    | rewrite lookup_insert
    | rewrite lookup_delete
    | case_decide; simplify_eq ].

Section categorise.
#[local] Set Warnings "-clear-no-such-hyp".
Implicit Types (issue : Issue.t) (c : string).

Lemma time_to_close_key_inj c c' :
  "time_to_close_" +:+ c = "time_to_close_" +:+ c' → c = c'.
Proof. intros H. by simplify_eq. Qed.

(** The category-suffixed [time_to_close] after lines 87-108, for an
    issue whose event metrics hold no such name yet. *)
Lemma categorise_time_to_close issue c :
  (∀ c', Issue.metrics issue !! ("time_to_close_" +:+ c') = None) →
  (categorise issue).1 !! ("time_to_close_" +:+ c) =
    match Issue.metrics issue !! "time_to_close",
          Issue.first_admin_comment issue,
          truthy (Issue.category issue) with
    | Some t, Some _, Some c' =>
        if decide ((Issue.status issue ∉ ["duplicate"; "invalid"]) ∧ c' = c)
        then Some t else None
    | _, _, _ => None
    end.
Proof.
  intros Hraw. unfold categorise.
  destruct (Issue.metrics issue !! "time_to_close") as [t|] eqn:Ht,
    (Issue.first_admin_comment issue) as [a|],
    (truthy (Issue.category issue)) as [c'|];
    repeat (case_match || case_decide); simplify_eq; simpl;
    lookup_keys; rewrite ?Hraw; try done; exfalso; naive_solver.
Qed.

(** The same for the category of the issue itself, when only that one
    name is known to be free: other names of the form
    [time_to_close_<c>], such as [time_to_close_pr], may be there. *)
Lemma categorise_time_to_close_own issue c :
  truthy (Issue.category issue) = Some c →
  Issue.metrics issue !! ("time_to_close_" +:+ c) = None →
  (categorise issue).1 !! ("time_to_close_" +:+ c) =
    match Issue.metrics issue !! "time_to_close",
          Issue.first_admin_comment issue with
    | Some t, Some _ =>
        if decide (Issue.status issue ∉ ["duplicate"; "invalid"])
        then Some t else None
    | _, _ => None
    end.
Proof.
  intros Hc Hraw. unfold categorise. rewrite Hc.
  destruct (Issue.metrics issue !! "time_to_close") as [t|] eqn:Ht,
    (Issue.first_admin_comment issue) as [a|];
    repeat (case_match || case_decide); simplify_eq; simpl;
    lookup_keys; rewrite ?Hraw; done.
Qed.

(** The bare [time_to_close] never reaches the tree: line 90 pops it. *)
Lemma categorise_time_to_close_popped issue :
  (categorise issue).1 !! "time_to_close" = None.
Proof.
  unfold categorise.
  destruct (Issue.metrics issue !! "time_to_close") as [t|] eqn:Ht;
    repeat (case_match || case_decide); simplify_eq; simpl;
    lookup_keys; by rewrite ?Ht.
Qed.

(** When the loop body appends the issue to [self.untagged_issues]: it
    has no category, and holds a [time_to_close] that counts (status
    neither duplicate nor invalid, an admin has commented) or a
    [time_awaiting_resolution]. *)
Lemma categorise_untagged issue :
  (categorise issue).2 ≠ [] ↔
    truthy (Issue.category issue) = None ∧
    ((is_Some (Issue.metrics issue !! "time_to_close") ∧
      (Issue.status issue ∉ ["duplicate"; "invalid"]) ∧
      is_Some (Issue.first_admin_comment issue)) ∨
     is_Some (Issue.metrics issue !! "time_awaiting_resolution")).
Proof.
  unfold categorise.
  destruct (Issue.metrics issue !! "time_to_close") as [t|] eqn:Ht,
    (Issue.first_admin_comment issue) as [a|],
    (truthy (Issue.category issue)) as [c'|],
    (Issue.metrics issue !! "time_awaiting_resolution") as [r|] eqn:Hr;
    repeat (case_match || case_decide); simplify_eq; simpl;
    repeat match goal with
    | H : _ !! "time_awaiting_resolution" = _ |- _ =>
        progress (rewrite ?lookup_insert_ne, ?lookup_delete_ne in H
                    by key_neq);
        rewrite Hr in H; try discriminate H
    end;
    (split; [intros Hne|intros [Hc Hp] Hnil]);
    try done; try (by destruct l); unfold is_Some in *; naive_solver.
Qed.

(** Nothing but the issue itself is appended. *)
Lemma categorise_untagged_only issue x :
  x ∈ (categorise issue).2 → x = issue.
Proof.
  unfold categorise.
  repeat (case_match || case_decide); simplify_eq; simpl; set_solver.
Qed.

End categorise.

(** ** [process_repo] *)

Section process_repo.
Context (ADMINS : list string).
Context (get_repo_issues : string → string → list Issue.t).
Context (get_date_time : string → Z).
Implicit Types (st : node * list Issue.t) (issue : Issue.t).
Implicit Types (org repo start_date end_date : string).

(** The leaf of an issue after [process_repo], when the issue is the only
    one of its repository under its url and the node of the repository
    had no child there (as the fresh node [run] passes). *)
Lemma process_repo_leaf st org repo start_date end_date issue :
  issue ∈ get_repo_issues org repo →
  (∀ j, j ∈ get_repo_issues org repo →
        Issue.url j = Issue.url issue → j = issue) →
  get_child (Issue.url issue) (nodes st.1) = None →
  get_child (Issue.url issue)
    (nodes (process_repo ADMINS get_repo_issues get_date_time
              st org repo start_date end_date).1) =
    leaf_of ADMINS (get_date_time start_date) (get_date_time end_date) issue.
Proof. apply foldl_process_issue_leaf. Qed.

(** C3, amended. For an issue that passed the two gates, was created at
    or after [start_date], and comes out of event processing with a
    [time_to_close] (and, when it has a category, without the name
    [time_to_close_<category>] of that category; other names of this form,
    such as [time_to_close_pr], may be there): the [time_to_close] suffixed
    with its category is among the metrics attached for it if and only if
    its status is neither duplicate nor invalid, its category is
    recognised, and an admin has commented; its value is then the popped
    [time_to_close]. *)
Theorem time_to_close_attached_iff st org repo start_date end_date issue t :
  issue ∈ get_repo_issues org repo →
  (∀ j, j ∈ get_repo_issues org repo →
        Issue.url j = Issue.url issue → j = issue) →
  get_child (Issue.url issue) (nodes st.1) = None →
  ¬ gated ADMINS (get_date_time end_date) issue →
  (get_date_time start_date ≤ Issue.created_at issue)%Z →
  Issue.metrics issue !! "time_to_close" = Some t →
  (∀ c, truthy (Issue.category issue) = Some c →
        Issue.metrics issue !! ("time_to_close_" +:+ c) = None) →
  ∃ m,
    attached (process_repo ADMINS get_repo_issues get_date_time
                st org repo start_date end_date).1 (Issue.url issue) = Some m ∧
    ((∃ c, truthy (Issue.category issue) = Some c ∧
           is_Some (m !! ("time_to_close_" +:+ c))) ↔
       (Issue.status issue ∉ ["duplicate"; "invalid"]) ∧
       is_Some (truthy (Issue.category issue)) ∧
       is_Some (Issue.first_admin_comment issue)) ∧
    (∀ c, truthy (Issue.category issue) = Some c →
       is_Some (m !! ("time_to_close_" +:+ c)) →
       m !! ("time_to_close_" +:+ c) = Some (Scalar t)).
Proof.
  intros Hin Huniq Hnone Hgate Hstart Ht Hraw. unfold attached.
  rewrite process_repo_leaf, leaf_of_eq by done.
  rewrite decide_False, decide_True by done. cbn zeta.
  eexists. split; [done|]. simpl.
  assert (∀ c, truthy (Issue.category issue) = Some c →
    (if Issue.closed issue then Scalar <$> (categorise issue).1
     else <["time_open" :=
              Scalar (get_delta_days (Issue.created_at issue)
                        (get_date_time end_date))]>
            (Scalar <$> (categorise issue).1))
      !! ("time_to_close_" +:+ c) =
    Scalar <$>
      match Issue.first_admin_comment issue with
      | Some _ =>
          if decide (Issue.status issue ∉ ["duplicate"; "invalid"])
          then Some t else None
      | None => None
      end) as Hkey.
  { intros c Hc. destruct (Issue.closed issue);
      rewrite ?lookup_insert_ne by key_neq;
      by rewrite lookup_fmap, (categorise_time_to_close_own _ _ Hc), Ht
        by (by apply Hraw). }
  split.
  - split.
    + intros (c & Hc & Hm). rewrite (Hkey c Hc) in Hm.
      destruct (Issue.first_admin_comment issue); [|by destruct Hm].
      case_decide as Hd; [|by destruct Hm]. rewrite Hc. eauto.
    + intros (Hs & [c Hc] & [a Ha]). exists c. split; [done|].
      rewrite (Hkey c Hc), Ha. by rewrite decide_True.
  - intros c Hc Hm. rewrite (Hkey c Hc) in Hm |- *.
    destruct (Issue.first_admin_comment issue); [|by destruct Hm].
    by case_decide; [|destruct Hm].
Qed.

(** C6. For an issue that passed the two gates and is open at the end
    date, the metrics attached for it hold [time_open], equal to the
    day-delta between its creation and the end date, which is not
    negative; and, event processing giving an open issue no
    [time_to_close] name, they hold no [time_to_close], suffixed or
    not. *)
Theorem open_issue_time_open st org repo start_date end_date issue :
  issue ∈ get_repo_issues org repo →
  (∀ j, j ∈ get_repo_issues org repo →
        Issue.url j = Issue.url issue → j = issue) →
  get_child (Issue.url issue) (nodes st.1) = None →
  ¬ gated ADMINS (get_date_time end_date) issue →
  Issue.closed issue = false →
  Issue.metrics issue !! "time_to_close" = None →
  (∀ c, Issue.metrics issue !! ("time_to_close_" +:+ c) = None) →
  ∃ m,
    attached (process_repo ADMINS get_repo_issues get_date_time
                st org repo start_date end_date).1 (Issue.url issue) = Some m ∧
    m !! "time_open" =
      Some (Scalar (get_delta_days (Issue.created_at issue)
                      (get_date_time end_date))) ∧
    0 ≤ get_delta_days (Issue.created_at issue) (get_date_time end_date) ∧
    m !! "time_to_close" = None ∧
    (∀ c, m !! ("time_to_close_" +:+ c) = None).
Proof.
  intros Hin Huniq Hnone Hgate Hopen Ht Hraw. unfold attached.
  rewrite process_repo_leaf, leaf_of_eq by done.
  rewrite decide_False by done. cbn zeta. rewrite Hopen.
  assert (0 ≤ get_delta_days (Issue.created_at issue) (get_date_time end_date))
    as Hpos.
  { apply get_delta_days_nonneg. unfold gated in Hgate.
    destruct (decide (get_date_time end_date < Issue.created_at issue)%Z);
      [|lia]. destruct Hgate. by right. }
  case_decide; eexists; (split; [done|]); simpl; split_and!; try done;
    try intros c;
    rewrite ?lookup_insert_eq, ?lookup_singleton_eq,
      ?lookup_insert_ne, ?lookup_singleton_ne by key_neq;
    rewrite ?lookup_fmap, ?categorise_time_to_close_popped,
      ?categorise_time_to_close, ?Ht by done;
    done.
Qed.

(** C9. For an issue that passed the two gates and was created before
    [start_date]: nothing is attached for it when it is closed, and when
    it is open its leaf holds [time_open] and nothing else; either way it
    is not reported as untagged. *)
Theorem early_issue_only_time_open st org repo start_date end_date issue :
  issue ∈ get_repo_issues org repo →
  (∀ j, j ∈ get_repo_issues org repo →
        Issue.url j = Issue.url issue → j = issue) →
  get_child (Issue.url issue) (nodes st.1) = None →
  ¬ gated ADMINS (get_date_time end_date) issue →
  (Issue.created_at issue < get_date_time start_date)%Z →
  get_child (Issue.url issue)
    (nodes (process_repo ADMINS get_repo_issues get_date_time
              st org repo start_date end_date).1) =
    (if Issue.closed issue then None
     else Some (Node [] {["time_open" :=
                  Scalar (get_delta_days (Issue.created_at issue)
                            (get_date_time end_date))]})) ∧
  ∀ st',
    (process_issue ADMINS (get_date_time start_date) (get_date_time end_date)
       st' issue).2 = st'.2.
Proof.
  intros Hin Huniq Hnone Hgate Hearly. split.
  - rewrite process_repo_leaf, leaf_of_eq by done.
    rewrite !decide_False by (done || lia). done.
  - intros st'. rewrite process_issue_snd.
    rewrite !decide_False by (done || lia). done.
Qed.

End process_repo.

(** C7. An issue whose author is an admin, or that was created after the
    end date, leaves no trace: [process_repo] returns the same tree and
    the same list of untagged issues as if the data source had not
    delivered the issue, hence so does every aggregate computed from the
    tree. *)
Theorem gated_issue_contributes_nothing ADMINS get_date_time
    (source source' : string → string → list Issue.t)
    st org repo start_date end_date issues1 issue issues2 :
  source org repo = issues1 ++ issue :: issues2 →
  source' org repo = issues1 ++ issues2 →
  gated ADMINS (get_date_time end_date) issue →
  process_repo ADMINS source get_date_time st org repo start_date end_date =
    process_repo ADMINS source' get_date_time st org repo start_date end_date.
Proof.
  intros Hs Hs' Hgate. unfold process_repo. rewrite Hs, Hs'.
  rewrite !foldl_app. simpl. by rewrite process_issue_gated.
Qed.

(** ** Sample runs of [process_repo] *)

(** Hypotheses on sample data, by evaluation. *)
Ltac by_evaluation := apply (bool_decide_unpack _); vm_compute; exact I.

Ltac only_issue :=
  let j := fresh in let H := fresh in
  intros j H _; by apply list_elem_of_singleton in H.

(** A witness of C3 as amended: [sample_closed_pr] alone in its
    repository. *)
Lemma time_to_close_attached_iff_witness :
  ∃ m,
    attached (process_repo ["bob"] (λ _ _, [sample_closed_pr]) sample_dates
                (base_type, []) "org" "repo" "2020-01-01" "2020-04-20").1
      (Issue.url sample_closed_pr) = Some m ∧
    ((∃ c, truthy (Issue.category sample_closed_pr) = Some c ∧
           is_Some (m !! ("time_to_close_" +:+ c))) ↔
       (Issue.status sample_closed_pr ∉ ["duplicate"; "invalid"]) ∧
       is_Some (truthy (Issue.category sample_closed_pr)) ∧
       is_Some (Issue.first_admin_comment sample_closed_pr)) ∧
    (∀ c, truthy (Issue.category sample_closed_pr) = Some c →
       is_Some (m !! ("time_to_close_" +:+ c)) →
       m !! ("time_to_close_" +:+ c) = Some (Scalar (days 3 1))).
Proof.
  apply (time_to_close_attached_iff ["bob"] (λ _ _, [sample_closed_pr])
           sample_dates (base_type, []) "org" "repo" "2020-01-01" "2020-04-20"
           sample_closed_pr (days 3 1)).
  - apply list_elem_of_singleton. reflexivity.
  - only_issue.
  - reflexivity.
  - by_evaluation.
  - by_evaluation.
  - reflexivity.
  - intros c [= <-]. reflexivity.
Defined.

(** The counterexample to C3 as stated: a closed bug whose status is
    normal and whose category is recognised gets no [time_to_close_bug]
    when no admin has commented on it, and none either when it was created
    before the start date. *)
Lemma time_to_close_not_attached :
  let stated issue :=
    let tree :=
      (process_repo ["bob"] (λ _ _, [issue]) sample_dates
         (base_type, []) "org" "repo" "2020-01-01" "2020-04-20").1 in
    (∃ c, is_Some (default ∅ (attached tree (Issue.url issue))
                     !! ("time_to_close_" +:+ c))) ↔
      (Issue.status issue ∉ ["duplicate"; "invalid"]) ∧
      is_Some (truthy (Issue.category issue)) in
  (¬ gated ["bob"] (sample_dates "2020-04-20") sample_unanswered ∧
   Issue.closed sample_unanswered = true ∧
   ¬ stated sample_unanswered) ∧
  (¬ gated ["bob"] (sample_dates "2020-04-20") sample_early_closed ∧
   Issue.closed sample_early_closed = true ∧
   ¬ stated sample_early_closed).
Proof.
  assert ((Issue.status sample_unanswered ∉ ["duplicate"; "invalid"]) ∧
          is_Some (truthy (Issue.category sample_unanswered))) as Hu.
  { split; [by_evaluation|by eexists]. }
  assert ((Issue.status sample_early_closed ∉ ["duplicate"; "invalid"]) ∧
          is_Some (truthy (Issue.category sample_early_closed))) as He.
  { split; [by_evaluation|by eexists]. }
  cbv zeta. split; (split; [by_evaluation|]); (split; [done|]).
  - intros [_ Hback]. destruct (Hback Hu) as (c & x & Hx).
    assert (attached
      (process_repo ["bob"] (λ _ _, [sample_unanswered]) sample_dates
         (base_type, []) "org" "repo" "2020-01-01" "2020-04-20").1
      (Issue.url sample_unanswered) = Some ∅) as Heq by (vm_compute; reflexivity).
    rewrite Heq in Hx. simpl in Hx. by rewrite lookup_empty in Hx.
  - intros [_ Hback]. destruct (Hback He) as (c & x & Hx).
    assert (attached
      (process_repo ["bob"] (λ _ _, [sample_early_closed]) sample_dates
         (base_type, []) "org" "repo" "2020-01-01" "2020-04-20").1
      (Issue.url sample_early_closed) = None) as Heq by (vm_compute; reflexivity).
    rewrite Heq in Hx. simpl in Hx. by rewrite lookup_empty in Hx.
Qed.

(** A witness of C6: [sample_open] alone in its repository. *)
Lemma open_issue_time_open_witness :
  ∃ m,
    attached (process_repo ["bob"] (λ _ _, [sample_open]) sample_dates
                (base_type, []) "org" "repo" "2020-01-01" "2020-04-20").1
      (Issue.url sample_open) = Some m ∧
    m !! "time_open" =
      Some (Scalar (get_delta_days (Issue.created_at sample_open)
                      (sample_dates "2020-04-20"))) ∧
    0 ≤ get_delta_days (Issue.created_at sample_open)
          (sample_dates "2020-04-20") ∧
    m !! "time_to_close" = None ∧
    (∀ c, m !! ("time_to_close_" +:+ c) = None).
Proof.
  apply (open_issue_time_open ["bob"] (λ _ _, [sample_open]) sample_dates
           (base_type, []) "org" "repo" "2020-01-01" "2020-04-20" sample_open).
  - apply list_elem_of_singleton. reflexivity.
  - only_issue.
  - reflexivity.
  - by_evaluation.
  - reflexivity.
  - reflexivity.
  - intros c. apply lookup_singleton_ne. key_neq.
Defined.

(** A witness of C9: [sample_early_open] alone in its repository. *)
Lemma early_issue_only_time_open_witness :
  get_child (Issue.url sample_early_open)
    (nodes (process_repo ["bob"] (λ _ _, [sample_early_open]) sample_dates
              (base_type, []) "org" "repo" "2020-01-01" "2020-04-20").1) =
    (if Issue.closed sample_early_open then None
     else Some (Node [] {["time_open" :=
                  Scalar (get_delta_days (Issue.created_at sample_early_open)
                            (sample_dates "2020-04-20"))]})) ∧
  ∀ st',
    (process_issue ["bob"] (sample_dates "2020-01-01")
       (sample_dates "2020-04-20") st' sample_early_open).2 = st'.2.
Proof.
  apply (early_issue_only_time_open ["bob"] (λ _ _, [sample_early_open])
           sample_dates (base_type, []) "org" "repo" "2020-01-01" "2020-04-20"
           sample_early_open).
  - apply list_elem_of_singleton. reflexivity.
  - only_issue.
  - reflexivity.
  - by_evaluation.
  - by_evaluation.
Defined.

(** A witness of C7: [sample_admin] between two other issues. *)
Lemma gated_issue_contributes_nothing_witness :
  process_repo ["bob"] (λ _ _, [sample_closed; sample_admin; sample_open])
    sample_dates (base_type, []) "org" "repo" "2020-01-01" "2020-04-20" =
  process_repo ["bob"] (λ _ _, [sample_closed; sample_open])
    sample_dates (base_type, []) "org" "repo" "2020-01-01" "2020-04-20".
Proof.
  apply (gated_issue_contributes_nothing ["bob"] sample_dates
           (λ _ _, [sample_closed; sample_admin; sample_open])
           (λ _ _, [sample_closed; sample_open])
           (base_type, []) "org" "repo" "2020-01-01" "2020-04-20"
           [sample_closed] sample_admin [sample_open]).
  - reflexivity.
  - reflexivity.
  - by_evaluation.
Defined.

(** ** The untagged issues of a run *)

Section untagged.
Context (ADMINS : list string).
Context (ALL_REPOS : list (string * list string)).
Context (get_repo_issues : string → string → list Issue.t).
Context (get_date_time : string → Z).
Implicit Types (st : node * list Issue.t) (issue : Issue.t).

Lemma process_issue_untagged (start_date end_date : Z) st issue :
  (process_issue ADMINS start_date end_date st issue).2 =
    st.2 ++ untagged_of ADMINS start_date end_date issue.
Proof.
  rewrite process_issue_snd. unfold untagged_of.
  repeat case_decide; by rewrite ?app_nil_r.
Qed.

Lemma foldl_process_issue_untagged (start_date end_date : Z) issues st :
  (foldl (process_issue ADMINS start_date end_date) st issues).2 =
    st.2 ++ (issues ≫= untagged_of ADMINS start_date end_date).
Proof.
  revert st. induction issues as [|issue issues IH]; intros st; simpl.
  - by rewrite app_nil_r.
  - by rewrite IH, process_issue_untagged, (assoc_L (++)).
Qed.

Lemma process_repo_untagged st org repo start_date end_date :
  (process_repo ADMINS get_repo_issues get_date_time
     st org repo start_date end_date).2 =
    st.2 ++ (get_repo_issues org repo ≫=
               untagged_of ADMINS (get_date_time start_date)
                 (get_date_time end_date)).
Proof. apply foldl_process_issue_untagged. Qed.

Lemma process_org_repo_untagged start_date end_date org st repo :
  (process_org_repo ADMINS get_repo_issues get_date_time
     start_date end_date org st repo).2 =
    st.2 ++ (get_repo_issues org repo ≫=
               untagged_of ADMINS (get_date_time start_date)
                 (get_date_time end_date)).
Proof.
  unfold process_org_repo.
  pose proof (process_repo_untagged (getitem repo (nodes st.1), st.2)
                org repo start_date end_date) as H.
  by destruct (process_repo _ _ _ _ _ _ _ _).
Qed.

Lemma process_org_untagged start_date end_date st org :
  (process_org ADMINS get_repo_issues get_date_time
     start_date end_date st org).2 =
    st.2 ++ (org.2 ≫= λ repo,
               get_repo_issues org.1 repo ≫=
                 untagged_of ADMINS (get_date_time start_date)
                   (get_date_time end_date)).
Proof.
  unfold process_org.
  assert (∀ repos st',
    (foldl (process_org_repo ADMINS get_repo_issues get_date_time
              start_date end_date org.1) st' repos).2 =
      st'.2 ++ (repos ≫= λ repo,
                  get_repo_issues org.1 repo ≫=
                    untagged_of ADMINS (get_date_time start_date)
                      (get_date_time end_date))) as Hfold.
  { induction repos as [|repo repos IH]; intros st'; simpl.
    - by rewrite app_nil_r.
    - by rewrite IH, process_org_repo_untagged, (assoc_L (++)). }
  specialize (Hfold org.2 (getitem org.1 (nodes st.1), st.2)).
  by destruct (foldl _ _ _).
Qed.

(** [self.untagged_issues] when the tree is built: what it held, then
    the offenders in the order of the walk. *)
Lemma process_all_untagged start_date end_date st :
  (process_all ADMINS ALL_REPOS get_repo_issues get_date_time
     start_date end_date st).2 =
    st.2 ++ offenders ADMINS ALL_REPOS get_repo_issues
              (get_date_time start_date) (get_date_time end_date).
Proof.
  unfold process_all, offenders. revert st.
  induction ALL_REPOS as [|org orgs IH]; intros st; simpl.
  - by rewrite app_nil_r.
  - by rewrite IH, process_org_untagged, (assoc_L (++)).
Qed.

(** C2. When the walk over the repositories leaves at least one issue in
    [self.untagged_issues], [run] returns without raising, having printed
    the header and then the url of each of these issues and nothing
    else; the tree is as the walk left it, not aggregated; no row was
    added to [self.all_metrics] and nothing went to the spreadsheet.
    Every issue that passed the gates, was created at or after the start
    date and was appended by lines 97 or 105 has its url printed. *)
Theorem run_aborts_on_untagged self start_date end_date :
  let st :=
    process_all ADMINS ALL_REPOS get_repo_issues get_date_time
      start_date end_date (self_metrics self, untagged_issues self) in
  let culprits :=
    untagged_issues self ++
      offenders ADMINS ALL_REPOS get_repo_issues
        (get_date_time start_date) (get_date_time end_date) in
  culprits ≠ [] →
  run ADMINS ALL_REPOS get_repo_issues get_date_time
    self start_date end_date =
    Ok (Collector st.1 culprits (all_metrics self),
        Print untagged_header :: (Print ∘ Issue.url <$> culprits)) ∧
  ∀ org repos repo issue,
    (org, repos) ∈ ALL_REPOS → repo ∈ repos →
    issue ∈ get_repo_issues org repo →
    ¬ gated ADMINS (get_date_time end_date) issue →
    (get_date_time start_date ≤ Issue.created_at issue)%Z →
    (categorise issue).2 ≠ [] →
    Print (Issue.url issue) ∈ (Print ∘ Issue.url <$> culprits).
Proof.
  intros st culprits Hne. split.
  - unfold run. fold st.
    pose proof (process_all_untagged start_date end_date
                  (self_metrics self, untagged_issues self)) as Hu.
    fold st in Hu. simpl in Hu. fold culprits in Hu.
    destruct st as [tree untagged]. simpl in *. subst untagged.
    by destruct culprits.
  - intros org repos repo issue Horg Hrepo Hissue Hgate Hstart Hcat.
    apply (list_elem_of_fmap_2 (Print ∘ Issue.url) _ issue).
    apply elem_of_app. right. unfold offenders.
    apply list_elem_of_bind. exists (org, repos). split; [|done].
    apply list_elem_of_bind. exists repo. split; [|done].
    apply list_elem_of_bind. exists issue. split; [|done].
    unfold untagged_of. rewrite decide_False, decide_True by done.
    assert (∀ l, l ≠ [] → (∀ x : Issue.t, x ∈ l → x = issue) → issue ∈ l)
      as Hall.
    { intros [|x l] ? Hl; [done|]. rewrite <-(Hl x); left. }
    apply Hall; [done|]. apply categorise_untagged_only.
Qed.

End untagged.

(** A witness of C2: one repository with [sample_untagged]. *)
Lemma run_aborts_on_untagged_witness :
  let st :=
    process_all ["bob"] [("org", ["repo"])] (λ _ _, [sample_untagged])
      sample_dates "2020-01-01" "2020-04-20"
      (self_metrics init, untagged_issues init) in
  let culprits :=
    untagged_issues init ++
      offenders ["bob"] [("org", ["repo"])] (λ _ _, [sample_untagged])
        (sample_dates "2020-01-01") (sample_dates "2020-04-20") in
  run ["bob"] [("org", ["repo"])] (λ _ _, [sample_untagged]) sample_dates
    init "2020-01-01" "2020-04-20" =
    Ok (Collector st.1 culprits (all_metrics init),
        Print untagged_header :: (Print ∘ Issue.url <$> culprits)) ∧
  ∀ org repos repo issue,
    (org, repos) ∈ [("org", ["repo"])] → repo ∈ repos →
    issue ∈ (λ _ _ : string, [sample_untagged]) org repo →
    ¬ gated ["bob"] (sample_dates "2020-04-20") issue →
    (sample_dates "2020-01-01" ≤ Issue.created_at issue)%Z →
    (categorise issue).2 ≠ [] →
    Print (Issue.url issue) ∈ (Print ∘ Issue.url <$> culprits).
Proof.
  apply (run_aborts_on_untagged ["bob"] [("org", ["repo"])]
           (λ _ _, [sample_untagged]) sample_dates init
           "2020-01-01" "2020-04-20").
  vm_compute. discriminate.
Defined.

(** ** The bottom-up pass of [run] *)

Section pass.
Implicit Types (n c : node) (rows : list (gmap string cell)).
Implicit Types (children repos orgs : list (string * node)).

Lemma leaf_node_wf_metrics n : leaf_node n → wf_metrics (metrics n).
Proof.
  intros Hleaf k value Hk. specialize (Hleaf k value Hk). by destruct value.
Qed.

Lemma aggregated_node_wf_metrics n : aggregated_node n → wf_metrics (metrics n).
Proof.
  intros Hagg k value Hk. destruct (Hagg k value Hk) as (r & -> & Hr).
  simpl. by apply summarise_values_Ok_inv in Hr.
Qed.

(** A node that held nothing holds, after [aggregate], records only. *)
Lemma aggregate_fresh n n' :
  metrics n = ∅ → aggregate n = Ok n' → aggregated_node n'.
Proof.
  intros Hfresh Hn' k value Hk.
  pose proof (aggregate_spec n) as Hs. rewrite Hn' in Hs.
  destruct Hs as [_ Hs]. specialize (Hs k). case_decide.
  - destruct Hs as (r & Hr & Hk'). rewrite Hk in Hk'. injection Hk' as ->.
    exists r. split; [done|].
    apply summarise_values_Ok_inv in Hr as Hne.
    destruct (summarise_values_Ok _ Hne) as (r' & Hr' & Hv & _).
    rewrite Hr in Hr'. injection Hr' as <-.
    by rewrite Hv, summarise_values_sorted.
  - by rewrite Hs, Hfresh, lookup_empty in Hk.
Qed.

(** [summarize] returns on a node that holds records only. *)
Lemma summarize_Ok name date n rows :
  aggregated_node n → ∃ row, summarize name date n rows = Ok (rows ++ [row]).
Proof.
  unfold summarize, aggregated_node.
  apply (map_fold_weak_ind (λ res (m : gmap string MetricValue),
    map_Forall (λ _ value, ∃ r, value = Aggregated r ∧
                                summarise_values (r_values r) = Ok r) m →
    ∃ row, res ≫= (λ repo_metrics, Ok (rows ++ [repo_metrics])) =
           Ok (rows ++ [row]))).
  - intros _. by eexists.
  - intros k value m res Hk IH Hall.
    apply map_Forall_insert in Hall as [(r & -> & _) Hall]; [|done].
    destruct (IH Hall) as [row Hrow]. destruct res as [repo_metrics|e];
      [|done]. by eexists.
Qed.

(** With a single child that holds records only, the node takes over the
    metrics of the child. *)
Lemma aggregate_single_child name c :
  aggregated_node c →
  aggregate (Node [(name, c)] ∅) = Ok (Node [(name, c)] (metrics c)).
Proof.
  intros Hagg.
  destruct (aggregate_Ok (Node [(name, c)] ∅)) as [n' Hn'].
  { constructor; [|done]. by apply aggregated_node_wf_metrics. }
  rewrite Hn'. f_equal.
  pose proof (aggregate_spec (Node [(name, c)] ∅)) as Hs. rewrite Hn' in Hs.
  destruct Hs as [Hnodes Hs]. destruct n' as [children own].
  cbn [nodes metrics] in *. subst children. f_equal. apply map_eq.
  intros k. specialize (Hs k).
  assert (contributions k [(name, c)] = contribution k c) as Hc
    by (rewrite contributions_cons; apply app_nil_r).
  rewrite Hc in Hs. unfold contribution in Hs.
  destruct (metrics c !! k) as [value|] eqn:Hk.
  - rewrite decide_True in Hs
      by (apply observed_cons; left; cbn [snd]; rewrite Hk; eauto).
    destruct Hs as (r & Hr & ->).
    destruct (Hagg k value Hk) as (r' & -> & Hr'). simpl in Hr. congruence.
  - rewrite decide_False in Hs; [by rewrite Hs, lookup_empty|].
    rewrite observed_cons. cbn [snd]. rewrite Hk.
    intros [[? ?]|?%Exists_nil]; done.
Qed.

Lemma aggregate_repos_Ok end_date repos rows :
  Forall (λ item, repo_tree item.2) repos →
  ∃ repos' rows',
    aggregate_repos end_date repos rows = Ok (repos', rows') ∧
    Forall (λ item, aggregated_node item.2) repos'.
Proof.
  intros Hall. revert rows.
  induction Hall as [|[repo repo_node] repos [Hfresh Hleaves] _ IH];
    intros rows; simpl.
  - by eexists _, _.
  - cbn [snd] in Hfresh, Hleaves.
    destruct (aggregate_Ok repo_node) as [repo_node' Hagg].
    { eapply Forall_impl; [|exact Hleaves]. intros item.
      apply leaf_node_wf_metrics. }
    rewrite Hagg. simpl.
    pose proof (aggregate_fresh _ _ Hfresh Hagg) as Hrec.
    destruct (summarize_Ok repo end_date repo_node' rows Hrec) as [row ->].
    simpl. destruct (IH (rows ++ [row])) as (repos' & rows' & -> & Hall').
    simpl. eexists _, _. split; [done|]. by constructor.
Qed.

Lemma aggregate_orgs_Ok end_date orgs rows :
  Forall (λ item, org_tree item.2) orgs →
  ∃ orgs' rows',
    aggregate_orgs end_date orgs rows = Ok (orgs', rows') ∧
    Forall (λ item, aggregated_node item.2) orgs' ∧
    orgs'.*1 = orgs.*1.
Proof.
  intros Hall. revert rows.
  induction Hall as [|[org org_node] orgs [Hfresh Hrepos] _ IH];
    intros rows; simpl.
  - by eexists _, _.
  - cbn [snd] in Hfresh, Hrepos.
    destruct (aggregate_repos_Ok end_date (nodes org_node) rows Hrepos)
      as (repos' & rows1 & -> & Hrec).
    simpl.
    destruct (aggregate_Ok (Node repos' (metrics org_node)))
      as [org_node' Hagg].
    { eapply Forall_impl; [|exact Hrec]. intros item.
      apply aggregated_node_wf_metrics. }
    rewrite Hagg. simpl.
    pose proof (aggregate_fresh (Node repos' (metrics org_node)) _
                  Hfresh Hagg) as Hrec'.
    destruct (summarize_Ok org end_date org_node' rows1 Hrec') as [row ->].
    simpl.
    destruct (IH (rows1 ++ [row])) as (orgs' & rows' & -> & Hall' & Hkeys).
    simpl. eexists _, _. split; [done|]. split; [by constructor|].
    rewrite !fmap_cons. by f_equal.
Qed.

(** The pass returns on every tree that the walk over the repositories
    builds from a new collector. *)
Lemma aggregate_tree_Ok end_date global_node rows :
  global_tree global_node →
  ∃ global_node' rows',
    aggregate_tree end_date global_node rows = Ok (global_node', rows').
Proof.
  intros [Hfresh Horgs]. unfold aggregate_tree.
  destruct (aggregate_orgs_Ok end_date _ rows Horgs)
    as (orgs' & rows1 & -> & Hrec & _).
  simpl.
  destruct (aggregate_Ok (Node orgs' (metrics global_node)))
    as [global_node' Hagg].
  { eapply Forall_impl; [|exact Hrec]. intros item.
    apply aggregated_node_wf_metrics. }
  rewrite Hagg. simpl.
  pose proof (aggregate_fresh (Node orgs' (metrics global_node)) _
                Hfresh Hagg) as Hrec'.
  destruct (summarize_Ok "global" end_date global_node' rows1 Hrec')
    as [row ->].
  simpl. by eexists _, _.
Qed.

(** C5. On a tree with exactly one organisation (leaves holding day
    counts, nothing yet on the nodes above, as the walk over the
    repositories leaves it), the bottom-up pass returns, and the metrics
    mapping of the global node is then the metrics mapping of the
    organisation: the same record, with the same values, count, min,
    max, mean and median, under every metric name. *)
Theorem global_equals_single_org end_date global_node name org_node rows :
  global_tree global_node →
  nodes global_node = [(name, org_node)] →
  ∃ global_node' org_node' rows',
    aggregate_tree end_date global_node rows = Ok (global_node', rows') ∧
    nodes global_node' = [(name, org_node')] ∧
    metrics global_node' = metrics org_node'.
Proof.
  intros [Hfresh Horgs] Hone. unfold aggregate_tree.
  rewrite Hone in Horgs |- *.
  destruct (aggregate_orgs_Ok end_date _ rows Horgs)
    as (orgs' & rows1 & Horgs' & Hrec & Hkeys).
  rewrite Horgs'. simpl.
  destruct orgs' as [|[name' org_node'] [|? ?]]; try done.
  simpl in Hkeys. injection Hkeys as ->.
  apply Forall_inv in Hrec. simpl in Hrec.
  rewrite Hfresh, (aggregate_single_child name org_node' Hrec). simpl.
  destruct (summarize_Ok "global" end_date
              (Node [(name, org_node')] (metrics org_node')) rows1 Hrec)
    as [row ->].
  simpl. by eexists _, org_node', _.
Qed.

End pass.

(** A witness of C5: [sample_global]. *)
Lemma global_equals_single_org_witness :
  ∃ global_node' org_node' rows',
    aggregate_tree "2020-04-20" sample_global [] = Ok (global_node', rows') ∧
    nodes global_node' = [("org", org_node')] ∧
    metrics global_node' = metrics org_node'.
Proof.
  apply (global_equals_single_org "2020-04-20" sample_global "org"
           (Node [("A", sample_repo);
                  ("B", Node [("i5", leaf [("time_to_close_feature", days 10 1)])]
                             ∅)] ∅) []).
  - by_evaluation.
  - reflexivity.
Defined.

(** ** The tree that a run builds, and the run as a whole *)

Section run.
Context (ADMINS : list string).
Context (ALL_REPOS : list (string * list string)).
Context (get_repo_issues : string → string → list Issue.t).
Context (get_date_time : string → Z).
Implicit Types (st : node * list Issue.t) (n c : node) (k : string).
Implicit Types (children : list (string * node)).

Lemma Forall_put_child (P : string * node → Prop) k c children :
  Forall P children → P (k, c) → Forall P (put_child k c children).
Proof.
  intros Hall Hc. induction Hall as [|[k' c'] children Hc' Htail IH]; simpl.
  - by constructor.
  - case_decide; subst; by constructor.
Qed.

Lemma getitem_Forall (P : node → Prop) k children :
  Forall (λ item, P item.2) children → P base_type → P (getitem k children).
Proof.
  intros Hall Hbase. unfold getitem.
  induction Hall as [|[k' c'] children Hc' _ IH]; simpl; [done|].
  by case_decide.
Qed.

Lemma leaf_node_base_type : leaf_node base_type.
Proof. apply map_Forall_empty. Qed.

Lemma repo_tree_base_type : repo_tree base_type.
Proof. split; [done|constructor]. Qed.

Lemma org_tree_base_type : org_tree base_type.
Proof. split; [done|constructor]. Qed.

Lemma global_tree_base_type : global_tree base_type.
Proof. split; [done|constructor]. Qed.

Lemma process_issue_repo_tree (start_date end_date : Z) st issue :
  repo_tree st.1 →
  repo_tree (process_issue ADMINS start_date end_date st issue).1.
Proof.
  intros Hst. rewrite process_issue_fst.
  assert (∀ n m, repo_tree n →
    repo_tree (set_child_metrics (Issue.url issue) (Scalar <$> m) n)) as H1.
  { intros n m [Hfresh Hleaves]. split; [done|]. simpl.
    apply Forall_put_child; [done|]. intros k value Hk. simpl in Hk.
    apply lookup_fmap_Some in Hk as (x & <- & _). done. }
  assert (∀ n x, repo_tree n →
    repo_tree (set_child_metric (Issue.url issue) "time_open" (Scalar x) n))
    as H2.
  { intros n x [Hfresh Hleaves]. split; [done|]. simpl.
    apply Forall_put_child; [done|]. cbn [snd]. unfold leaf_node. simpl.
    apply map_Forall_insert_2; [done|].
    apply (getitem_Forall leaf_node); [done|apply leaf_node_base_type]. }
  repeat case_decide; try done; destruct (Issue.closed issue); auto.
Qed.

Lemma process_repo_repo_tree st org repo start_date end_date :
  repo_tree st.1 →
  repo_tree (process_repo ADMINS get_repo_issues get_date_time
               st org repo start_date end_date).1.
Proof.
  unfold process_repo. generalize (get_repo_issues org repo).
  intros issues. revert st.
  induction issues as [|issue issues IH]; intros st Hst; [done|].
  simpl. by apply IH, process_issue_repo_tree.
Qed.

Lemma process_org_repo_org_tree start_date end_date org st repo :
  org_tree st.1 →
  org_tree (process_org_repo ADMINS get_repo_issues get_date_time
              start_date end_date org st repo).1.
Proof.
  intros [Hfresh Hrepos]. unfold process_org_repo.
  pose proof (process_repo_repo_tree (getitem repo (nodes st.1), st.2)
                org repo start_date end_date) as Hrepo.
  destruct (process_repo _ _ _ _ _ _ _ _) as [repo_node untagged].
  split; [done|]. simpl. apply Forall_put_child; [done|]. apply Hrepo.
  apply (getitem_Forall repo_tree); [done|apply repo_tree_base_type].
Qed.

Lemma process_org_global_tree start_date end_date st org :
  global_tree st.1 →
  global_tree (process_org ADMINS get_repo_issues get_date_time
                 start_date end_date st org).1.
Proof.
  intros [Hfresh Horgs]. unfold process_org.
  assert (∀ repos st',
    org_tree st'.1 →
    org_tree (foldl (process_org_repo ADMINS get_repo_issues get_date_time
                       start_date end_date org.1) st' repos).1) as Hfold.
  { induction repos as [|repo repos IH]; intros st' Hst'; [done|].
    simpl. by apply IH, process_org_repo_org_tree. }
  specialize (Hfold org.2 (getitem org.1 (nodes st.1), st.2)).
  destruct (foldl _ _ _) as [org_node untagged].
  split; [done|]. simpl. apply Forall_put_child; [done|]. apply Hfold.
  apply (getitem_Forall org_tree); [done|apply org_tree_base_type].
Qed.

(** The walk over the repositories keeps the shape of the tree. *)
Lemma process_all_global_tree start_date end_date st :
  global_tree st.1 →
  global_tree (process_all ADMINS ALL_REPOS get_repo_issues get_date_time
                 start_date end_date st).1.
Proof.
  unfold process_all. revert st.
  induction ALL_REPOS as [|org orgs IH]; intros st Hst; [done|].
  simpl. by apply IH, process_org_global_tree.
Qed.

(** A run of a new collector raises nothing: [min], [max], [mean] and
    [median] never meet an empty list, [summarize] never meets a number
    where it expects a record. *)
Lemma run_Ok start_date end_date :
  ∃ self' events,
    run ADMINS ALL_REPOS get_repo_issues get_date_time
      init start_date end_date = Ok (self', events).
Proof.
  unfold run.
  pose proof (process_all_global_tree start_date end_date
                (self_metrics init, untagged_issues init)
                global_tree_base_type) as Htree.
  destruct (process_all _ _ _ _ _ _ _) as [global_node untagged].
  destruct untagged as [|issue untagged]; [|by eexists _, _].
  destruct (aggregate_tree_Ok end_date global_node (all_metrics init) Htree)
    as (global_node' & rows' & ->).
  simpl. by eexists _, _.
Qed.

End run.


(** ** [aggregate] on shared objects: what is written *)

Section store.
Local Open Scope nat_scope.
Implicit Types (h : list Store.object) (acc : gmap string nat).
Implicit Types (st : list Store.object * gmap string nat).

Lemma store_extend_inv h0 metric_id v st st' :
  Store.loop_inv h0 st →
  Store.extend metric_id v st = Ok st' →
  Store.loop_inv h0 st'.
Proof.
  intros (Hlen & Hsame & Hfresh). unfold Store.extend.
  destruct (st.2 !! metric_id) as [l|] eqn:Hk; simpl.
  - destruct (Store.as_list st.1 v) as [vs|]; [|done]. simpl.
    destruct (Store.read_list st.1 l) as [old|]; [|done]. simpl.
    intros [= <-]. unfold Store.loop_inv. cbn [fst snd].
    pose proof (Hfresh _ _ Hk) as Hl. split_and!.
    + by rewrite length_insert.
    + intros l' Hl'. rewrite list_lookup_insert_ne by lia. by apply Hsame.
    + done.
  - destruct (Store.as_list _ v) as [vs|]; [|done]. simpl.
    destruct (Store.read_list _ _) as [old|]; [|done]. simpl.
    intros [= <-]. unfold Store.loop_inv. cbn [fst snd]. split_and!.
    + rewrite length_insert, length_app. simpl. lia.
    + intros l' Hl'. rewrite list_lookup_insert_ne by lia.
      rewrite lookup_app_l by lia. by apply Hsame.
    + intros k l. rewrite lookup_insert. case_decide; [|by apply Hfresh].
      intros [= <-]. done.
Qed.

Lemma store_map_fold_extend_inv h0 (d : gmap string Store.value) st st' :
  Store.loop_inv h0 st →
  map_fold (λ metric_id v res, res ≫= Store.extend metric_id v) (Ok st) d =
    Ok st' →
  Store.loop_inv h0 st'.
Proof.
  intros Hst. revert st'.
  apply (map_fold_weak_ind (λ res (_ : gmap string Store.value),
    ∀ st', res = Ok st' → Store.loop_inv h0 st')).
  - by intros st' [= <-].
  - intros k v m res _ IH st'. destruct res as [st1|e]; [|done]. simpl.
    apply store_extend_inv. by apply IH.
Qed.

Lemma store_collect_inv h0 items st st' :
  Store.loop_inv h0 st →
  Store.collect items st = Ok st' →
  Store.loop_inv h0 st'.
Proof.
  unfold Store.collect. revert st.
  induction items as [|item items IH]; intros st Hst; simpl.
  - by intros [= <-].
  - destruct (Store.read_dict st.1 (Store.metrics_at item.2)) as [d|e] eqn:Hd;
      simpl.
    + destruct (map_fold _ (Ok st) d) as [st1|e] eqn:Hfold.
      * apply IH. by eapply store_map_fold_extend_inv.
      * clear. induction items; [done|]. simpl. done.
    + clear. induction items; [done|]. simpl. done.
Qed.

Lemma store_store_one_frame own metric_id l h h' :
  Store.store_one own metric_id l h = Ok h' →
  length h ≤ length h' ∧
  ∀ l', l' < length h → l' ≠ own → h' !! l' = h !! l'.
Proof.
  unfold Store.store_one.
  destruct (Store.read_list h l) as [values|]; [|done]. simpl.
  destruct (Py.min values); [|done]. simpl.
  destruct (Py.max values); [|done]. simpl.
  destruct (Py.mean values); [|done]. simpl.
  destruct (Py.median values); [|done]. simpl.
  destruct (Store.read_dict _ own); [|done]. simpl.
  intros [= <-]. split.
  - rewrite length_insert, length_app. simpl. lia.
  - intros l' Hl' Hown. rewrite list_lookup_insert_ne by done.
    by rewrite lookup_app_l.
Qed.

Lemma store_second_loop_frame own acc h h' :
  map_fold (λ metric_id l res, res ≫= Store.store_one own metric_id l)
    (Ok h) acc = Ok h' →
  length h ≤ length h' ∧
  ∀ l', l' < length h → l' ≠ own → h' !! l' = h !! l'.
Proof.
  revert h'.
  apply (map_fold_weak_ind (λ res (_ : gmap string nat),
    ∀ h', res = Ok h' →
      length h ≤ length h' ∧
      ∀ l', l' < length h → l' ≠ own → h' !! l' = h !! l')).
  - by intros h' [= <-].
  - intros k l m res _ IH h'. destruct res as [h1|e]; [|done]. simpl.
    intros Hone. destruct (IH h1 eq_refl) as [Hlen Hsame].
    destruct (store_store_one_frame _ _ _ _ _ Hone) as [Hlen' Hsame'].
    split; [lia|]. intros l' Hl' Hown.
    rewrite Hsame' by (done || lia). by apply Hsame.
Qed.

(** *** The store and the values: the first loop *)

Lemma store_list_at_Some h l vs :
  Store.list_at h l = Some vs ↔ h !! l = Some (Store.ListObj vs).
Proof.
  unfold Store.list_at. destruct (h !! l) as [[?|?]|]; naive_solver.
Qed.

Lemma store_read_list_Ok h l vs :
  Store.list_at h l = Some vs → Store.read_list h l = Ok vs.
Proof.
  intros Hl%store_list_at_Some. unfold Store.read_list. by rewrite Hl.
Qed.

(** Reading a value that stood for something in [h0], later in the loop. *)
Lemma store_as_list_inv h0 st v mv :
  Store.loop_inv h0 st →
  Store.value_of h0 v = Some mv →
  Store.as_list st.1 v = Ok (as_list mv).
Proof.
  intros (_ & Hsame & _). destruct v as [x|values ? ? ? ? ?]; simpl.
  - by intros [= <-].
  - destruct (h0 !! values) as [[vs|?]|] eqn:Hv; try done.
    intros [= <-]. simpl. unfold Store.read_list.
    rewrite Hsame, Hv; [done|]. by eapply lookup_lt_Some.
Qed.

Lemma store_extend_view h0 k v mv st :
  Store.loop_inv h0 st →
  Store.acc_ok st →
  Store.value_of h0 v = Some mv →
  ∃ st',
    Store.extend k v st = Ok st' ∧
    Store.acc_ok st' ∧
    ∀ j, Store.acc_view st' j =
           if decide (k = j)
           then Some (default [] (Store.acc_view st k) ++ as_list mv)
           else Store.acc_view st j.
Proof.
  intros Hinv [Hlists Hinj] Hv. unfold Store.extend, Store.acc_view.
  destruct (st.2 !! k) as [l|] eqn:Hk; cbn [mbind option_bind].
  - rewrite (store_as_list_inv h0 st v mv) by done. simpl.
    destruct (Hlists k l Hk) as [old Hold].
    rewrite (store_read_list_Ok _ _ _ Hold). simpl. rewrite Hold. simpl.
    apply store_list_at_Some in Hold as Hold'.
    assert (l < length st.1) as Hlt by (by eapply lookup_lt_Some).
    eexists. split; [done|]. unfold Store.acc_ok. cbn [fst snd].
    split; [split|].
    + intros k' l' Hk'. unfold Store.list_at.
      destruct (decide (l = l')) as [<-|Hne].
      * rewrite list_lookup_insert_eq by done. by eexists.
      * rewrite list_lookup_insert_ne by done. by apply (Hlists k').
    + done.
    + intros j. case_decide as Hkj.
      * subst j. rewrite Hk. simpl. unfold Store.list_at.
        by rewrite list_lookup_insert_eq.
      * destruct (st.2 !! j) as [l'|] eqn:Hj; [|done]. simpl.
        unfold Store.list_at. rewrite list_lookup_insert_ne; [done|].
        intros <-. by destruct Hkj, (Hinj k j l).
  - cbv beta iota zeta delta [Store.alloc].
    assert (Store.as_list (st.1 ++ [Store.ListObj []]) v = Ok (as_list mv))
      as ->.
    { apply (store_as_list_inv h0 (st.1 ++ [Store.ListObj []], st.2)); [|done].
      destruct Hinv as (Hlen & Hsame & Hfresh). split_and!; cbn [fst snd].
      - rewrite length_app. simpl. lia.
      - intros l Hl. rewrite lookup_app_l by lia. by apply Hsame.
      - done. }
    simpl. unfold Store.read_list.
    rewrite lookup_app_r, Nat.sub_diag by done. simpl.
    eexists. split; [done|]. unfold Store.acc_ok. cbn [fst snd].
    assert (∀ k' l', st.2 !! k' = Some l' → l' < length st.1) as Hbound.
    { intros k' l' Hk'. destruct (Hlists k' l' Hk') as [vs Hvs].
      apply store_list_at_Some in Hvs. by eapply lookup_lt_Some. }
    split; [split|].
    + intros k' l'. rewrite lookup_insert. case_decide.
      * intros [= <-]. unfold Store.list_at.
        rewrite list_lookup_insert_eq by (rewrite length_app; simpl; lia).
        by eexists.
      * intros Hk'. pose proof (Hbound _ _ Hk'). unfold Store.list_at.
        rewrite list_lookup_insert_ne, lookup_app_l by lia.
        by apply (Hlists k').
    + intros k1 k2 l'. rewrite !lookup_insert.
      repeat case_decide; simplify_eq; try done.
      * intros [= <-] Hk2. pose proof (Hbound _ _ Hk2). lia.
      * intros Hk1 [= <-]. pose proof (Hbound _ _ Hk1). lia.
      * apply Hinj.
    + intros j. rewrite lookup_insert. case_decide as Hkj.
      * simpl. unfold Store.list_at.
        by rewrite list_lookup_insert_eq by (rewrite length_app; simpl; lia).
      * destruct (st.2 !! j) as [l'|] eqn:Hj; [|done]. simpl.
        pose proof (Hbound _ _ Hj). unfold Store.list_at.
        by rewrite list_lookup_insert_ne, lookup_app_l by lia.
Qed.

Lemma store_map_fold_extend_view h0 (d : gmap string Store.value)
    (m : gmap string MetricValue) st :
  Store.loop_inv h0 st →
  Store.acc_ok st →
  (∀ k, match d !! k with
        | Some v => is_Some (Store.value_of h0 v) ∧
                    m !! k = Store.value_of h0 v
        | None => m !! k = None
        end) →
  ∃ st',
    map_fold (λ metric_id v res, res ≫= Store.extend metric_id v) (Ok st) d =
      Ok st' ∧
    Store.loop_inv h0 st' ∧
    Store.acc_ok st' ∧
    ∀ j, Store.acc_view st' j =
           match m !! j with
           | Some mv => Some (default [] (Store.acc_view st j) ++ as_list mv)
           | None => Store.acc_view st j
           end.
Proof.
  intros Hinv Hok Hdm.
  assert (∀ k v, d !! k = Some v → is_Some (Store.value_of h0 v)) as Hread.
  { intros k v Hk. specialize (Hdm k). rewrite Hk in Hdm. tauto. }
  assert (∀ j, m !! j = d !! j ≫= Store.value_of h0) as Hm.
  { intros j. specialize (Hdm j). destruct (d !! j); [|done]. simpl. tauto. }
  clear Hdm.
  cut (∃ st',
    map_fold (λ metric_id v res, res ≫= Store.extend metric_id v) (Ok st) d =
      Ok st' ∧
    Store.loop_inv h0 st' ∧ Store.acc_ok st' ∧
    ∀ j, Store.acc_view st' j =
           match d !! j ≫= Store.value_of h0 with
           | Some mv => Some (default [] (Store.acc_view st j) ++ as_list mv)
           | None => Store.acc_view st j
           end).
  { intros (st' & ? & ? & ? & Hview). exists st'. split_and!; [done..|].
    intros j. by rewrite Hview, Hm. }
  clear Hm m. revert Hread.
  apply (map_fold_weak_ind (λ res (d' : gmap string Store.value),
    (∀ k v, d' !! k = Some v → is_Some (Store.value_of h0 v)) →
    ∃ st',
      res = Ok st' ∧ Store.loop_inv h0 st' ∧ Store.acc_ok st' ∧
      ∀ j, Store.acc_view st' j =
             match d' !! j ≫= Store.value_of h0 with
             | Some mv => Some (default [] (Store.acc_view st j) ++ as_list mv)
             | None => Store.acc_view st j
             end)).
  - intros _. exists st. split_and!; [done..|]. intros j.
    by rewrite lookup_empty.
  - intros i x d' res Hi IH Hread.
    destruct IH as (st1 & -> & Hinv1 & Hok1 & Hview1).
    { intros k v Hk. apply (Hread k). rewrite lookup_insert_ne; [done|].
      intros <-. congruence. }
    destruct (Hread i x) as [mv Hmv]; [by rewrite lookup_insert_eq|].
    destruct (store_extend_view h0 i x mv st1 Hinv1 Hok1 Hmv)
      as (st2 & Hext & Hok2 & Hview2).
    exists st2. simpl. split_and!; [done| |done|].
    { by eapply store_extend_inv. }
    intros j. rewrite Hview2, lookup_insert. case_decide as Hij.
    + subst j. simpl. rewrite Hmv, Hview1, Hi. done.
    + by rewrite Hview1.
Qed.

Lemma store_collect_view h0 items (pcs : list (string * node)) st :
  Forall2 (λ c pc, Store.stands_for h0 (Store.metrics_at c.2) (metrics pc.2))
    items pcs →
  Store.loop_inv h0 st →
  Store.acc_ok st →
  ∃ st',
    Store.collect items st = Ok st' ∧
    Store.loop_inv h0 st' ∧
    Store.acc_ok st' ∧
    ∀ j, Store.acc_view st' j =
           if decide (observed j pcs)
           then Some (default [] (Store.acc_view st j) ++ contributions j pcs)
           else Store.acc_view st j.
Proof.
  unfold Store.collect. intros Hall. revert st.
  induction Hall as [|c pc items pcs (d & Hd & Hdm) _ IH];
    intros st Hinv Hok; cbn [foldl].
  - exists st. split_and!; [done..|]. intros j.
    rewrite decide_False; [done|]. by intros ?%Exists_nil.
  - cbn [mbind result_mbind result_bind].
    assert (Store.read_dict st.1 (Store.metrics_at c.2) = Ok d) as ->.
    { unfold Store.read_dict. destruct Hinv as (_ & Hsame & _).
      rewrite Hsame, Hd; [done|]. by eapply lookup_lt_Some. }
    cbn [mbind result_mbind result_bind].
    destruct (store_map_fold_extend_view h0 d (metrics pc.2) st Hinv Hok Hdm)
      as (st1 & -> & Hinv1 & Hok1 & Hview1).
    destruct (IH st1 Hinv1 Hok1) as (st' & Hst' & Hinv' & Hok' & Hview').
    exists st'. split_and!; [done..|]. intros j.
    rewrite Hview', Hview1, contributions_cons. unfold contribution.
    destruct (metrics pc.2 !! j) as [mv|] eqn:Hj.
    + simpl. rewrite (decide_True (P := observed j (pc :: pcs)))
        by (apply observed_cons; left; eauto).
      case_decide as Hobs; [by rewrite (assoc_L (++))|].
      by rewrite contributions_unobserved, app_nil_r.
    + simpl. destruct (decide (observed j pcs)) as [Hobs|Hobs].
      * rewrite decide_True; [done|]. apply observed_cons. by right.
      * rewrite decide_False; [done|]. rewrite observed_cons.
        intros [[? ?]|?]; [congruence|done].
Qed.

(** A value stands for the same after a call as before, when it stood for
    something. *)
Lemma store_value_of_frame h h' own d0 v :
  length h ≤ length h' →
  (∀ l, l < length h → l ≠ own → h' !! l = h !! l) →
  h !! own = Some (Store.DictObj d0) →
  is_Some (Store.value_of h v) →
  Store.value_of h' v = Store.value_of h v.
Proof.
  intros Hlen Hsame Hown [mv Hv]. destruct v as [x|values ? ? ? ? ?]; [done|].
  simpl in *. destruct (h !! values) as [[l|d]|] eqn:Hl; try done.
  rewrite Hsame, Hl; [done| |congruence].
  by eapply lookup_lt_Some.
Qed.

(** *** The store and the values: the second loop *)

Lemma store_store_one_spec own k l h vs d :
  h !! l = Some (Store.ListObj vs) →
  h !! own = Some (Store.DictObj d) →
  Store.store_one own k l h =
    r ← summarise_values vs;
    Ok (<[own := Store.DictObj
                   (<[k := Store.Rec (length h) (r_count r) (r_min r)
                             (r_max r) (r_mean r) (r_median r)]> d)]>
          (h ++ [Store.ListObj (r_values r)])).
Proof.
  intros Hl Hown. unfold Store.store_one, Store.read_list, summarise_values.
  rewrite Hl. cbv beta iota zeta delta [Store.alloc]. simpl.
  destruct (Py.min vs); [|done]. simpl.
  destruct (Py.max vs); [|done]. simpl.
  destruct (Py.mean vs); [|done]. simpl.
  destruct (Py.median vs); [|done]. simpl.
  unfold Store.read_dict. rewrite lookup_app_l by (by eapply lookup_lt_Some).
  by rewrite Hown.
Qed.

Lemma store_second_loop_spec own d0 h1 (acc : gmap string nat) :
  h1 !! own = Some (Store.DictObj d0) →
  (∀ k l, acc !! k = Some l → is_Some (Store.list_at h1 l)) →
  match map_fold (λ metric_id l res,
                    res ≫= Store.store_one own metric_id l) (Ok h1) acc with
  | Ok h' =>
      ∃ d', h' !! own = Some (Store.DictObj d') ∧
        ∀ k, match acc !! k with
             | Some l =>
                 ∃ vs r, Store.list_at h1 l = Some vs ∧
                         summarise_values vs = Ok r ∧
                         d' !! k ≫= Store.value_of h' = Some (Aggregated r)
             | None => d' !! k = d0 !! k
             end
  | Raise e =>
      e = ValueError ∧
      ∃ k l, acc !! k = Some l ∧ Store.list_at h1 l = Some []
  end.
Proof.
  intros Hown Hlists.
  cut (match map_fold (λ metric_id l res,
                         res ≫= Store.store_one own metric_id l)
               (Ok h1) acc with
       | Ok h' =>
           (length h1 ≤ length h' ∧
            ∀ l, l < length h1 → l ≠ own → h' !! l = h1 !! l) ∧
           ∃ d', h' !! own = Some (Store.DictObj d') ∧
             ∀ k, match acc !! k with
                  | Some l =>
                      ∃ vs r, Store.list_at h1 l = Some vs ∧
                              summarise_values vs = Ok r ∧
                              d' !! k ≫= Store.value_of h' = Some (Aggregated r)
                  | None => d' !! k = d0 !! k
                  end
       | Raise e =>
           e = ValueError ∧
           ∃ k l, acc !! k = Some l ∧ Store.list_at h1 l = Some []
       end).
  { destruct (map_fold _ _ _); [|done]. by intros [_ H]. }
  revert Hlists.
  apply (map_fold_weak_ind (λ res (m : gmap string nat),
    (∀ k l, m !! k = Some l → is_Some (Store.list_at h1 l)) →
    match res with
    | Ok h' =>
        (length h1 ≤ length h' ∧
         ∀ l, l < length h1 → l ≠ own → h' !! l = h1 !! l) ∧
        ∃ d', h' !! own = Some (Store.DictObj d') ∧
          ∀ k, match m !! k with
               | Some l =>
                   ∃ vs r, Store.list_at h1 l = Some vs ∧
                           summarise_values vs = Ok r ∧
                           d' !! k ≫= Store.value_of h' = Some (Aggregated r)
               | None => d' !! k = d0 !! k
               end
    | Raise e =>
        e = ValueError ∧
        ∃ k l, m !! k = Some l ∧ Store.list_at h1 l = Some []
    end)).
  - intros _. split; [done|]. exists d0. split; [done|]. intros k.
    by rewrite lookup_empty.
  - intros i x m res Hi IH Hlists.
    assert (∀ k l, m !! k = Some l → is_Some (Store.list_at h1 l)) as Hlists'.
    { intros k l Hk. apply (Hlists k). rewrite lookup_insert_ne; [done|].
      intros <-. congruence. }
    specialize (IH Hlists').
    destruct res as [hc|e]; simpl.
    + destruct IH as ([Hlen Hsame] & dc & Hdc & Hentries).
      destruct (Hlists i x) as [vs Hvs]; [by rewrite lookup_insert_eq|].
      apply store_list_at_Some in Hvs as Hx.
      assert (x < length h1) as Hxlt by (by eapply lookup_lt_Some).
      assert (own < length hc) as Hownlt by (by eapply lookup_lt_Some).
      assert (hc !! x = Some (Store.ListObj vs)) as Hcx.
      { rewrite Hsame; [done..|]. intros ->. congruence. }
      rewrite (store_store_one_spec own i x hc vs dc Hcx Hdc).
      destruct (summarise_values vs) as [r|e] eqn:Hr; simpl.
      * set (h2 := <[own := _]> (hc ++ [Store.ListObj (r_values r)])).
        assert (length hc ≤ length h2 ∧
                ∀ l, l < length hc → l ≠ own → h2 !! l = hc !! l)
          as [Hlen2 Hsame2].
        { unfold h2. split.
          - rewrite length_insert, length_app. simpl. lia.
          - intros l Hl Hne. rewrite list_lookup_insert_ne by done.
            by rewrite lookup_app_l. }
        split; [split; [lia|]|].
        { intros l Hl Hne. rewrite Hsame2 by (done || lia). by apply Hsame. }
        eexists. split.
        { unfold h2. apply list_lookup_insert_eq. rewrite length_app. lia. }
        intros k. rewrite lookup_insert. case_decide as Hik.
        -- subst k. exists vs, r. split_and!; [done..|].
           rewrite lookup_insert_eq. simpl. unfold h2.
           rewrite list_lookup_insert_ne by lia.
           rewrite lookup_app_r, Nat.sub_diag by done. simpl.
           by destruct r.
        -- rewrite lookup_insert_ne by done. specialize (Hentries k).
           destruct (m !! k) as [l|]; [|done].
           destruct Hentries as (vs' & r' & ? & ? & Hval).
           exists vs', r'. split_and!; [done..|].
           destruct (dc !! k) as [v|]; [|done]. simpl in *.
           rewrite (store_value_of_frame hc h2 own dc v); [done..|].
           by rewrite Hval.
      * apply summarise_values_Raise in Hr as [-> ->]. split; [done|].
        exists i, x. by rewrite lookup_insert_eq.
    + destruct IH as [-> (k & l & Hk & Hl)]. split; [done|].
      exists k, l. split; [|done]. rewrite lookup_insert_ne; [done|].
      intros <-. congruence.
Qed.

Lemma store_aggregate_frame h n h' :
  Store.aggregate h n = Ok h' →
  length h ≤ length h' ∧
  ∀ l, l < length h → l ≠ Store.metrics_at n → h' !! l = h !! l.
Proof.
  unfold Store.aggregate. intros Hagg.
  destruct (Store.collect (Store.children n) (h, ∅)) as [st1|] eqn:Hc;
    [|done].
  simpl in Hagg.
  destruct (store_collect_inv h (Store.children n) (h, ∅) st1)
    as (Hlen1 & Hsame1 & _); [|done|].
  { split_and!; [done..|]. intros k l Hk. cbn [snd] in Hk.
    by rewrite lookup_empty in Hk. }
  destruct (store_second_loop_frame _ _ _ _ Hagg) as [Hlen2 Hsame2].
  split; [lia|]. intros l Hl Hown.
  rewrite Hsame2 by (done || lia). by apply Hsame1.
Qed.

(** The two embeddings agree. When the metrics mappings of the children
    and of the node stand in the store for those of a node made of values,
    [aggregate] on the store and [aggregate] on the values both return, and
    the mapping of the node then stands for the one computed on values, or
    both raise the same exception. No separation is asked for: the first
    loop only reads what the store held, and the second loop writes after
    all has been read. *)
Lemma store_aggregate_refines h n (pcs : list (string * node))
    (own : gmap string MetricValue) :
  Forall2 (λ c pc, Store.stands_for h (Store.metrics_at c.2) (metrics pc.2))
    (Store.children n) pcs →
  Store.stands_for h (Store.metrics_at n) own →
  match Store.aggregate h n, aggregate (Node pcs own) with
  | Ok h', Ok n' => Store.stands_for h' (Store.metrics_at n) (metrics n')
  | Raise e, Raise e' => e = e'
  | _, _ => False
  end.
Proof.
  intros Hchildren (d0 & Hd0 & Hown).
  pose proof (store_aggregate_frame h n) as Hframe.
  unfold Store.aggregate in *.
  destruct (store_collect_view h (Store.children n) pcs (h, ∅) Hchildren)
    as (st1 & Hst1 & (Hlen1 & Hsame1 & _) & [Hlists Hinj] & Hview).
  { split_and!; [done..|]. intros k l Hk. cbn [snd] in Hk.
    by rewrite lookup_empty in Hk. }
  { split; intros ? ?; cbn [snd]; by rewrite lookup_empty. }
  rewrite Hst1 in Hframe |- *. simpl in Hframe |- *.
  assert (∀ k, Store.acc_view st1 k = collect pcs !! k) as Hcollect.
  { intros k. rewrite Hview, lookup_collect. unfold Store.acc_view.
    cbn [snd]. rewrite lookup_empty. done. }
  assert (own_lt : Store.metrics_at n < length h)
    by (by eapply lookup_lt_Some).
  assert (st1.1 !! Store.metrics_at n = Some (Store.DictObj d0)) as Hd1
    by (by rewrite Hsame1).
  pose proof (store_second_loop_spec (Store.metrics_at n) d0 st1.1 st1.2
                Hd1 Hlists) as Hloop.
  pose proof (store_spec (collect pcs) own) as Hpure.
  unfold aggregate. cbn [nodes metrics].
  destruct (map_fold _ (Ok st1.1) st1.2) as [h'|e] eqn:Hfold;
    destruct (store (collect pcs) own) as [own'|e'] eqn:Hstore; simpl.
  - destruct Hloop as (d' & Hd' & Hentries).
    destruct (Hframe h' eq_refl) as [Hlen Hsame].
    exists d'. split; [done|]. intros k.
    specialize (Hentries k). specialize (Hpure k). specialize (Hown k).
    rewrite <-Hcollect in Hpure. unfold Store.acc_view in Hpure.
    destruct (st1.2 !! k) as [l|]; simpl in Hpure.
    + destruct Hentries as (vs & r & Hvs & Hr & Hval).
      rewrite Hvs in Hpure. destruct Hpure as (r' & Hr' & ->).
      destruct (d' !! k) as [v|]; [|done]. simpl in Hval.
      rewrite Hval. split; [by eexists|congruence].
    + rewrite Hentries, Hpure. destruct (d0 !! k) as [v|]; [|done].
      destruct Hown as [Hsome Hown].
      by rewrite (store_value_of_frame h h' (Store.metrics_at n) d0 v).
  - destruct Hloop as (d' & Hd' & Hentries).
    destruct Hpure as [_ [k Hk]]. specialize (Hentries k).
    rewrite <-Hcollect in Hk. unfold Store.acc_view in Hk.
    destruct (st1.2 !! k) as [l|]; [|done]. simpl in Hk.
    destruct Hentries as (vs & r & Hvs & Hr & _).
    rewrite Hk in Hvs. injection Hvs as <-. done.
  - destruct Hloop as (_ & k & l & Hk & Hl). specialize (Hpure k).
    rewrite <-Hcollect in Hpure. unfold Store.acc_view in Hpure.
    rewrite Hk in Hpure. simpl in Hpure. rewrite Hl in Hpure.
    by destruct Hpure as (r & Hr & _).
  - destruct Hloop as [-> _], Hpure as [-> _]. done.
Qed.

(** C10. A call of [aggregate] writes the metrics mapping of its node and
    objects it has made itself, nothing else: every other object of the
    store is afterwards what it was, the lists and the metrics mappings of
    the children and of all that is below them among them. So the metrics
    mapping of each child stands for the same mapping after the call as
    before. *)
Theorem aggregate_writes_own_metrics_only h n h' :
  Store.aggregate h n = Ok h' →
  (∃ d, h !! Store.metrics_at n = Some (Store.DictObj d)) →
  length h ≤ length h' ∧
  (∀ l, l < length h → l ≠ Store.metrics_at n → h' !! l = h !! l) ∧
  (∀ name c m,
     (name, c) ∈ Store.children n →
     Store.metrics_at c ≠ Store.metrics_at n →
     Store.stands_for h (Store.metrics_at c) m →
     Store.stands_for h' (Store.metrics_at c) m).
Proof.
  intros Hagg [d0 Hown].
  destruct (store_aggregate_frame _ _ _ Hagg) as [Hlen Hsame].
  split_and!; [done..|].
  intros name c m _ Hc (d & Hd & Hvals). exists d. split.
  - rewrite Hsame; [done| |done]. by eapply lookup_lt_Some.
  - intros k. specialize (Hvals k). destruct (d !! k) as [v|]; [|done].
    destruct Hvals as [Hsome Hm].
    by rewrite (store_value_of_frame h h' _ d0 v Hlen Hsame Hown Hsome).
Qed.

End store.

(** A witness of C10: the call on [Store.sample_tree] returns, and the
    theorem applies to the store it returns. *)
Lemma aggregate_writes_own_metrics_only_witness :
  ∃ h',
    Store.aggregate Store.sample_store Store.sample_tree = Ok h' ∧
    (length Store.sample_store ≤ length h')%nat ∧
    (∀ l, (l < length Store.sample_store)%nat →
          l ≠ Store.metrics_at Store.sample_tree →
          h' !! l = Store.sample_store !! l) ∧
    (∀ name c m,
       (name, c) ∈ Store.children Store.sample_tree →
       Store.metrics_at c ≠ Store.metrics_at Store.sample_tree →
       Store.stands_for Store.sample_store (Store.metrics_at c) m →
       Store.stands_for h' (Store.metrics_at c) m).
Proof.
  eexists. split; [vm_compute; reflexivity|].
  apply (aggregate_writes_own_metrics_only Store.sample_store
           Store.sample_tree).
  - vm_compute. reflexivity.
  - eexists. reflexivity.
Defined.

(** The scenario of the design document, run from a new collector: the
    record of repository A, that of the organisation, which merges the two
    names apart, and that of the global node, which is the same. *)
Example run_scenario :
  match run ["bob"] [("org", ["A"; "B"])] scenario_issues sample_dates
          init "2020-01-01" "2020-04-20" with
  | Ok (self, _) =>
      let global_node := self_metrics self in
      let org_node := getitem "org" (nodes global_node) in
      let repo_a := getitem "A" (nodes org_node) in
      show_metrics repo_a =
        [("time_to_close_bug", inr ([3; 7]%Q, 2%nat, 3%Q, 7%Q, 5%Q, 5%Q))] ∧
      show_metrics org_node =
        [("time_to_close_feature",
          inr ([10 # 1]%Q, 1%nat, (10 # 1)%Q, (10 # 1)%Q, (10 # 1)%Q, (10 # 1)%Q));
         ("time_to_close_bug", inr ([3; 7]%Q, 2%nat, 3%Q, 7%Q, 5%Q, 5%Q))] ∧
      show_metrics global_node = show_metrics org_node ∧
      length (all_metrics self) = 4%nat
  | Raise _ => False
  end.
Proof. vm_compute. repeat split; reflexivity. Qed.


(** * Further properties *)

(** ** [aggregate], again *)

Section aggregate_more.
Implicit Types (n : node) (children : list (string * node)) (k : string).
Implicit Types (l : list Qc) (r : summary).

(** X1. A second call of [aggregate] on a node changes nothing: it stores
    again the records the first call stored. *)
Theorem aggregate_idempotent n n' :
  aggregate n = Ok n' → aggregate n' = Ok n'.
Proof.
  intros Hn'. pose proof (aggregate_spec n) as Hs. rewrite Hn' in Hs.
  destruct Hs as [Hnodes Hs]. unfold aggregate. rewrite Hnodes.
  pose proof (store_spec (collect (nodes n)) (metrics n')) as Hstore.
  destruct (store (collect (nodes n)) (metrics n')) as [own|e]; simpl.
  - f_equal. destruct n' as [children' own']. simpl in *. subst children'.
    f_equal. apply map_eq. intros k. specialize (Hs k). specialize (Hstore k).
    rewrite lookup_collect in Hstore. case_decide.
    + destruct Hs as (r & Hr & ->), Hstore as (r' & Hr' & ->). congruence.
    + done.
  - destruct Hstore as (_ & k & Hk). specialize (Hs k).
    rewrite lookup_collect in Hk. case_decide; [|done].
    injection Hk as Hk. destruct Hs as (r & Hr & _). by rewrite Hk in Hr.
Qed.

(** Arithmetic of day counts. *)
Lemma of_nat_S (m : nat) : Py.of_nat (S m) = 1 + Py.of_nat m.
Proof.
  apply Qc_is_canon. unfold Py.of_nat, Qc_of_Z, Qcplus, Q2Qc. simpl.
  rewrite !Qred_correct. unfold Qeq. simpl. lia.
Qed.

Lemma of_nat_0 : Py.of_nat 0 = 0.
Proof. by apply Qc_is_canon. Qed.

Lemma of_nat_nonneg (m : nat) : 0 ≤ Py.of_nat m.
Proof. unfold Qcle, Py.of_nat, Qc_of_Z, Qle. simpl. lia. Qed.

Lemma Qcinv_nonneg (x : Qc) : 0 ≤ x → 0 ≤ / x.
Proof.
  unfold Qcle, Qcinv, Q2Qc. simpl. intros Hx.
  rewrite (Qred_correct (/ x)). exact (Qinv_le_0_compat x Hx).
Qed.

Lemma sum_lower l m :
  (∀ x, x ∈ l → m ≤ x) → Py.of_nat (length l) * m ≤ Py.sum l.
Proof.
  induction l as [|x l IH]; intros Hall; simpl.
  - rewrite of_nat_0, Qcmult_0_l. apply Qcle_refl.
  - rewrite of_nat_S, Qcmult_plus_distr_l, Qcmult_1_l.
    apply Qcplus_le_compat; [apply Hall; left|].
    apply IH. intros y Hy. apply Hall. by right.
Qed.

Lemma sum_upper l m :
  (∀ x, x ∈ l → x ≤ m) → Py.sum l ≤ Py.of_nat (length l) * m.
Proof.
  induction l as [|x l IH]; intros Hall; simpl.
  - rewrite of_nat_0, Qcmult_0_l. apply Qcle_refl.
  - rewrite of_nat_S, Qcmult_plus_distr_l, Qcmult_1_l.
    apply Qcplus_le_compat; [apply Hall; left|].
    apply IH. intros y Hy. apply Hall. by right.
Qed.

Lemma scaled_back (x y : Qc) : y ≠ 0 → y * x / y = x.
Proof. intros Hy. rewrite (Qcmult_comm y x). by apply Qcdiv_mult_l. Qed.

(** The mean lies between the least and the greatest value. *)
Lemma mean_between l mn mx me :
  least mn l → greatest mx l → Py.mean l = Ok me → mn ≤ me ∧ me ≤ mx.
Proof.
  intros [_ Hmn] [_ Hmx]. unfold Py.mean, Py.len.
  case_decide as Hlen; [done|]. intros [= <-].
  assert (Py.of_nat (length l) ≠ 0) as Hne by (apply of_nat_ne_0; lia).
  pose proof (Qcinv_nonneg _ (of_nat_nonneg (length l))) as Hinv.
  split.
  - rewrite <-(scaled_back mn (Py.of_nat (length l))) at 1 by done.
    unfold Qcdiv. apply Qcmult_le_compat_r; [|done]. by apply sum_lower.
  - rewrite <-(scaled_back mx (Py.of_nat (length l))) at 1 by done.
    unfold Qcdiv. apply Qcmult_le_compat_r; [|done]. by apply sum_upper.
Qed.

Lemma half_of_double (x : Qc) : (x + x) / Py.of_nat 2 = x.
Proof.
  assert (x + x = x * Py.of_nat 2) as ->.
  { rewrite !of_nat_S.
    rewrite of_nat_0, Qcplus_0_r, Qcmult_plus_distr_r, Qcmult_1_r. done. }
  apply Qcdiv_mult_l. apply of_nat_ne_0. lia.
Qed.

(** So does the average of two of the values. *)
Lemma average_between (a b mn mx : Qc) :
  mn ≤ a → mn ≤ b → a ≤ mx → b ≤ mx →
  mn ≤ (a + b) / Py.of_nat 2 ∧ (a + b) / Py.of_nat 2 ≤ mx.
Proof.
  intros Ha Hb Ha' Hb'.
  pose proof (Qcinv_nonneg _ (of_nat_nonneg 2)) as Hinv. split.
  - rewrite <-(half_of_double mn) at 1. unfold Qcdiv.
    apply Qcmult_le_compat_r; [|done]. by apply Qcplus_le_compat.
  - rewrite <-(half_of_double mx) at 1. unfold Qcdiv.
    apply Qcmult_le_compat_r; [|done]. by apply Qcplus_le_compat.
Qed.

Lemma median_between l mn mx md :
  l ≠ [] → least mn l → greatest mx l → middle md (Py.sorted l) →
  mn ≤ md ∧ md ≤ mx.
Proof.
  intros Hl [_ Hmn] [_ Hmx] [Hodd Heven].
  assert (∀ i x, Py.sorted l !! i = Some x → mn ≤ x ∧ x ≤ mx) as Hin.
  { intros i x Hx. apply list_elem_of_lookup_2 in Hx.
    rewrite sorted_Permutation in Hx. auto. }
  assert (length (Py.sorted l) ≠ 0%nat) as Hlen.
  { rewrite sorted_length. by destruct l. }
  destruct (Nat.Even_or_Odd (length (Py.sorted l))) as [[j Hj]|[j Hj]].
  - destruct (Heven (j - 1)%nat) as (a & b & Ha & Hb & ->); [lia|].
    destruct (Hin _ _ Ha), (Hin _ _ Hb). by apply average_between.
  - apply (Hin j). apply Hodd. lia.
Qed.

Lemma sorted_head l m : least m l → head (Py.sorted l) = Some m.
Proof.
  intros [Hin Hle]. pose proof (sorted_Permutation l) as Hp.
  pose proof (sorted_Sorted l) as Hs.
  apply (Sorted_StronglySorted Qcle) in Hs.
  destruct (Py.sorted l) as [|x s] eqn:Hsorted.
  { rewrite <-Hp in Hin. by apply elem_of_nil in Hin. }
  simpl. f_equal. apply StronglySorted_cons in Hs as [Hx _].
  apply Qcle_antisym.
  - rewrite <-Hp in Hin. apply elem_of_cons in Hin as [->|Hin];
      [apply Qcle_refl|].
    rewrite Forall_forall in Hx. by apply Hx, list_elem_of_In.
  - apply Hle. rewrite <-Hp. left.
Qed.

Lemma sorted_last l m : greatest m l → list.last (Py.sorted l) = Some m.
Proof.
  intros [Hin Hle]. pose proof (sorted_Permutation l) as Hp.
  pose proof (sorted_Sorted l) as Hs.
  apply (Sorted_StronglySorted Qcle) in Hs.
  destruct (list.last (Py.sorted l)) as [y|] eqn:Hlast.
  - f_equal. apply last_Some in Hlast as [s Hsorted].
    rewrite Hsorted in Hs, Hp. apply Qcle_antisym.
    + apply Hle. rewrite <-Hp. apply elem_of_app. right. left.
    + rewrite <-Hp in Hin. apply elem_of_app in Hin as [Hin|Hin].
      * apply StronglySorted_app in Hs as (Hall & _ & _).
        apply Hall; [done|left].
      * apply list_elem_of_singleton in Hin as ->. apply Qcle_refl.
  - apply last_None in Hlast. rewrite Hlast in Hp.
    rewrite <-Hp in Hin. by apply elem_of_nil in Hin.
Qed.

(** The record of a list of values is coherent. *)
Lemma summarise_values_coherent l r :
  summarise_values l = Ok r →
  r_count r = length (r_values r) ∧
  head (r_values r) = Some (r_min r) ∧
  list.last (r_values r) = Some (r_max r) ∧
  (r_min r ≤ r_mean r ∧ r_mean r ≤ r_max r) ∧
  (r_min r ≤ r_median r ∧ r_median r ≤ r_max r).
Proof.
  intros Hr. apply summarise_values_Ok_inv in Hr as Hne.
  destruct (summarise_values_Ok l Hne)
    as (r' & Hr' & Hv & Hc & Hmin & Hmax & _ & Hmed).
  rewrite Hr in Hr'. injection Hr' as <-. rewrite Hv, Hc.
  assert (Py.mean l = Ok (r_mean r)) as Hmean.
  { revert Hr. unfold summarise_values.
    destruct (Py.min l); [|done]. destruct (Py.max l); [|done].
    destruct (Py.mean l); [|done]. simpl.
    destruct (Py.median l); [|done]. by intros [= <-]. }
  pose proof (mean_between l _ _ _ Hmin Hmax Hmean).
  pose proof (median_between l _ _ _ Hne Hmin Hmax Hmed).
  split; [by rewrite sorted_length|].
  split; [by apply sorted_head|].
  split; [by apply sorted_last|]. done.
Qed.

(** X2. Every record that [aggregate] stores is coherent: its [count] is
    the length of its [values], its [min] and [max] are the first and the
    last of them, and its [mean] and its [median] lie between the two. *)
Theorem aggregate_records_coherent n n' k :
  aggregate n = Ok n' →
  observed k (nodes n) →
  ∃ r,
    metrics n' !! k = Some (Aggregated r) ∧
    r_count r = length (r_values r) ∧
    head (r_values r) = Some (r_min r) ∧
    list.last (r_values r) = Some (r_max r) ∧
    (r_min r ≤ r_mean r ∧ r_mean r ≤ r_max r) ∧
    (r_min r ≤ r_median r ∧ r_median r ≤ r_max r).
Proof.
  intros Hn' Hobs. pose proof (aggregate_spec n) as Hs. rewrite Hn' in Hs.
  destruct Hs as [_ Hs]. specialize (Hs k).
  rewrite decide_True in Hs by done. destruct Hs as (r & Hr & Hk).
  exists r. split; [done|]. by eapply summarise_values_coherent.
Qed.

Lemma contribution_length k item :
  (∀ r, metrics item.2 !! k = Some (Aggregated r) →
        r_count r = length (r_values r)) →
  length (contribution k item.2) = child_count k item.
Proof.
  intros Hcoherent. unfold contribution, child_count.
  destruct (metrics item.2 !! k) as [[x|r]|]; simpl; [done| |done].
  symmetry. by apply Hcoherent.
Qed.

(** X3. The [count] that [aggregate] stores under a name is the sum of
    what the children bring: one for a number, its [count] for a record
    (whose [count] is the length of its [values], as in every record
    [aggregate] makes), nothing for a child without the name. *)
Theorem aggregate_count_adds_up n n' k :
  aggregate n = Ok n' →
  Forall (λ item, ∀ r, metrics item.2 !! k = Some (Aggregated r) →
                       r_count r = length (r_values r)) (nodes n) →
  observed k (nodes n) →
  ∃ r, metrics n' !! k = Some (Aggregated r) ∧
       r_count r = sum_list (child_count k <$> nodes n).
Proof.
  intros Hn' Hcoherent Hobs. pose proof (aggregate_spec n) as Hs.
  rewrite Hn' in Hs. destruct Hs as [_ Hs]. specialize (Hs k).
  rewrite decide_True in Hs by done. destruct Hs as (r & Hr & Hk).
  exists r. split; [done|].
  apply summarise_values_Ok_inv in Hr as Hne.
  destruct (summarise_values_Ok _ Hne) as (r' & Hr' & _ & Hc & _).
  rewrite Hr in Hr'. injection Hr' as <-. rewrite Hc.
  clear -Hcoherent. induction Hcoherent as [|item children Hitem _ IH].
  - done.
  - rewrite contributions_cons, length_app, fmap_cons. simpl.
    by rewrite IH, contribution_length.
Qed.

End aggregate_more.

(** A witness of X2: the bugs of [sample_repo]. *)
Lemma aggregate_records_coherent_witness :
  ∃ n' r,
    aggregate sample_repo = Ok n' ∧
    metrics n' !! "time_to_close_bug" = Some (Aggregated r) ∧
    r_count r = length (r_values r) ∧
    head (r_values r) = Some (r_min r) ∧
    list.last (r_values r) = Some (r_max r) ∧
    (r_min r ≤ r_mean r ∧ r_mean r ≤ r_max r) ∧
    (r_min r ≤ r_median r ∧ r_median r ≤ r_max r).
Proof.
  destruct (aggregate_Ok sample_repo) as [n' Hn']; [by_evaluation|].
  destruct (aggregate_records_coherent sample_repo n' "time_to_close_bug")
    as [r Hr]; [exact Hn'|by_evaluation|].
  exists n', r. split; [exact Hn'|exact Hr].
Defined.

(** A witness of X3: the bugs of [sample_repo] are four. *)
Lemma aggregate_count_adds_up_witness :
  ∃ n' r,
    aggregate sample_repo = Ok n' ∧
    metrics n' !! "time_to_close_bug" = Some (Aggregated r) ∧
    r_count r = 4%nat.
Proof.
  destruct (aggregate_Ok sample_repo) as [n' Hn']; [by_evaluation|].
  destruct (aggregate_count_adds_up sample_repo n' "time_to_close_bug")
    as [r Hr]; [exact Hn'| |by_evaluation|].
  - repeat (apply Forall_cons; [intros r Hr; by vm_compute in Hr|]).
    apply Forall_nil.
  - exists n', r. split; [exact Hn'|exact Hr].
Defined.

(** A witness of X1: [sample_repo]. *)
Lemma aggregate_idempotent_witness :
  ∃ n', aggregate sample_repo = Ok n' ∧ aggregate n' = Ok n'.
Proof.
  destruct (aggregate_Ok sample_repo) as [n' Hn']; [by_evaluation|].
  exists n'. split; [done|]. by apply (aggregate_idempotent sample_repo).
Defined.

(** ** When [aggregate] raises, and what it keeps *)

Section aggregate_errors.
Implicit Types (n : node) (children : list (string * node)) (k : string).

Lemma contributions_nil k children :
  contributions k children = [] ↔
    Forall (λ item, ∀ value, metrics item.2 !! k = Some value →
                             as_list value = []) children.
Proof.
  induction children as [|item children IH].
  - split; [constructor|done].
  - rewrite contributions_cons, list.Forall_cons, <-IH. unfold contribution.
    split.
    + intros [Hc ?]%app_eq_nil. split; [|done]. intros value Hk.
      by rewrite Hk in Hc.
    + intros [Hc ->]. rewrite app_nil_r.
      destruct (metrics item.2 !! k) as [value|]; [by apply Hc|done].
Qed.

(** X4. [aggregate] raises exactly when some metric name is held by a
    child and every child that holds it holds a record without values:
    [min] then meets an empty list. The exception is a [ValueError], and
    no other exception is raised. *)
Theorem aggregate_raises_on_empty_values n :
  ((∃ k, observed k (nodes n) ∧
         Forall (λ item, ∀ value, metrics item.2 !! k = Some value →
                                  as_list value = []) (nodes n)) ↔
   aggregate n = Raise ValueError) ∧
  (∀ e, aggregate n = Raise e → e = ValueError).
Proof.
  pose proof (aggregate_spec n) as Hs.
  destruct (aggregate n) as [n'|e].
  - destruct Hs as [_ Hs]. split; [|done]. split; [|done].
    intros (k & Hobs & Hnil). apply contributions_nil in Hnil.
    specialize (Hs k). rewrite decide_True in Hs by done.
    destruct Hs as (r & Hr & _). by rewrite Hnil in Hr.
  - destruct Hs as (-> & k & Hobs & Hnil). split; [|by intros ? [= <-]].
    split; [done|]. intros _. exists k. split; [done|].
    by apply contributions_nil.
Qed.

(** X5. [aggregate] leaves the children of the node as they are, and
    leaves alone every entry of the node under a name that no child
    holds: an entry stored by an earlier call is not removed when the
    children have lost the name. *)
Theorem aggregate_keeps_other_entries n n' k :
  aggregate n = Ok n' →
  ¬ observed k (nodes n) →
  nodes n' = nodes n ∧ metrics n' !! k = metrics n !! k.
Proof.
  intros Hn' Hk. pose proof (aggregate_spec n) as Hs. rewrite Hn' in Hs.
  destruct Hs as [Hnodes Hs]. split; [done|]. specialize (Hs k).
  by rewrite decide_False in Hs.
Qed.

End aggregate_errors.

(** [sample_hollow] makes [aggregate] raise. *)
Example aggregate_sample_hollow : aggregate sample_hollow = Raise ValueError.
Proof. vm_compute. reflexivity. Qed.

(** A witness of X5: the stale record of [sample_stale]. *)
Lemma aggregate_keeps_other_entries_witness :
  ∃ n',
    aggregate sample_stale = Ok n' ∧
    nodes n' = nodes sample_stale ∧
    metrics n' !! "time_to_close_bug" =
      metrics sample_stale !! "time_to_close_bug".
Proof.
  destruct (aggregate_Ok sample_stale) as [n' Hn']; [by_evaluation|].
  exists n'. split; [exact Hn'|].
  apply (aggregate_keeps_other_entries sample_stale n' "time_to_close_bug");
    [exact Hn'|by_evaluation].
Defined.

(** ** [aggregate] on the records of an earlier call *)

Section aggregate_of_aggregates.
Implicit Types (n : node) (children : list (string * node)) (k : string).
Implicit Types (l : list Qc) (r : summary).

Lemma coherent_record r :
  summarise_values (r_values r) = Ok r →
  r_values r ≠ [] ∧
  least (r_min r) (r_values r) ∧
  greatest (r_max r) (r_values r).
Proof.
  intros Hr. apply summarise_values_Ok_inv in Hr as Hne.
  destruct (summarise_values_Ok _ Hne)
    as (r' & Hr' & _ & _ & Hmin & Hmax & _).
  rewrite Hr in Hr'. by injection Hr' as <-.
Qed.

Lemma elem_of_contributions k children x :
  x ∈ contributions k children ↔
    ∃ item, item ∈ children ∧ x ∈ contribution k item.2.
Proof.
  unfold contributions. rewrite list_elem_of_bind.
  split; intros (item & ? & ?); by exists item.
Qed.

Lemma child_min_least k children m :
  Forall (coherent_at k) children →
  least m (contributions k children) →
  least m (omap (child_min k) children).
Proof.
  intros Hcoherent [Hin Hle].
  rewrite list.Forall_forall in Hcoherent. split.
  - apply elem_of_contributions in Hin as (item & Hitem & Hm).
    apply list_elem_of_omap. exists item. split; [done|].
    unfold contribution in Hm. unfold child_min.
    pose proof (Hcoherent item Hitem) as Hrec. unfold coherent_at in Hrec.
    destruct (metrics item.2 !! k) as [[x|r]|] eqn:Hk; simpl in Hm.
    + by apply list_elem_of_singleton in Hm as ->.
    + destruct (coherent_record r (Hrec r eq_refl))
        as (_ & [Hmin Hleast] & _).
      f_equal. apply Qcle_antisym; [by apply Hleast|].
      apply Hle. apply elem_of_contributions. exists item.
      split; [done|]. unfold contribution. by rewrite Hk.
    + by apply elem_of_nil in Hm.
  - intros y Hy. apply list_elem_of_omap in Hy as (item & Hitem & Hy).
    apply Hle. apply elem_of_contributions. exists item. split; [done|].
    unfold contribution. unfold child_min in Hy.
    pose proof (Hcoherent item Hitem) as Hrec. unfold coherent_at in Hrec.
    destruct (metrics item.2 !! k) as [[x|r]|] eqn:Hk; simplify_eq; simpl.
    + left.
    + by destruct (coherent_record r (Hrec r eq_refl))
        as (_ & [Hmin _] & _).
Qed.

Lemma child_max_greatest k children m :
  Forall (coherent_at k) children →
  greatest m (contributions k children) →
  greatest m (omap (child_max k) children).
Proof.
  intros Hcoherent [Hin Hle].
  rewrite list.Forall_forall in Hcoherent. split.
  - apply elem_of_contributions in Hin as (item & Hitem & Hm).
    apply list_elem_of_omap. exists item. split; [done|].
    unfold contribution in Hm. unfold child_max.
    pose proof (Hcoherent item Hitem) as Hrec. unfold coherent_at in Hrec.
    destruct (metrics item.2 !! k) as [[x|r]|] eqn:Hk; simpl in Hm.
    + by apply list_elem_of_singleton in Hm as ->.
    + destruct (coherent_record r (Hrec r eq_refl))
        as (_ & _ & [Hmax Hgreatest]).
      f_equal. apply Qcle_antisym; [|by apply Hgreatest].
      apply Hle. apply elem_of_contributions. exists item.
      split; [done|]. unfold contribution. by rewrite Hk.
    + by apply elem_of_nil in Hm.
  - intros y Hy. apply list_elem_of_omap in Hy as (item & Hitem & Hy).
    apply Hle. apply elem_of_contributions. exists item. split; [done|].
    unfold contribution. unfold child_max in Hy.
    pose proof (Hcoherent item Hitem) as Hrec. unfold coherent_at in Hrec.
    destruct (metrics item.2 !! k) as [[x|r]|] eqn:Hk; simplify_eq; simpl.
    + left.
    + by destruct (coherent_record r (Hrec r eq_refl))
        as (_ & _ & [Hmax _]).
Qed.

(** X7. The [min] that [aggregate] stores is the least of what the
    children tell as their least value (a number itself, a record its
    [min]), and the [max] the greatest of what they tell as their
    greatest. *)
Theorem aggregate_extremes n n' k :
  aggregate n = Ok n' →
  Forall (coherent_at k) (nodes n) →
  observed k (nodes n) →
  ∃ r, metrics n' !! k = Some (Aggregated r) ∧
       least (r_min r) (omap (child_min k) (nodes n)) ∧
       greatest (r_max r) (omap (child_max k) (nodes n)).
Proof.
  intros Hn' Hcoherent Hobs. pose proof (aggregate_spec n) as Hs.
  rewrite Hn' in Hs. destruct Hs as [_ Hs]. specialize (Hs k).
  rewrite decide_True in Hs by done. destruct Hs as (r & Hr & Hk).
  exists r. split; [done|].
  apply summarise_values_Ok_inv in Hr as Hne.
  destruct (summarise_values_Ok _ Hne) as (r' & Hr' & _ & _ & Hmin & Hmax & _).
  rewrite Hr in Hr'. injection Hr' as <-.
  split; [by apply child_min_least|by apply child_max_greatest].
Qed.

End aggregate_of_aggregates.

(** The children of the witness of X7: repository A after
    [aggregate] and an issue beside it. *)
Lemma sample_two_levels :
  ∃ repo_a,
    aggregate sample_repo = Ok repo_a ∧
    Forall (coherent_at "time_to_close_bug")
      [("A", repo_a); ("i9", leaf [("time_to_close_bug", days 9 1)])] ∧
    observed "time_to_close_bug"
      [("A", repo_a); ("i9", leaf [("time_to_close_bug", days 9 1)])] ∧
    wf_children
      [("A", repo_a); ("i9", leaf [("time_to_close_bug", days 9 1)])].
Proof.
  destruct (aggregate_Ok sample_repo) as [repo_a Hagg]; [by_evaluation|].
  pose proof (aggregate_fresh sample_repo repo_a eq_refl Hagg) as Hrec.
  exists repo_a. split; [exact Hagg|]. split; [|split].
  - apply list.Forall_cons. split.
    + intros r Hr. destruct (Hrec _ _ Hr) as (r' & [= <-] & Hr'). exact Hr'.
    + apply list.Forall_cons. split; [|apply list.Forall_nil_2].
      intros r Hr. vm_compute in Hr. discriminate Hr.
  - apply observed_cons. right. apply observed_cons. left. by_evaluation.
  - apply list.Forall_cons. split.
    + by apply aggregated_node_wf_metrics.
    + apply list.Forall_cons. split; [by_evaluation|apply list.Forall_nil_2].
Defined.

(** A witness of X7. *)
Lemma aggregate_extremes_witness :
  ∃ repo_a n' r,
    aggregate sample_repo = Ok repo_a ∧
    aggregate
      (Node [("A", repo_a); ("i9", leaf [("time_to_close_bug", days 9 1)])] ∅)
      = Ok n' ∧
    metrics n' !! "time_to_close_bug" = Some (Aggregated r) ∧
    least (r_min r)
      (omap (child_min "time_to_close_bug")
         [("A", repo_a); ("i9", leaf [("time_to_close_bug", days 9 1)])]) ∧
    greatest (r_max r)
      (omap (child_max "time_to_close_bug")
         [("A", repo_a); ("i9", leaf [("time_to_close_bug", days 9 1)])]).
Proof.
  destruct sample_two_levels as (repo_a & Hagg & Hcoherent & Hobs & Hwf).
  destruct (aggregate_Ok
              (Node [("A", repo_a);
                     ("i9", leaf [("time_to_close_bug", days 9 1)])] ∅) Hwf)
    as [n' Hn'].
  destruct (aggregate_extremes _ n' "time_to_close_bug" Hn' Hcoherent Hobs)
    as (r & Hk & Hext).
  exists repo_a, n', r. split; [exact Hagg|]. split; [exact Hn'|].
  split; [exact Hk|exact Hext].
Defined.

(** ** The bottom-up pass, level by level *)

Section rollup.
Implicit Types (n c : node) (rows : list (gmap string cell)) (k : string).
Implicit Types (children repos orgs : list (string * node)) (vs : list Qc).

Lemma holds_stats_perm k vs1 vs2 n :
  vs1 ≡ₚ vs2 → holds_stats k vs1 n → holds_stats k vs2 n.
Proof.
  intros Hp [Hnil Hne]. split.
  - intros ->. apply Hnil. by apply Permutation_nil_r in Hp.
  - intros Hne2. destruct Hne as (r & Hr & Hk).
    { intros ->. by apply Permutation_nil_l in Hp. }
    exists r. by rewrite <-(summarise_values_perm _ _ Hp).
Qed.

Lemma aggregate_holds_stats n n' k :
  metrics n = ∅ → wf_children (nodes n) → aggregate n = Ok n' →
  holds_stats k (contributions k (nodes n)) n'.
Proof.
  intros Hfresh Hwf Hn'. pose proof (aggregate_spec n) as Hs. rewrite Hn' in Hs.
  destruct Hs as [_ Hs]. specialize (Hs k). case_decide as Hobs.
  - destruct Hs as (r & Hr & Hk). split.
    + intros Hnil. by destruct (contributions_nonempty k _ Hwf Hobs).
    + intros _. eauto.
  - split.
    + intros _. by rewrite Hs, Hfresh, lookup_empty.
    + intros Hne. destruct Hne. by apply contributions_unobserved.
Qed.

Lemma contribution_holds_stats k vs c :
  holds_stats k vs c → contribution k c ≡ₚ vs.
Proof.
  intros [Hnil Hne]. unfold contribution. destruct vs as [|x vs].
  - by rewrite Hnil.
  - destruct Hne as (r & Hr & ->); [done|]. simpl.
    destruct (summarise_values_Ok (x :: vs)) as (r' & Hr' & Hv & _); [done|].
    rewrite Hr in Hr'. injection Hr' as <-. rewrite Hv. apply sorted_Permutation.
Qed.

Lemma contributions_rolled_up values k children children' :
  Forall2 (rolled_up values) children children' →
  contributions k children' ≡ₚ children ≫= (λ item, values k item.2).
Proof.
  induction 1 as [|item item' children children' [_ Hitem] _ IH]; [done|].
  rewrite contributions_cons, bind_cons, IH.
  by rewrite (contribution_holds_stats _ _ _ (Hitem k)).
Qed.

Lemma rolled_up_aggregated values children children' :
  Forall2 (rolled_up values) children children' →
  Forall (λ item, aggregated_node item.2) children' →
  wf_children children'.
Proof.
  intros _ Hall. eapply Forall_impl; [|exact Hall]. intros item.
  apply aggregated_node_wf_metrics.
Qed.

Lemma aggregate_repos_rolled_up end_date repos rows repos' rows' :
  Forall (λ item, repo_tree item.2) repos →
  aggregate_repos end_date repos rows = Ok (repos', rows') →
  Forall2 (λ repo repo', rolled_up repo_values repo repo' ∧
                         nodes repo'.2 = nodes repo.2) repos repos' ∧
  Forall (λ item, aggregated_node item.2) repos'.
Proof.
  intros Hall. revert rows repos' rows'.
  induction Hall as [|[repo repo_node] repos [Hfresh Hleaves] _ IH];
    intros rows repos' rows' Hpass; simpl in Hpass.
  - injection Hpass as <- <-. by split.
  - cbn [snd] in Hfresh, Hleaves.
    destruct (aggregate repo_node) as [repo_node'|e] eqn:Hagg; [|done].
    simpl in Hpass.
    destruct (summarize repo end_date repo_node' rows) as [rows1|e];
      [|done].
    simpl in Hpass.
    destruct (aggregate_repos end_date repos rows1) as [[rest rows2]|e]
      eqn:Hrest; [|done].
    simpl in Hpass. injection Hpass as <- <-.
    destruct (IH _ _ _ Hrest) as [Hrolled Hrec].
    assert (wf_children (nodes repo_node)) as Hwf.
    { eapply Forall_impl; [|exact Hleaves]. intros item.
      apply leaf_node_wf_metrics. }
    pose proof (aggregate_spec repo_node) as Hs. rewrite Hagg in Hs.
    destruct Hs as [Hnodes _].
    split; constructor; try done.
    + split; [|done]. split; [done|]. intros k.
      by apply aggregate_holds_stats.
    + by apply (aggregate_fresh repo_node).
Qed.

Lemma aggregate_orgs_rolled_up end_date orgs rows orgs' rows' :
  Forall (λ item, org_tree item.2) orgs →
  aggregate_orgs end_date orgs rows = Ok (orgs', rows') →
  Forall2 (λ org org',
             rolled_up org_values org org' ∧
             Forall2 (λ repo repo', rolled_up repo_values repo repo' ∧
                                    nodes repo'.2 = nodes repo.2)
                     (nodes org.2) (nodes org'.2)) orgs orgs' ∧
  Forall (λ item, aggregated_node item.2) orgs'.
Proof.
  intros Hall. revert rows orgs' rows'.
  induction Hall as [|[org org_node] orgs [Hfresh Hrepos] _ IH];
    intros rows orgs' rows' Hpass; simpl in Hpass.
  - injection Hpass as <- <-. by split.
  - cbn [snd] in Hfresh, Hrepos.
    destruct (aggregate_repos end_date (nodes org_node) rows)
      as [[repos' rows1]|e] eqn:Hpass1; [|done].
    simpl in Hpass.
    destruct (aggregate_repos_rolled_up _ _ _ _ _ Hrepos Hpass1)
      as [Hrolled1 Hrec1].
    destruct (aggregate (Node repos' (metrics org_node)))
      as [org_node'|e] eqn:Hagg; [|done].
    simpl in Hpass.
    destruct (summarize org end_date org_node' rows1) as [rows2|e];
      [|done].
    simpl in Hpass.
    destruct (aggregate_orgs end_date orgs rows2) as [[rest rows3]|e]
      eqn:Hrest; [|done].
    simpl in Hpass. injection Hpass as <- <-.
    destruct (IH _ _ _ Hrest) as [Hrolled Hrec].
    pose proof (aggregate_spec (Node repos' (metrics org_node))) as Hs.
    rewrite Hagg in Hs. destruct Hs as [Hnodes _]. simpl in Hnodes.
    assert (Forall2 (rolled_up repo_values) (nodes org_node) repos')
      as Hrolled1'.
    { eapply list.Forall2_impl; [exact Hrolled1|]. by intros ?? [? _]. }
    split; constructor; try done.
    + cbn [snd]. rewrite Hnodes. split; [|done]. split; [done|].
      intros k. cbn [snd].
      apply (holds_stats_perm k (contributions k repos')).
      { by apply (contributions_rolled_up repo_values). }
      apply (aggregate_holds_stats (Node repos' (metrics org_node)));
        [done| |done].
      eapply Forall_impl; [|exact Hrec1]. intros item.
      apply aggregated_node_wf_metrics.
    + by apply (aggregate_fresh (Node repos' (metrics org_node))).
Qed.

Lemma aggregate_tree_inv end_date global_node rows global_node' rows' :
  aggregate_tree end_date global_node rows = Ok (global_node', rows') →
  ∃ orgs' rows1,
    aggregate_orgs end_date (nodes global_node) rows = Ok (orgs', rows1) ∧
    aggregate (Node orgs' (metrics global_node)) = Ok global_node' ∧
    summarize "global" end_date global_node' rows1 = Ok rows'.
Proof.
  unfold aggregate_tree. intros Hpass.
  destruct (aggregate_orgs end_date (nodes global_node) rows)
    as [[orgs' rows1]|e]; [|done].
  simpl in Hpass.
  destruct (aggregate (Node orgs' (metrics global_node)))
    as [global_node1|e] eqn:Hagg; [|done].
  simpl in Hpass.
  destruct (summarize "global" end_date global_node1 rows1) as [rows2|e]
    eqn:Hrow; [|done].
  simpl in Hpass. injection Hpass as <- <-. eexists _, _.
  split; [reflexivity|]. split; [exact Hagg|exact Hrow].
Qed.

(** The global node after the pass, and the call of [summarize] that ends
    the pass. *)
Lemma aggregate_tree_global end_date global_node rows global_node' rows' k :
  global_tree global_node →
  aggregate_tree end_date global_node rows = Ok (global_node', rows') →
  holds_stats k (global_values k global_node) global_node' ∧
  ∃ rows1, summarize "global" end_date global_node' rows1 = Ok rows'.
Proof.
  intros [Hfresh Horgs] Hpass.
  apply aggregate_tree_inv in Hpass as (orgs' & rows1 & Hpass & Hagg & Hrow).
  split; [|by exists rows1].
  destruct (aggregate_orgs_rolled_up _ _ _ _ _ Horgs Hpass) as [Hrolled Hrec].
  apply (holds_stats_perm k (contributions k orgs')).
  { apply (contributions_rolled_up org_values).
    eapply list.Forall2_impl; [exact Hrolled|]. by intros ?? [? _]. }
  apply (aggregate_holds_stats (Node orgs' (metrics global_node)));
    [done| |done].
  eapply Forall_impl; [|exact Hrec]. intros item.
  apply aggregated_node_wf_metrics.
Qed.

(** X8. After the bottom-up pass the global node holds, under every metric
    name, the statistics of all the day counts that the issues of all
    repositories hold under that name, as if they had been gathered in one
    list: a record when there is at least one, no entry otherwise. *)
Theorem aggregate_tree_rolls_up end_date global_node rows global_node' rows' k :
  global_tree global_node →
  aggregate_tree end_date global_node rows = Ok (global_node', rows') →
  holds_stats k (global_values k global_node) global_node'.
Proof.
  intros Htree Hpass.
  destruct (aggregate_tree_global _ _ _ _ _ k Htree Hpass) as [Hstats _].
  exact Hstats.
Qed.

(** X9. After the pass the tree has the organisations and the repositories
    it had, under their names and in their order; every organisation holds
    the statistics of the day counts of the issues of its repositories,
    every repository those of its own issues, and the leaves of the issues
    are as they were. *)
Theorem aggregate_tree_levels end_date global_node rows global_node' rows' :
  global_tree global_node →
  aggregate_tree end_date global_node rows = Ok (global_node', rows') →
  Forall2 (λ org org',
             rolled_up org_values org org' ∧
             Forall2 (λ repo repo', rolled_up repo_values repo repo' ∧
                                    nodes repo'.2 = nodes repo.2)
                     (nodes org.2) (nodes org'.2))
          (nodes global_node) (nodes global_node').
Proof.
  intros [Hfresh Horgs] Hpass.
  apply aggregate_tree_inv in Hpass as (orgs' & rows1 & Hpass & Hagg & _).
  destruct (aggregate_orgs_rolled_up _ _ _ _ _ Horgs Hpass) as [Hrolled _].
  pose proof (aggregate_spec (Node orgs' (metrics global_node))) as Hs.
  rewrite Hagg in Hs. destruct Hs as [-> _]. done.
Qed.

End rollup.

(** A witness of X8: the bugs of [sample_global]. *)
Lemma aggregate_tree_rolls_up_witness :
  ∃ global_node' rows',
    aggregate_tree "2020-04-20" sample_global [] = Ok (global_node', rows') ∧
    holds_stats "time_to_close_bug"
      (global_values "time_to_close_bug" sample_global) global_node'.
Proof.
  destruct (aggregate_tree_Ok "2020-04-20" sample_global [])
    as (global_node' & rows' & Hpass); [by_evaluation|].
  exists global_node', rows'. split; [exact Hpass|].
  apply (aggregate_tree_rolls_up "2020-04-20" sample_global [] _ rows');
    [by_evaluation|exact Hpass].
Defined.

(** A witness of X9: [sample_global]. *)
Lemma aggregate_tree_levels_witness :
  ∃ global_node' rows',
    aggregate_tree "2020-04-20" sample_global [] = Ok (global_node', rows') ∧
    Forall2 (λ org org',
               rolled_up org_values org org' ∧
               Forall2 (λ repo repo', rolled_up repo_values repo repo' ∧
                                      nodes repo'.2 = nodes repo.2)
                       (nodes org.2) (nodes org'.2))
            (nodes sample_global) (nodes global_node').
Proof.
  destruct (aggregate_tree_Ok "2020-04-20" sample_global [])
    as (global_node' & rows' & Hpass); [by_evaluation|].
  exists global_node', rows'. split; [exact Hpass|].
  apply (aggregate_tree_levels "2020-04-20" sample_global [] _ rows');
    [by_evaluation|exact Hpass].
Defined.

(** ** The rows of [summarize] *)

Section summarize_rows.
Implicit Types (n : node) (rows : list (gmap string cell)) (k key : string).
Implicit Types (row : gmap string cell) (r : summary) (c : cell).

Lemma list_ascii_of_string_app (s1 s2 : string) :
  String.list_ascii_of_string (s1 +:+ s2) =
    String.list_ascii_of_string s1 ++ String.list_ascii_of_string s2.
Proof. induction s1 as [|a s1 IH]; simpl; [done|]. by rewrite IH. Qed.

Lemma list_ascii_of_string_inj (s1 s2 : string) :
  String.list_ascii_of_string s1 = String.list_ascii_of_string s2 → s1 = s2.
Proof.
  intros H. rewrite <-(String.string_of_list_ascii_of_string s1),
    <-(String.string_of_list_ascii_of_string s2). by rewrite H.
Qed.

(** Read from their ends, two strings that are equal are equal. *)
Lemma reversed_eq (k1 k2 s1 s2 : string) :
  k1 +:+ s1 = k2 +:+ s2 →
  reverse (String.list_ascii_of_string s1) ++ reverse (String.list_ascii_of_string k1) =
  reverse (String.list_ascii_of_string s2) ++ reverse (String.list_ascii_of_string k2).
Proof.
  intros H. apply (f_equal String.list_ascii_of_string) in H.
  rewrite !list_ascii_of_string_app in H.
  apply (f_equal reverse) in H. by rewrite !reverse_app in H.
Qed.

Lemma suffix_inj (k1 k2 s : string) : k1 +:+ s = k2 +:+ s → k1 = k2.
Proof.
  intros H. apply reversed_eq in H. apply app_inv_head in H.
  apply (inj reverse) in H. by apply list_ascii_of_string_inj.
Qed.

(** No column name is made twice. *)
Lemma column_inj (k1 k2 s1 s2 : string) :
  s1 ∈ stat_names → s2 ∈ stat_names →
  k1 +:+ s1 = k2 +:+ s2 → k1 = k2 ∧ s1 = s2.
Proof.
  unfold stat_names. intros H1 H2 H.
  repeat (apply elem_of_cons in H1 as [->|H1]);
    try (by apply elem_of_nil in H1);
    repeat (apply elem_of_cons in H2 as [->|H2]);
    try (by apply elem_of_nil in H2);
    try (split; [by apply suffix_inj in H|done]);
    apply reversed_eq in H; vm_compute in H; discriminate H.
Qed.

Lemma reserved_not_column (k s : string) key :
  s ∈ stat_names → key ∈ ["name"; "date"] → key ≠ k +:+ s.
Proof.
  unfold stat_names. intros H1 H2 H.
  assert (EmptyString +:+ key = k +:+ s) as H' by done. clear H.
  repeat (apply elem_of_cons in H1 as [->|H1]);
    try (by apply elem_of_nil in H1);
    repeat (apply elem_of_cons in H2 as [->|H2]);
    try (by apply elem_of_nil in H2);
    apply reversed_eq in H'; vm_compute in H'; discriminate H'.
Qed.

Lemma stat_cells_names r suffix c :
  (suffix, c) ∈ stat_cells r → suffix ∈ stat_names.
Proof.
  unfold stat_cells, stat_names. intros H.
  repeat (apply elem_of_cons in H as [[= -> ->]|H]);
    try (by apply elem_of_nil in H); repeat constructor.
Qed.

(** The five writes of line 151 for one metric. *)
Lemma lookup_stat_columns metric r row key c :
  <[metric +:+ "_median" := Num (r_median r)]>
    (<[metric +:+ "_mean" := Num (r_mean r)]>
    (<[metric +:+ "_max" := Num (r_max r)]>
    (<[metric +:+ "_min" := Num (r_min r)]>
    (<[metric +:+ "_count" := Int (r_count r)]> row)))) !! key = Some c ↔
  (∃ suffix, (suffix, c) ∈ stat_cells r ∧ key = metric +:+ suffix) ∨
  ((∀ suffix, suffix ∈ stat_names → key ≠ metric +:+ suffix) ∧
   row !! key = Some c).
Proof.
  assert (∀ s1 s2 : string, s1 ≠ s2 → metric +:+ s1 ≠ metric +:+ s2) as Hne.
  { intros s1 s2 Hs H. by apply (inj _) in H. }
  rewrite !lookup_insert_Some. unfold stat_cells, stat_names. split.
  - intros [[<- <-]|[H5 [[<- <-]|[H4 [[<- <-]|[H3 [[<- <-]|[H2
      [[<- <-]|[H1 H]]]]]]]]]].
    + left. eexists. split; [|done]. repeat constructor.
    + left. eexists. split; [|done]. repeat constructor.
    + left. eexists. split; [|done]. repeat constructor.
    + left. eexists. split; [|done]. repeat constructor.
    + left. eexists. split; [|done]. repeat constructor.
    + right. split; [|done]. intros suffix Hs ->.
      repeat (apply elem_of_cons in Hs as [->|Hs]); try done.
      by apply elem_of_nil in Hs.
  - intros [(suffix & Hs & ->)|[Hnone H]].
    + repeat (apply elem_of_cons in Hs as [[= -> ->]|Hs]).
      * do 4 (right; split; [by apply Hne|]). by left.
      * do 3 (right; split; [by apply Hne|]). by left.
      * do 2 (right; split; [by apply Hne|]). by left.
      * do 1 (right; split; [by apply Hne|]). by left.
      * by left.
      * by apply elem_of_nil in Hs.
    + do 5 (right; split; [intros <-; eapply Hnone; [|done]; repeat constructor|]).
      done.
Qed.

Lemma summarize_spec name date n rows :
  ∃ res, summarize name date n rows =
           res ≫= (λ repo_metrics, Ok (rows ++ [repo_metrics])) ∧
         summarize_post name date (metrics n) res.
Proof.
  unfold summarize. eexists. split; [reflexivity|].
  apply (map_fold_weak_ind (λ res m, summarize_post name date m res));
    unfold summarize_post.
  - split; [apply map_Forall_empty|]. split.
    { rewrite map_size_insert_None, map_size_singleton; done. }
    intros key c. rewrite lookup_insert_Some, lookup_singleton_Some.
    split.
    + intros [[<- <-]|[_ [<- <-]]]; auto.
    + intros [[-> ->]|[[-> ->]|(k & r & suffix & Hk & _)]].
      * by right.
      * by left.
      * by rewrite lookup_empty in Hk.
  - intros i value m res Hi IH. destruct res as [row|e]; simpl.
    + destruct IH as (Hall & Hsize & Hrow). destruct value as [x|r]; simpl.
      { split; [done|]. exists i, x. by rewrite lookup_insert_eq. }
      assert (∀ suffix, suffix ∈ stat_names → row !! (i +:+ suffix) = None)
        as Hnew.
      { intros suffix Hs. destruct (row !! (i +:+ suffix)) as [c|] eqn:Hc;
          [|done].
        apply Hrow in Hc as [[Hc _]|[[Hc _]|(k & r' & s' & Hk & Hs' & Hc)]].
        - destruct (reserved_not_column i suffix "name"); [done|repeat constructor|done].
        - destruct (reserved_not_column i suffix "date"); [done|repeat constructor|done].
        - apply column_inj in Hc as [-> _];
            [congruence|done|by eapply stat_cells_names]. }
      assert (∀ s1 s2 : string, s1 ≠ s2 → i +:+ s1 ≠ i +:+ s2) as Hne.
      { intros s1 s2 Hs H. by apply (inj _) in H. }
      split; [|split].
      * apply map_Forall_insert_2; [eauto|done].
      * rewrite !map_size_insert_None; [lia|..];
          try done; rewrite ?lookup_insert_None; repeat split;
          try (by apply Hne); apply Hnew; unfold stat_names;
          repeat constructor.
      * intros key c. rewrite lookup_stat_columns. split.
        -- intros [(suffix & Hs & ->)|[Hnone Hc]].
           ++ right. right. exists i, r, suffix.
              by rewrite lookup_insert_eq.
           ++ apply Hrow in Hc as [?|[?|(k & r' & s' & Hk & Hs' & ->)]];
                [by left|by right; left|].
              right. right. exists k, r', s'. split; [|done].
              rewrite lookup_insert_ne; [done|]. congruence.
        -- intros [[-> ->]|[[-> ->]|(k & r' & s' & Hk & Hs' & ->)]].
           ++ right. split; [|apply Hrow; by left].
              intros suffix Hs. apply reserved_not_column; [done|repeat constructor].
           ++ right. split; [|apply Hrow; right; by left].
              intros suffix Hs. apply reserved_not_column; [done|repeat constructor].
           ++ destruct (decide (i = k)) as [->|Hik].
              ** rewrite lookup_insert_eq in Hk. injection Hk as ->.
                 left. eauto.
              ** rewrite lookup_insert_ne in Hk by done. right. split.
                 --- intros suffix Hs Heq.
                     apply column_inj in Heq as [-> _];
                       [done|by eapply stat_cells_names|done].
                 --- apply Hrow. right. right. exists k, r', s'. done.
    + destruct IH as (-> & k & x & Hk). split; [done|]. exists k, x.
      rewrite lookup_insert_ne; [done|]. congruence.
Qed.

(** X10. The row that [summarize] appends holds the name and the date it
    was given and, for every metric of the node, the [count], [min], [max],
    [mean] and [median] of its record under the metric name followed by
    [_count], [_min], [_max], [_mean], [_median]; it holds nothing else, and
    the rows before it are kept. *)
Theorem summarize_row name date n rows rows' :
  summarize name date n rows = Ok rows' →
  ∃ row,
    rows' = rows ++ [row] ∧
    ∀ key c, row !! key = Some c ↔
      (key = "name" ∧ c = Str name) ∨ (key = "date" ∧ c = Str date) ∨
      ∃ k r suffix, metrics n !! k = Some (Aggregated r) ∧
                    (suffix, c) ∈ stat_cells r ∧ key = k +:+ suffix.
Proof.
  destruct (summarize_spec name date n rows) as (res & -> & Hloop).
  destruct res as [row|e]; [|done]. simpl. intros [= <-].
  exists row. split; [done|]. apply Hloop.
Qed.


(** X12. The row has two cells and five more for each metric of the node:
    no two metrics share a column, and no metric takes the columns [name]
    and [date]. The sorted values of a record get no column. *)
Theorem summarize_row_size name date n rows rows' :
  summarize name date n rows = Ok rows' →
  ∃ row,
    list.last rows' = Some row ∧
    size row = (2 + 5 * size (metrics n))%nat ∧
    ∀ k, row !! (k +:+ "_values") = None.
Proof.
  destruct (summarize_spec name date n rows) as (res & -> & Hloop).
  destruct res as [row|e]; [|done]. simpl. intros [= <-].
  exists row. split; [apply last_snoc|]. destruct Hloop as (_ & Hsize & Hrow).
  split; [done|]. intros k.
  destruct (row !! (k +:+ "_values")) as [c|] eqn:Hc; [|done].
  apply Hrow in Hc as [[Hc _]|[[Hc _]|(k' & r & s & _ & Hs & Hc)]].
  - assert (k +:+ "_values" = EmptyString +:+ "name") as H by done.
    apply reversed_eq in H. vm_compute in H. discriminate H.
  - assert (k +:+ "_values" = EmptyString +:+ "date") as H by done.
    apply reversed_eq in H. vm_compute in H. discriminate H.
  - apply stat_cells_names in Hs. unfold stat_names in Hs.
    repeat (apply elem_of_cons in Hs as [->|Hs]);
      try (by apply elem_of_nil in Hs);
      apply reversed_eq in Hc; vm_compute in Hc; discriminate Hc.
Qed.

End summarize_rows.

(** A witness of X10: the row of [sample_summarised]. *)
Lemma summarize_row_witness :
  ∃ rows' row,
    summarize "A" "2020-04-20" sample_summarised [] = Ok rows' ∧
    rows' = [] ++ [row] ∧
    ∀ key c, row !! key = Some c ↔
      (key = "name" ∧ c = Str "A") ∨ (key = "date" ∧ c = Str "2020-04-20") ∨
      ∃ k r suffix, metrics sample_summarised !! k = Some (Aggregated r) ∧
                    (suffix, c) ∈ stat_cells r ∧ key = k +:+ suffix.
Proof.
  destruct (summarize_spec "A" "2020-04-20" sample_summarised [])
    as (res & Hres & Hpost).
  destruct res as [row|e].
  - destruct (summarize_row "A" "2020-04-20" sample_summarised [] _ Hres)
      as (row' & Heq & Hrow').
    exists ([] ++ [row]), row'. split; [exact Hres|].
    split; [exact Heq|exact Hrow'].
  - exfalso. destruct Hpost as (_ & k & x & Hk).
    unfold sample_summarised in Hk. cbn [metrics] in Hk.
    apply lookup_singleton_Some in Hk as [_ Hk]. discriminate Hk.
Defined.

(** A witness of X12: the row of [sample_summarised] has seven cells. *)
Lemma summarize_row_size_witness :
  ∃ rows' row,
    summarize "A" "2020-04-20" sample_summarised [] = Ok rows' ∧
    list.last rows' = Some row ∧
    size row = (2 + 5 * size (metrics sample_summarised))%nat ∧
    ∀ k, row !! (k +:+ "_values") = None.
Proof.
  destruct (summarize_spec "A" "2020-04-20" sample_summarised [])
    as (res & Hres & Hpost).
  destruct res as [row|e].
  - destruct (summarize_row_size "A" "2020-04-20" sample_summarised [] _ Hres)
      as (row' & Hlast & Hrow').
    exists ([] ++ [row]), row'. split; [exact Hres|].
    split; [exact Hlast|exact Hrow'].
  - exfalso. destruct Hpost as (_ & k & x & Hk).
    unfold sample_summarised in Hk. cbn [metrics] in Hk.
    apply lookup_singleton_Some in Hk as [_ Hk]. discriminate Hk.
Defined.

(** ** What a run lets out *)

Section report.
Context (ADMINS : list string).
Context (ALL_REPOS : list (string * list string)).
Context (get_repo_issues : string → string → list Issue.t).
Context (get_date_time : string → Z).
Implicit Types (n : node) (rows new : list (gmap string cell)).
Implicit Types (repos orgs : list (string * node)).

Lemma summarize_name_date name date n rows rows' :
  summarize name date n rows = Ok rows' →
  ∃ row, rows' = rows ++ [row] ∧
         row_name row = Some (Str name) ∧ row_date row = Some (Str date).
Proof.
  destruct (summarize_spec name date n rows) as (res & -> & Hpost).
  destruct res as [row|e]; [|done]. simpl. intros [= <-].
  exists row. split; [done|]. destruct Hpost as (_ & _ & Hrow).
  split; apply Hrow; [by left|right; by left].
Qed.

Lemma aggregate_repos_rows end_date repos rows repos' rows' :
  aggregate_repos end_date repos rows = Ok (repos', rows') →
  ∃ new, rows' = rows ++ new ∧
         row_name <$> new = Some ∘ Str <$> repos'.*1 ∧
         Forall (λ row, row_date row = Some (Str end_date)) new.
Proof.
  revert rows repos' rows'.
  induction repos as [|[repo repo_node] repos IH];
    intros rows repos' rows' Hpass; simpl in Hpass.
  - injection Hpass as <- <-. exists []. by rewrite app_nil_r.
  - destruct (aggregate repo_node) as [repo_node'|e]; [|done].
    simpl in Hpass.
    destruct (summarize repo end_date repo_node' rows) as [rows1|e] eqn:Hrow;
      [|done].
    simpl in Hpass.
    destruct (aggregate_repos end_date repos rows1) as [[rest rows2]|e]
      eqn:Hrest; [|done].
    simpl in Hpass. injection Hpass as <- <-.
    apply summarize_name_date in Hrow as (row & -> & Hname & Hdate).
    destruct (IH _ _ _ Hrest) as (new & -> & Hnames & Hdates).
    exists (row :: new). split; [by rewrite <-(assoc_L (++))|].
    split; [|by constructor].
    rewrite !fmap_cons. by f_equal.
Qed.

Lemma aggregate_orgs_rows end_date orgs rows orgs' rows' :
  aggregate_orgs end_date orgs rows = Ok (orgs', rows') →
  ∃ new, rows' = rows ++ new ∧
         row_name <$> new =
           Some ∘ Str <$> (orgs' ≫= λ org, (nodes org.2).*1 ++ [org.1]) ∧
         Forall (λ row, row_date row = Some (Str end_date)) new.
Proof.
  revert rows orgs' rows'.
  induction orgs as [|[org org_node] orgs IH];
    intros rows orgs' rows' Hpass; simpl in Hpass.
  - injection Hpass as <- <-. exists []. by rewrite app_nil_r.
  - destruct (aggregate_repos end_date (nodes org_node) rows)
      as [[repos' rows1]|e] eqn:Hpass1; [|done].
    simpl in Hpass.
    destruct (aggregate (Node repos' (metrics org_node)))
      as [org_node'|e] eqn:Hagg; [|done].
    simpl in Hpass.
    destruct (summarize org end_date org_node' rows1) as [rows2|e] eqn:Hrow;
      [|done].
    simpl in Hpass.
    destruct (aggregate_orgs end_date orgs rows2) as [[rest rows3]|e]
      eqn:Hrest; [|done].
    simpl in Hpass. injection Hpass as <- <-.
    apply aggregate_repos_rows in Hpass1 as (new1 & -> & Hnames1 & Hdates1).
    apply summarize_name_date in Hrow as (row & -> & Hname & Hdate).
    destruct (IH _ _ _ Hrest) as (new & -> & Hnames & Hdates).
    pose proof (aggregate_spec (Node repos' (metrics org_node))) as Hs.
    rewrite Hagg in Hs. destruct Hs as [Hnodes _]. simpl in Hnodes.
    exists (new1 ++ row :: new). split; [by rewrite <-!(assoc_L (++))|].
    split.
    + rewrite bind_cons. cbn [fst snd]. rewrite Hnodes.
      rewrite !fmap_app, !fmap_cons, Hnames1, Hnames, Hname.
      by rewrite <-!(assoc_L (++)).
    + apply Forall_app. split; [done|]. by constructor.
Qed.

Lemma aggregate_tree_rows end_date global_node rows global_node' rows' :
  aggregate_tree end_date global_node rows = Ok (global_node', rows') →
  ∃ new, rows' = rows ++ new ∧
         row_name <$> new = Some ∘ Str <$> report_names global_node' ∧
         Forall (λ row, row_date row = Some (Str end_date)) new.
Proof.
  intros Hpass.
  apply aggregate_tree_inv in Hpass as (orgs' & rows1 & Hpass & Hagg & Hrow).
  apply aggregate_orgs_rows in Hpass as (new & -> & Hnames & Hdates).
  apply summarize_name_date in Hrow as (row & -> & Hname & Hdate).
  pose proof (aggregate_spec (Node orgs' (metrics global_node))) as Hs.
  rewrite Hagg in Hs. destruct Hs as [Hnodes _]. simpl in Hnodes.
  exists (new ++ [row]). split; [by rewrite <-(assoc_L (++))|]. split.
  - unfold report_names. rewrite Hnodes, !fmap_app, Hnames. simpl.
    by rewrite Hname.
  - apply Forall_app. split; [done|]. by constructor.
Qed.

(** X13. When no issue lacks a category, a run on a collector whose tree
    holds nothing above the leaves (a new one for instance) returns
    without raising; it lets out the aggregated tree once and the rows
    once, in this order, and nothing else. The rows are those the
    collector held and then one for each repository of each organisation,
    followed by one for the organisation, and a last one named [global];
    each new row carries the end date of the run. *)
Theorem run_reports self start_date end_date :
  global_tree (self_metrics self) →
  untagged_issues self = [] →
  offenders ADMINS ALL_REPOS get_repo_issues
    (get_date_time start_date) (get_date_time end_date) = [] →
  ∃ global_node new,
    run ADMINS ALL_REPOS get_repo_issues get_date_time
      self start_date end_date =
      Ok (Collector global_node [] (all_metrics self ++ new),
          [PrintJson global_node;
           OutputGoogleSheet (all_metrics self ++ new)]) ∧
    row_name <$> new = Some ∘ Str <$> report_names global_node ∧
    Forall (λ row, row_date row = Some (Str end_date)) new.
Proof.
  intros Htree Hnone Hclean. unfold run.
  pose proof (process_all_untagged ADMINS ALL_REPOS get_repo_issues
                get_date_time start_date end_date
                (self_metrics self, untagged_issues self)) as Hu.
  pose proof (process_all_global_tree ADMINS ALL_REPOS get_repo_issues
                get_date_time start_date end_date
                (self_metrics self, untagged_issues self) Htree) as Hshape.
  destruct (process_all _ _ _ _ _ _ _) as [global_node untagged].
  simpl in Hu, Hshape. rewrite Hnone, Hclean in Hu. subst untagged.
  destruct (aggregate_tree_Ok end_date global_node (all_metrics self) Hshape)
    as (global_node' & rows' & Hpass).
  rewrite Hpass. simpl.
  apply aggregate_tree_rows in Hpass as (new & -> & Hnames & Hdates).
  by exists global_node', new.
Qed.

End report.

(** A witness of X13: the scenario of the design document. *)
Lemma run_reports_witness :
  ∃ global_node new,
    run ["bob"] [("org", ["A"; "B"])] scenario_issues sample_dates
      init "2020-01-01" "2020-04-20" =
      Ok (Collector global_node [] (all_metrics init ++ new),
          [PrintJson global_node;
           OutputGoogleSheet (all_metrics init ++ new)]) ∧
    row_name <$> new = Some ∘ Str <$> report_names global_node ∧
    Forall (λ row, row_date row = Some (Str "2020-04-20")) new.
Proof.
  apply (run_reports ["bob"] [("org", ["A"; "B"])] scenario_issues
           sample_dates init "2020-01-01" "2020-04-20").
  - by_evaluation.
  - reflexivity.
  - vm_compute. reflexivity.
Defined.

(** ** The row of the whole tree *)

Section global_row.
Context (ADMINS : list string).
Context (ALL_REPOS : list (string * list string)).
Context (get_repo_issues : string → string → list Issue.t).
Context (get_date_time : string → Z).
Implicit Types (n : node) (rows : list (gmap string cell)) (k : string).

(** The cells of a metric in the row that [summarize] appends. *)
Lemma summarize_cells name date n rows rows' k r :
  summarize name date n rows = Ok rows' →
  metrics n !! k = Some (Aggregated r) →
  ∃ row, list.last rows' = Some row ∧
         row_name row = Some (Str name) ∧
         ∀ suffix c, (suffix, c) ∈ stat_cells r →
                     row !! (k +:+ suffix) = Some c.
Proof.
  destruct (summarize_spec name date n rows) as (res & -> & Hpost).
  destruct res as [row|e]; [|done]. simpl. intros [= <-] Hk.
  destruct Hpost as (_ & _ & Hrow).
  exists row. split; [apply last_snoc|]. split; [apply Hrow; by left|].
  intros suffix c Hc. apply Hrow. right. right. by exists k, r, suffix.
Qed.

(** X14. What a run of a new collector sends to the spreadsheet for the
    whole tree, when no issue lacks a category: the last row is named
    [global], and for every metric name that some issue leaf of the tree
    built by lines 33-39 holds, its cells under the name followed by
    [_count], [_min], [_max], [_mean] and [_median] are the statistics of
    all the day counts the leaves hold under that name. *)
Theorem run_global_row start_date end_date k :
  let tree :=
    (process_all ADMINS ALL_REPOS get_repo_issues get_date_time
       start_date end_date (base_type, [])).1 in
  offenders ADMINS ALL_REPOS get_repo_issues
    (get_date_time start_date) (get_date_time end_date) = [] →
  global_values k tree ≠ [] →
  ∃ self' events row r,
    run ADMINS ALL_REPOS get_repo_issues get_date_time
      init start_date end_date = Ok (self', events) ∧
    list.last (all_metrics self') = Some row ∧
    row_name row = Some (Str "global") ∧
    summarise_values (global_values k tree) = Ok r ∧
    ∀ suffix c, (suffix, c) ∈ stat_cells r → row !! (k +:+ suffix) = Some c.
Proof.
  intros tree Hclean Hvalues. subst tree. unfold run.
  change (base_type, @nil Issue.t)
    with (self_metrics init, untagged_issues init) in Hvalues |- *.
  pose proof (process_all_untagged ADMINS ALL_REPOS get_repo_issues
                get_date_time start_date end_date
                (self_metrics init, untagged_issues init)) as Hu.
  pose proof (process_all_global_tree ADMINS ALL_REPOS get_repo_issues
                get_date_time start_date end_date
                (self_metrics init, untagged_issues init)
                global_tree_base_type) as Hshape.
  destruct (process_all _ _ _ _ _ _ _) as [global_node untagged].
  simpl in Hu, Hshape, Hvalues. rewrite Hclean in Hu. subst untagged.
  destruct (aggregate_tree_Ok end_date global_node (all_metrics init) Hshape)
    as (global_node' & rows' & Hpass).
  rewrite Hpass. simpl.
  destruct (aggregate_tree_global _ _ _ _ _ k Hshape Hpass)
    as [[_ Hstats] [rows1 Hrow]].
  destruct (Hstats Hvalues) as (r & Hr & Hk).
  destruct (summarize_cells _ _ _ _ _ k r Hrow Hk)
    as (row & Hlast & Hname & Hcells).
  by exists (Collector global_node' [] rows'),
    [PrintJson global_node'; OutputGoogleSheet rows'], row, r.
Qed.

End global_row.

(** A witness of X14: the bugs of the scenario of the design document. *)
Lemma run_global_row_witness :
  ∃ self' events row r,
    run ["bob"] [("org", ["A"; "B"])] scenario_issues sample_dates
      init "2020-01-01" "2020-04-20" = Ok (self', events) ∧
    list.last (all_metrics self') = Some row ∧
    row_name row = Some (Str "global") ∧
    summarise_values
      (global_values "time_to_close_bug"
         (process_all ["bob"] [("org", ["A"; "B"])] scenario_issues
            sample_dates "2020-01-01" "2020-04-20" (base_type, [])).1) = Ok r ∧
    ∀ suffix c, (suffix, c) ∈ stat_cells r →
                row !! ("time_to_close_bug" +:+ suffix) = Some c.
Proof.
  apply (run_global_row ["bob"] [("org", ["A"; "B"])] scenario_issues
           sample_dates "2020-01-01" "2020-04-20" "time_to_close_bug").
  - vm_compute. reflexivity.
  - vm_compute. discriminate.
Defined.

(** ** The nodes of the tree *)

Section tree_nodes.
Context (ADMINS : list string).
Context (ALL_REPOS : list (string * list string)).
Context (get_repo_issues : string → string → list Issue.t).
Context (get_date_time : string → Z).
Implicit Types (st : node * list Issue.t) (n c : node) (k u : string).
Implicit Types (children : list (string * node)) (issue : Issue.t).

Lemma put_child_keys k c children :
  (put_child k c children).*1 =
    if decide (k ∈ children.*1) then children.*1 else children.*1 ++ [k].
Proof.
  induction children as [|[k' c'] children IH].
  - rewrite decide_False; [done|]. by intros ?%elem_of_nil.
  - cbn [put_child]. rewrite fmap_cons. cbn [fst].
    destruct (decide (k' = k)) as [->|Hk].
    + rewrite fmap_cons, decide_True; [done|left].
    + rewrite fmap_cons, IH. cbn [fst].
      destruct (decide (k ∈ children.*1)) as [Hin|Hin].
      * rewrite decide_True; [done|by right].
      * rewrite decide_False; [done|].
        intros [?|?]%elem_of_cons; congruence.
Qed.

Lemma get_child_None k children :
  k ∉ children.*1 → get_child k children = None.
Proof.
  induction children as [|[k' c'] children IH]; simpl; [done|].
  intros Hk. rewrite decide_False.
  - apply IH. intros ?. apply Hk. by right.
  - intros ->. apply Hk. left.
Qed.

Lemma put_child_new k c children :
  k ∉ children.*1 → put_child k c children = children ++ [(k, c)].
Proof.
  induction children as [|[k' c'] children IH]; simpl; [done|].
  intros Hk. rewrite decide_False.
  - rewrite IH; [done|]. intros ?. apply Hk. by right.
  - intros ->. apply Hk. left.
Qed.

Lemma process_org_repo_nodes start_date end_date org st repo :
  (nodes (process_org_repo ADMINS get_repo_issues get_date_time
            start_date end_date org st repo).1).*1 =
    if decide (repo ∈ (nodes st.1).*1) then (nodes st.1).*1
    else (nodes st.1).*1 ++ [repo].
Proof.
  unfold process_org_repo.
  destruct (process_repo _ _ _ _ _ _ _ _) as [repo_node untagged].
  simpl. apply put_child_keys.
Qed.

Lemma process_org_repos_nodes start_date end_date org repos st :
  NoDup ((nodes st.1).*1 ++ repos) →
  (nodes (foldl (process_org_repo ADMINS get_repo_issues get_date_time
                   start_date end_date org) st repos).1).*1 =
    (nodes st.1).*1 ++ repos.
Proof.
  revert st. induction repos as [|repo repos IH]; intros st Hnd; simpl.
  - by rewrite app_nil_r.
  - rewrite IH; rewrite process_org_repo_nodes.
    + rewrite decide_False; [by rewrite <-(assoc_L (++))|].
      apply list.NoDup_app in Hnd as (_ & Hnd & _). intros Hin.
      apply (Hnd repo Hin). left.
    + rewrite decide_False.
      * by rewrite <-(assoc_L (++)).
      * apply list.NoDup_app in Hnd as (_ & Hnd & _). intros Hin.
        apply (Hnd repo Hin). left.
Qed.

Lemma process_org_nodes start_date end_date st org :
  org.1 ∉ (nodes st.1).*1 → NoDup org.2 →
  ∃ org_node,
    nodes (process_org ADMINS get_repo_issues get_date_time
             start_date end_date st org).1 =
      nodes st.1 ++ [(org.1, org_node)] ∧
    (nodes org_node).*1 = org.2.
Proof.
  intros Hnew Hnd. unfold process_org.
  pose proof (process_org_repos_nodes start_date end_date org.1 org.2
                (getitem org.1 (nodes st.1), st.2)) as Hkeys.
  rewrite (getitem_None _ _ (get_child_None _ _ Hnew)) in Hkeys |- *.
  simpl in Hkeys. specialize (Hkeys Hnd).
  destruct (foldl _ _ _) as [org_node untagged]. simpl in *.
  exists org_node. split; [|done]. by apply put_child_new.
Qed.

Lemma process_all_nodes_from start_date end_date st :
  NoDup ((nodes st.1).*1 ++ ALL_REPOS.*1) →
  Forall (λ org, NoDup org.2) ALL_REPOS →
  ∃ orgs,
    nodes (process_all ADMINS ALL_REPOS get_repo_issues get_date_time
             start_date end_date st).1 = nodes st.1 ++ orgs ∧
    Forall2 (λ item org, item.1 = org.1 ∧ (nodes item.2).*1 = org.2)
      orgs ALL_REPOS.
Proof.
  unfold process_all. revert st.
  induction ALL_REPOS as [|org orgs IH]; intros st Hnd Hrepos; simpl.
  - exists []. by rewrite app_nil_r.
  - apply Forall_cons_1 in Hrepos as [Hrepo Hrepos].
    destruct (process_org_nodes start_date end_date st org)
      as (org_node & Hnodes & Hkeys); [|done|].
    { apply list.NoDup_app in Hnd as (_ & Hnd & _). intros Hin.
      apply (Hnd _ Hin). left. }
    destruct (IH (process_org ADMINS get_repo_issues get_date_time
                    start_date end_date st org)) as (rest & Hrest & Hall).
    { rewrite Hnodes, fmap_app. simpl. by rewrite <-(assoc_L (++)). }
    { done. }
    exists ((org.1, org_node) :: rest). split.
    + rewrite Hrest, Hnodes. by rewrite <-(assoc_L (++)).
    + by constructor.
Qed.

(** X15. Started on an empty tree, the walk of lines 33-39 leaves one node
    for each organisation of [ALL_REPOS], in its order, and under it one
    node for each of its repositories, in their order, whether or not the
    data source has any issue for them. *)
Theorem process_all_nodes start_date end_date st :
  nodes st.1 = [] →
  NoDup ALL_REPOS.*1 →
  Forall (λ org, NoDup org.2) ALL_REPOS →
  Forall2 (λ item org, item.1 = org.1 ∧ (nodes item.2).*1 = org.2)
    (nodes (process_all ADMINS ALL_REPOS get_repo_issues get_date_time
              start_date end_date st).1)
    ALL_REPOS.
Proof.
  intros Hempty Hnd Hrepos.
  destruct (process_all_nodes_from start_date end_date st)
    as (orgs & -> & Hall); [by rewrite Hempty|done|].
  by rewrite Hempty.
Qed.

(** The leaf under a url after the loop body. *)
Lemma process_issue_leaves (start_date end_date : Z) st issue u :
  is_Some (get_child u
             (nodes (process_issue ADMINS start_date end_date st issue).1)) ↔
    is_Some (get_child u (nodes st.1)) ∨
    (Issue.url issue = u ∧ ¬ gated ADMINS end_date issue ∧
     ((start_date ≤ Issue.created_at issue)%Z ∨ Issue.closed issue = false)).
Proof.
  rewrite process_issue_fst. unfold gated.
  destruct (decide (Issue.author issue ∈ ADMINS)) as [Ha|Ha].
  { split; [by left|]. intros [?|(_ & Hg & _)]; [done|].
    destruct Hg. by left. }
  destruct (decide (end_date < Issue.created_at issue)%Z) as [He|He].
  { split; [by left|]. intros [?|(_ & Hg & _)]; [done|].
    destruct Hg. by right. }
  cbn zeta.
  destruct (decide (start_date ≤ Issue.created_at issue)%Z) as [Hs|Hs],
    (Issue.closed issue) eqn:Hc;
    rewrite ?get_child_set_child_metric, ?get_child_set_child_metrics;
    try (destruct (decide (Issue.url issue = u)) as [Hu|Hu];
         [split; [intros _; right; split; [done|]; split;
                    [by intros [?|?]|auto]
                 |by eauto]
         |split; [by left|by intros [?|[? _]]]]).
  split; [by left|]. intros [?|(_ & _ & [?|?])]; done.
Qed.

Lemma foldl_process_issue_leaves (start_date end_date : Z) issues st u :
  is_Some (get_child u
    (nodes (foldl (process_issue ADMINS start_date end_date) st issues).1)) ↔
    is_Some (get_child u (nodes st.1)) ∨
    ∃ issue, issue ∈ issues ∧ Issue.url issue = u ∧
             ¬ gated ADMINS end_date issue ∧
             ((start_date ≤ Issue.created_at issue)%Z ∨
              Issue.closed issue = false).
Proof.
  revert st. induction issues as [|issue issues IH]; intros st; simpl.
  - split; [by left|]. intros [?|(issue & Hin & _)]; [done|].
    by apply elem_of_nil in Hin.
  - rewrite IH, process_issue_leaves. split.
    + intros [[?|?]|(j & Hin & ?)]; [by left| |].
      * right. exists issue. split; [left|done].
      * right. exists j. split; [by right|done].
    + intros [?|(j & Hin & Hj)]; [by left; left|].
      apply elem_of_cons in Hin as [->|Hin]; [left; by right|].
      right. by exists j.
Qed.

(** X16. In the node of a repository that had no child, [process_repo]
    leaves a leaf under a url exactly when the data source delivers an
    issue with this url that passes the two gates and is either created at
    or after the start date or still open: admins' issues, issues created
    after the end date, and closed issues older than the start date leave
    no leaf. *)
Theorem process_repo_leaves st org repo start_date end_date u :
  nodes st.1 = [] →
  is_Some (get_child u
    (nodes (process_repo ADMINS get_repo_issues get_date_time
              st org repo start_date end_date).1)) ↔
  ∃ issue, issue ∈ get_repo_issues org repo ∧ Issue.url issue = u ∧
           ¬ gated ADMINS (get_date_time end_date) issue ∧
           ((get_date_time start_date ≤ Issue.created_at issue)%Z ∨
            Issue.closed issue = false).
Proof.
  intros Hempty. unfold process_repo. rewrite foldl_process_issue_leaves.
  rewrite Hempty. simpl. split; [|by right].
  intros [[? ?]|?]; done.
Qed.

End tree_nodes.

(** A witness of X15: the organisation of the scenario. *)
Lemma process_all_nodes_witness :
  Forall2 (λ item org, item.1 = org.1 ∧ (nodes item.2).*1 = org.2)
    (nodes (process_all ["bob"] [("org", ["A"; "B"])] scenario_issues
              sample_dates "2020-01-01" "2020-04-20" (base_type, [])).1)
    [("org", ["A"; "B"])].
Proof.
  apply (process_all_nodes ["bob"] [("org", ["A"; "B"])] scenario_issues
           sample_dates "2020-01-01" "2020-04-20" (base_type, [])).
  - reflexivity.
  - by_evaluation.
  - by_evaluation.
Defined.

(** A witness of X16: the first bug of repository A. *)
Lemma process_repo_leaves_witness :
  is_Some (get_child "A/1"
    (nodes (process_repo ["bob"] scenario_issues sample_dates
              (base_type, []) "org" "A" "2020-01-01" "2020-04-20").1)) ↔
  ∃ issue, issue ∈ scenario_issues "org" "A" ∧ Issue.url issue = "A/1" ∧
           ¬ gated ["bob"] (sample_dates "2020-04-20") issue ∧
           ((sample_dates "2020-01-01" ≤ Issue.created_at issue)%Z ∨
            Issue.closed issue = false).
Proof.
  apply (process_repo_leaves ["bob"] scenario_issues sample_dates
           (base_type, []) "org" "A" "2020-01-01" "2020-04-20" "A/1").
  reflexivity.
Defined.

(** ** The other duration metrics *)

Section durations.
#[local] Set Warnings "-clear-no-such-hyp".
Context (ADMINS : list string).
Context (get_repo_issues : string → string → list Issue.t).
Context (get_date_time : string → Z).
Implicit Types (st : node * list Issue.t) (issue : Issue.t) (k c : string).
Implicit Types (org repo start_date end_date : string).

(** Lines 99-105 on the metrics of the issue. *)
Lemma categorise_awaiting issue t :
  Issue.metrics issue !! "time_awaiting_resolution" = Some t →
  (categorise issue).1 !! "time_awaiting_resolution" = None ∧
  match truthy (Issue.category issue) with
  | Some c =>
      (categorise issue).1 !! ("time_awaiting_resolution_" +:+ c) = Some t ∧
      (categorise issue).2 = []
  | None => issue ∈ (categorise issue).2
  end.
Proof.
  intros Ht. unfold categorise.
  destruct (truthy (Issue.category issue)) as [c|];
    repeat (case_match || case_decide); simplify_eq; simpl;
    repeat match goal with
    | H : _ !! "time_awaiting_resolution" = _ |- _ =>
        progress (rewrite ?lookup_insert_ne, ?lookup_delete_ne in H
                    by key_neq);
        rewrite Ht in H; try discriminate H
    end;
    simplify_eq; split; lookup_keys; try done;
    rewrite ?elem_of_app, ?list_elem_of_singleton; auto; left.
Qed.

(** Line 108. *)
Lemma categorise_time_to_close_pr issue :
  Issue.first_admin_comment issue = None →
  (categorise issue).1 !! "time_to_close_pr" = None.
Proof.
  intros Ha. unfold categorise. rewrite Ha.
  repeat (case_match || case_decide); simplify_eq; simpl; lookup_keys; done.
Qed.

(** The names that lines 87-108 neither pop nor write. *)
Lemma categorise_other issue k :
  k ∉ ["time_to_close"; "time_awaiting_resolution"; "time_to_close_pr"] →
  (∀ c, truthy (Issue.category issue) = Some c →
        k ≠ "time_to_close_" +:+ c ∧
        k ≠ "time_awaiting_resolution_" +:+ c) →
  (categorise issue).1 !! k = Issue.metrics issue !! k.
Proof.
  intros Hk Hc. unfold categorise.
  assert (k ≠ "time_to_close") as H1 by (intros ->; apply Hk; repeat constructor).
  assert (k ≠ "time_awaiting_resolution") as H2
    by (intros ->; apply Hk; repeat constructor).
  assert (k ≠ "time_to_close_pr") as H3
    by (intros ->; apply Hk; repeat constructor).
  destruct (truthy (Issue.category issue)) as [c|].
  - destruct (Hc c eq_refl) as [H4 H5].
    repeat (case_match || case_decide); simplify_eq; simpl;
      repeat first [ rewrite lookup_delete_ne by congruence
                   | rewrite lookup_insert_ne by congruence ]; done.
  - repeat (case_match || case_decide); simplify_eq; simpl;
      repeat first [ rewrite lookup_delete_ne by congruence
                   | rewrite lookup_insert_ne by congruence ]; done.
Qed.

(** The metrics attached for an issue that passed the gates and was
    created at or after the start date. *)
Lemma attached_recent st org repo start_date end_date issue :
  issue ∈ get_repo_issues org repo →
  (∀ j, j ∈ get_repo_issues org repo →
        Issue.url j = Issue.url issue → j = issue) →
  get_child (Issue.url issue) (nodes st.1) = None →
  ¬ gated ADMINS (get_date_time end_date) issue →
  (get_date_time start_date ≤ Issue.created_at issue)%Z →
  ∃ m,
    attached (process_repo ADMINS get_repo_issues get_date_time
                st org repo start_date end_date).1 (Issue.url issue) = Some m ∧
    ∀ k, k ≠ "time_open" → m !! k = Scalar <$> (categorise issue).1 !! k.
Proof.
  intros Hin Huniq Hnone Hgate Hstart. unfold attached.
  rewrite process_repo_leaf, leaf_of_eq by done.
  rewrite decide_False, decide_True by done. cbn zeta.
  eexists. split; [done|]. simpl. intros k Hk.
  destruct (Issue.closed issue); rewrite ?lookup_insert_ne by done;
    by rewrite lookup_fmap.
Qed.

(** X17. For an issue that passed the two gates, was created at or after
    the start date and comes out of event processing with a
    [time_awaiting_resolution]: the bare name never reaches the tree; when
    the issue has a category the duration is attached under the name
    followed by the category, and the issue is not reported as untagged;
    when it has none, the issue is appended to [self.untagged_issues]. *)
Theorem time_awaiting_resolution_attached
    st org repo start_date end_date issue t :
  issue ∈ get_repo_issues org repo →
  (∀ j, j ∈ get_repo_issues org repo →
        Issue.url j = Issue.url issue → j = issue) →
  get_child (Issue.url issue) (nodes st.1) = None →
  ¬ gated ADMINS (get_date_time end_date) issue →
  (get_date_time start_date ≤ Issue.created_at issue)%Z →
  Issue.metrics issue !! "time_awaiting_resolution" = Some t →
  let st' := process_repo ADMINS get_repo_issues get_date_time
               st org repo start_date end_date in
  ∃ m,
    attached st'.1 (Issue.url issue) = Some m ∧
    m !! "time_awaiting_resolution" = None ∧
    match truthy (Issue.category issue) with
    | Some c =>
        m !! ("time_awaiting_resolution_" +:+ c) = Some (Scalar t) ∧
        untagged_of ADMINS (get_date_time start_date)
          (get_date_time end_date) issue = []
    | None => issue ∈ st'.2
    end.
Proof.
  intros Hin Huniq Hnone Hgate Hstart Ht st'.
  destruct (attached_recent st org repo start_date end_date issue)
    as (m & Hm & Hkeys); try done.
  exists m. split; [done|].
  destruct (categorise_awaiting issue t Ht) as [Hbare Hcat].
  split; [by rewrite Hkeys, Hbare by key_neq|].
  destruct (truthy (Issue.category issue)) as [c|].
  - destruct Hcat as [Hc Hnil]. split.
    + by rewrite Hkeys, Hc by key_neq.
    + unfold untagged_of. by rewrite decide_False, decide_True by done.
  - unfold st'. rewrite process_repo_untagged. apply elem_of_app. right.
    apply list_elem_of_bind. exists issue. split; [|done].
    unfold untagged_of. by rewrite decide_False, decide_True by done.
Qed.

(** X18. Without a comment of an admin the metrics attached for an issue
    never hold [time_to_close_pr], whatever event processing left under
    that name. *)
Theorem time_to_close_pr_needs_admin_comment
    st org repo start_date end_date issue m :
  issue ∈ get_repo_issues org repo →
  (∀ j, j ∈ get_repo_issues org repo →
        Issue.url j = Issue.url issue → j = issue) →
  get_child (Issue.url issue) (nodes st.1) = None →
  Issue.first_admin_comment issue = None →
  attached (process_repo ADMINS get_repo_issues get_date_time
              st org repo start_date end_date).1 (Issue.url issue) = Some m →
  m !! "time_to_close_pr" = None.
Proof.
  intros Hin Huniq Hnone Ha. unfold attached.
  rewrite process_repo_leaf, leaf_of_eq by done.
  case_decide; [done|]. cbn zeta.
  case_decide; destruct (Issue.closed issue); simpl; intros [= <-];
    rewrite ?lookup_insert_ne, ?lookup_singleton_ne by key_neq;
    rewrite ?lookup_fmap, ?categorise_time_to_close_pr by done; done.
Qed.

(** X19. Every other metric of an issue that passed the gates and was
    created at or after the start date is attached as event processing
    left it, under its own name: [process_repo] renames the two durations,
    drops [time_to_close_pr] and writes [time_open], and touches no other
    name. *)
Theorem other_metrics_pass_through st org repo start_date end_date issue k :
  issue ∈ get_repo_issues org repo →
  (∀ j, j ∈ get_repo_issues org repo →
        Issue.url j = Issue.url issue → j = issue) →
  get_child (Issue.url issue) (nodes st.1) = None →
  ¬ gated ADMINS (get_date_time end_date) issue →
  (get_date_time start_date ≤ Issue.created_at issue)%Z →
  k ∉ ["time_to_close"; "time_awaiting_resolution"; "time_to_close_pr";
       "time_open"] →
  (∀ c, truthy (Issue.category issue) = Some c →
        k ≠ "time_to_close_" +:+ c ∧
        k ≠ "time_awaiting_resolution_" +:+ c) →
  ∃ m,
    attached (process_repo ADMINS get_repo_issues get_date_time
                st org repo start_date end_date).1 (Issue.url issue) = Some m ∧
    m !! k = Scalar <$> Issue.metrics issue !! k.
Proof.
  intros Hin Huniq Hnone Hgate Hstart Hk Hc.
  destruct (attached_recent st org repo start_date end_date issue)
    as (m & Hm & Hkeys); try done.
  exists m. split; [done|]. rewrite Hkeys.
  - rewrite categorise_other; [done| |done].
    intros Hin'. apply Hk.
    repeat (apply elem_of_cons in Hin' as [->|Hin']);
      try (by apply elem_of_nil in Hin'); repeat constructor.
  - intros ->. apply Hk. repeat constructor.
Qed.

(** X20. An issue without a category that holds both a [time_to_close]
    that counts (status neither duplicate nor invalid, an admin has
    commented) and a [time_awaiting_resolution] is appended to
    [self.untagged_issues] twice by one pass of the loop body. *)
Theorem untagged_issue_listed_twice (start_date end_date : Z) st issue t a t' :
  ¬ gated ADMINS end_date issue →
  (start_date ≤ Issue.created_at issue)%Z →
  truthy (Issue.category issue) = None →
  Issue.metrics issue !! "time_to_close" = Some t →
  Issue.status issue ∉ ["duplicate"; "invalid"] →
  Issue.first_admin_comment issue = Some a →
  Issue.metrics issue !! "time_awaiting_resolution" = Some t' →
  (process_issue ADMINS start_date end_date st issue).2 =
    st.2 ++ [issue; issue].
Proof.
  intros Hgate Hstart Hcat Ht Hstatus Ha Ht'.
  rewrite process_issue_snd, decide_False, decide_True by done. f_equal.
  unfold categorise. rewrite Hcat, Ht, Ha, decide_True by done.
  rewrite lookup_delete_ne, Ht' by key_neq. done.
Qed.

End durations.

(** A witness of X17: [sample_open] alone in its repository. *)
Lemma time_awaiting_resolution_attached_witness :
  ∃ m,
    attached (process_repo ["bob"] (λ _ _, [sample_open]) sample_dates
                (base_type, []) "org" "repo" "2020-01-01" "2020-04-20").1
      (Issue.url sample_open) = Some m ∧
    m !! "time_awaiting_resolution" = None ∧
    match truthy (Issue.category sample_open) with
    | Some c =>
        m !! ("time_awaiting_resolution_" +:+ c) = Some (Scalar (days 2 1)) ∧
        untagged_of ["bob"] (sample_dates "2020-01-01")
          (sample_dates "2020-04-20") sample_open = []
    | None =>
        sample_open ∈
          (process_repo ["bob"] (λ _ _, [sample_open]) sample_dates
             (base_type, []) "org" "repo" "2020-01-01" "2020-04-20").2
    end.
Proof.
  apply (time_awaiting_resolution_attached ["bob"] (λ _ _, [sample_open])
           sample_dates (base_type, []) "org" "repo" "2020-01-01" "2020-04-20"
           sample_open (days 2 1)).
  - apply list_elem_of_singleton. reflexivity.
  - only_issue.
  - reflexivity.
  - by_evaluation.
  - by_evaluation.
  - reflexivity.
Defined.

(** A witness of X18: [sample_pr] alone in its repository. *)
Lemma time_to_close_pr_needs_admin_comment_witness :
  ∃ m,
    attached (process_repo ["bob"] (λ _ _, [sample_pr]) sample_dates
                (base_type, []) "org" "repo" "2020-01-01" "2020-04-20").1
      (Issue.url sample_pr) = Some m ∧
    m !! "time_to_close_pr" = None.
Proof.
  destruct (attached_recent ["bob"] (λ _ _, [sample_pr]) sample_dates
              (base_type, []) "org" "repo" "2020-01-01" "2020-04-20"
              sample_pr) as (m & Hm & _).
  { apply list_elem_of_singleton. reflexivity. }
  { only_issue. }
  { reflexivity. }
  { by_evaluation. }
  { by_evaluation. }
  exists m. split; [exact Hm|].
  apply (time_to_close_pr_needs_admin_comment ["bob"] (λ _ _, [sample_pr])
           sample_dates (base_type, []) "org" "repo" "2020-01-01" "2020-04-20"
           sample_pr m).
  - apply list_elem_of_singleton. reflexivity.
  - only_issue.
  - reflexivity.
  - reflexivity.
  - exact Hm.
Defined.

(** A witness of X19: the time to the first contact of [sample_pr]. *)
Lemma other_metrics_pass_through_witness :
  ∃ m,
    attached (process_repo ["bob"] (λ _ _, [sample_pr]) sample_dates
                (base_type, []) "org" "repo" "2020-01-01" "2020-04-20").1
      (Issue.url sample_pr) = Some m ∧
    m !! "time_to_contact" =
      Scalar <$> Issue.metrics sample_pr !! "time_to_contact".
Proof.
  apply (other_metrics_pass_through ["bob"] (λ _ _, [sample_pr])
           sample_dates (base_type, []) "org" "repo" "2020-01-01" "2020-04-20"
           sample_pr "time_to_contact").
  - apply list_elem_of_singleton. reflexivity.
  - only_issue.
  - reflexivity.
  - by_evaluation.
  - by_evaluation.
  - by_evaluation.
  - intros c [= <-]. split; key_neq.
Defined.

(** A witness of X20: [sample_untagged_closed]. *)
Lemma untagged_issue_listed_twice_witness :
  (process_issue ["bob"] (sample_dates "2020-01-01")
     (sample_dates "2020-04-20") (base_type, []) sample_untagged_closed).2 =
    [] ++ [sample_untagged_closed; sample_untagged_closed].
Proof.
  apply (untagged_issue_listed_twice ["bob"] (sample_dates "2020-01-01")
           (sample_dates "2020-04-20") (base_type, []) sample_untagged_closed
           (days 3 1) 1000000%Z (days 2 1)).
  - by_evaluation.
  - by_evaluation.
  - reflexivity.
  - reflexivity.
  - by_evaluation.
  - reflexivity.
  - reflexivity.
Defined.

(** ** The header and the rows of [output_google_sheet] *)

Section sheet.
Implicit Types (header cols new : list string) (row : list (option cell)).
Implicit Types (metrics : list (string * cell)) (k col : string).
Implicit Types (all_metrics : list (list (string * cell))).

Lemma get_is_Some k metrics : is_Some (get k metrics) ↔ k ∈ metrics.*1.
Proof.
  induction metrics as [|[k' v] metrics IH]; simpl.
  - split; [by intros [? ?]|by intros ?%elem_of_nil].
  - case_decide as Hk.
    + subst. split; [intros _; left|eauto].
    + rewrite IH. split; [by right|].
      intros [?|?]%elem_of_cons; [congruence|done].
Qed.

Lemma get_app k metrics1 metrics2 :
  get k (metrics1 ++ metrics2) =
    match get k metrics1 with
    | Some v => Some v
    | None => get k metrics2
    end.
Proof.
  induction metrics1 as [|[k' v] metrics1 IH]; simpl; [done|].
  by case_decide.
Qed.

Lemma add_column_inv header seen item rest st :
  row_inv header (seen ++ item :: rest) seen st →
  row_inv header (seen ++ item :: rest) (seen ++ [item]) (add_column st item).
Proof.
  intros (new & Hheader & Hnd & Hnew & Hseen & Hrow). unfold add_column.
  destruct item as [k v]. cbn [fst snd].
  destruct (decide (k ∈ st.1)) as [Hk|Hk].
  - exists new. split; [done|]. split; [done|]. split.
    + intros col Hcol. destruct (Hnew col Hcol) as [? ?]. split; [done|].
      rewrite fmap_app. apply elem_of_app. by left.
    + split; [|done]. intros k'. rewrite fmap_app, elem_of_app.
      intros [?|Hk']; [by apply Hseen|].
      apply list_elem_of_singleton in Hk'. by subst.
  - exists (new ++ [k]). cbn [fst snd]. split.
    { by rewrite Hheader, <-(assoc_L (++)). }
    split.
    { apply list.NoDup_app. split; [done|]. split; [|apply NoDup_singleton].
      intros col Hcol ->%list_elem_of_singleton. apply Hk.
      rewrite Hheader. apply elem_of_app. by right. }
    split.
    { intros col [Hcol|Hcol]%elem_of_app.
      - destruct (Hnew col Hcol) as [? ?]. split; [done|].
        rewrite fmap_app. apply elem_of_app. by left.
      - apply list_elem_of_singleton in Hcol as ->. split.
        + intros Hin. apply Hk. rewrite Hheader. apply elem_of_app. by left.
        + rewrite fmap_app. apply elem_of_app. right. left. }
    split.
    { intros k'. rewrite fmap_app, !elem_of_app.
      intros [?|Hk']; [left; by apply Hseen|by right]. }
    rewrite fmap_app, Hrow. f_equal. simpl. f_equal.
    rewrite get_app. destruct (get k seen) as [v'|] eqn:Hget.
    + destruct Hk. apply Hseen. apply get_is_Some. by eexists.
    + simpl. by rewrite decide_True.
Qed.

Lemma foldl_add_column_inv header rest seen st :
  row_inv header (seen ++ rest) seen st →
  row_inv header (seen ++ rest) (seen ++ rest) (foldl add_column st rest).
Proof.
  revert seen st. induction rest as [|item rest IH]; intros seen st Hinv.
  - by rewrite app_nil_r in Hinv |- *.
  - simpl. rewrite (cons_middle item seen rest), (assoc_L (++)).
    apply IH. rewrite <-(assoc_L (++)). by apply add_column_inv.
Qed.

(** One row of [self.all_metrics]: the header gets, once each and behind
    the columns it had, the keys of the row it lacked; the row of cells
    holds what the row has under each column of the header as it is
    then. *)
Lemma sheet_row_spec header metrics :
  ∃ new,
    (sheet_row header metrics).1 = header ++ new ∧
    NoDup new ∧
    (∀ col, col ∈ new → (col ∉ header) ∧ col ∈ metrics.*1) ∧
    (∀ k, k ∈ metrics.*1 → k ∈ (sheet_row header metrics).1) ∧
    (sheet_row header metrics).2 =
      (λ col, get col metrics) <$> (sheet_row header metrics).1.
Proof.
  unfold sheet_row. apply (foldl_add_column_inv header metrics []).
  exists []. simpl. rewrite app_nil_r. split; [done|].
  split; [apply NoDup_nil_2|]. split; [by intros ? ?%elem_of_nil|].
  split; [by intros ? ?%elem_of_nil|done].
Qed.

Lemma sheet_step_inv header seen metrics st :
  sheet_inv header seen st →
  sheet_inv header (seen ++ [metrics])
    (let '(header', row) := sheet_row st.1 metrics in (header', st.2 ++ [row])).
Proof.
  intros (new & Hheader & Hnd & Hnew & Hrows).
  destruct (sheet_row_spec st.1 metrics)
    as (new' & Hheader' & Hnd' & Hnew' & Hkeys & Hrow).
  destruct (sheet_row st.1 metrics) as [header' row]. cbn [fst snd] in *.
  exists (new ++ new'). cbn [fst snd]. split.
  { by rewrite Hheader', Hheader, <-(assoc_L (++)). }
  split.
  { apply list.NoDup_app. split; [done|]. split; [|done].
    intros col Hcol Hcol'. destruct (Hnew' col Hcol') as [Hout _].
    apply Hout. rewrite Hheader. apply elem_of_app. by right. }
  split.
  { intros col [Hcol|Hcol]%elem_of_app.
    - destruct (Hnew col Hcol) as (? & metrics' & ? & ?). split; [done|].
      exists metrics'. split; [|done]. apply elem_of_app. by left.
    - destruct (Hnew' col Hcol) as [Hout Hin]. split.
      + intros ?. apply Hout. rewrite Hheader. apply elem_of_app. by left.
      + exists metrics. split; [|done]. apply elem_of_app. right. left. }
  apply Forall2_app.
  - eapply list.Forall2_impl; [exact Hrows|].
    intros row' metrics' (cols & rest & Hst & Hrow' & Hkeys' & Hrest).
    exists cols, (rest ++ new'). split.
    { by rewrite Hheader', Hst, <-(assoc_L (++)). }
    split; [done|]. split; [done|].
    intros col [Hcol|Hcol]%elem_of_app; [by apply Hrest|].
    intros Hin. destruct (Hnew' col Hcol) as [Hout _]. apply Hout.
    rewrite Hst. apply elem_of_app. by left.
  - constructor; [|constructor]. exists header', []. rewrite app_nil_r.
    split; [done|]. split; [done|]. split; [done|].
    by intros ? ?%elem_of_nil.
Qed.

Lemma output_google_sheet_inv header all_metrics :
  sheet_inv header all_metrics (output_google_sheet header all_metrics).
Proof.
  unfold output_google_sheet.
  assert (∀ rest seen st,
    sheet_inv header seen st →
    sheet_inv header (seen ++ rest)
      (foldl (λ st metrics,
                let '(header, row) := sheet_row st.1 metrics in
                (header, st.2 ++ [row])) st rest)) as Hfold.
  { induction rest as [|metrics rest IH]; intros seen st Hinv.
    - by rewrite app_nil_r.
    - simpl. rewrite (cons_middle metrics seen rest), (assoc_L (++)).
      apply IH. by apply sheet_step_inv. }
  apply (Hfold all_metrics [] (header, [])).
  exists []. simpl. rewrite app_nil_r. split; [done|].
  split; [apply NoDup_nil_2|]. split; [by intros ? ?%elem_of_nil|].
  constructor.
Qed.

(** X21. The columns the sheet had stay where they are, under their
    names; the new columns come behind them, once each, and each is a key
    of some row of the report that the sheet had no column for. *)
Theorem sheet_keeps_columns header all_metrics :
  ∃ new,
    (output_google_sheet header all_metrics).1 = header ++ new ∧
    NoDup new ∧
    Forall (λ col, (col ∉ header) ∧
                   Exists (λ metrics, col ∈ metrics.*1) all_metrics) new.
Proof.
  destruct (output_google_sheet_inv header all_metrics)
    as (new & Hheader & Hnd & Hnew & _).
  exists new. split; [done|]. split; [done|].
  apply list.Forall_forall. intros col Hcol.
  destruct (Hnew col Hcol) as (Hout & metrics & Hin & Hkey).
  split; [done|]. apply list.Exists_exists. by exists metrics.
Qed.

(** X22. Every key of every row of the report has a column in the header
    that is written back. *)
Theorem sheet_covers_metrics header all_metrics :
  Forall (λ metrics,
            Forall (λ item, item.1 ∈ (output_google_sheet header all_metrics).1)
                   metrics)
         all_metrics.
Proof.
  destruct (output_google_sheet_inv header all_metrics)
    as (new & _ & _ & _ & Hrows).
  apply list.Forall_forall. intros metrics Hin.
  apply list.Forall_forall. intros item Hitem.
  apply list_elem_of_lookup in Hin as [i Hi].
  destruct (Forall2_lookup_r _ _ _ _ _ Hrows Hi)
    as (row & _ & cols & rest & -> & _ & Hkeys & _).
  apply elem_of_app. left. apply Hkeys.
  by apply (list_elem_of_fmap_2 fst) in Hitem.
Qed.

(** A row of cells made when the header was [cols] reads its row of the
    report in every later header. *)
Lemma later_header_aligned cols rest metrics :
  (∀ k, k ∈ metrics.*1 → k ∈ cols) →
  (∀ col, col ∈ rest → col ∉ cols) →
  aligned (cols ++ rest) ((λ col, get col metrics) <$> cols) metrics.
Proof.
  intros Hkeys Hrest.
  unfold aligned. rewrite fmap_app, length_app, length_fmap.
  f_equal. replace (length cols + length rest - length cols)%nat
    with (length rest) by lia.
  induction rest as [|col rest IH]; [done|].
  simpl. f_equal.
  - destruct (get col metrics) as [v|] eqn:Hget; [|done].
    destruct (Hrest col); [left|]. apply Hkeys, get_is_Some. by eexists.
  - apply IH. intros col' Hcol'. apply Hrest. by right.
Qed.

(** X23. There is one row of cells for each row of the report, in the same
    order. Read against the header that is written back, each row of
    cells holds under every column what its row of the report has under
    that name, and no cell where the row has nothing: it is as long as the
    header was when it was made, and the columns that came later are keys
    of other rows only. *)
Theorem sheet_rows_aligned header all_metrics :
  Forall2 (aligned (output_google_sheet header all_metrics).1)
    (output_google_sheet header all_metrics).2 all_metrics.
Proof.
  destruct (output_google_sheet_inv header all_metrics)
    as (new & _ & _ & _ & Hrows).
  eapply list.Forall2_impl; [exact Hrows|].
  intros row metrics (cols & rest & -> & -> & Hkeys & Hrest).
  by apply later_header_aligned.
Qed.

Lemma get_list_to_map k metrics :
  get k metrics = (list_to_map metrics : gmap string cell) !! k.
Proof.
  induction metrics as [|[k' v] metrics IH]; simpl.
  - by rewrite lookup_empty.
  - case_decide as Hk.
    + subst. by rewrite lookup_insert_eq.
    + by rewrite lookup_insert_ne.
Qed.

Lemma aligned_lookup header row metrics j col :
  aligned header row metrics →
  header !! j = Some col →
  default None (row !! j) = get col metrics.
Proof.
  unfold aligned. intros Hrow Hcol.
  assert (((λ col, get col metrics) <$> header) !! j =
            Some (get col metrics)) as Hj
    by (by rewrite list_lookup_fmap, Hcol).
  rewrite Hrow in Hj. destruct (row !! j) as [c|] eqn:Hc.
  - rewrite (lookup_app_l_Some _ _ _ _ Hc) in Hj. by injection Hj as ->.
  - apply lookup_ge_None in Hc. rewrite lookup_app_r in Hj by done.
    apply lookup_replicate in Hj as [<- _]. done.
Qed.

(** X24. The rows of the collector are mappings; whatever the order in
    which the items of each are walked, the cell of a row of cells in a
    column of the header that is written back is what the row of the
    collector has under the name of the column, and there is no cell, or
    an empty one, where it has nothing. *)
Theorem sheet_cells_of_rows header all_metrics
    (rows : list (gmap string cell)) :
  Forall2 (λ metrics mapping, list_to_map metrics = mapping)
    all_metrics rows →
  Forall2 (λ cells mapping,
             ∀ j col,
               (output_google_sheet header all_metrics).1 !! j = Some col →
               default None (cells !! j) = mapping !! col)
          (output_google_sheet header all_metrics).2 rows.
Proof.
  intros Hitems.
  destruct (output_google_sheet_inv header all_metrics)
    as (new & _ & _ & _ & Hrows).
  apply Forall2_same_length_lookup. split.
  { by rewrite (list.Forall2_length _ _ _ Hrows),
      (list.Forall2_length _ _ _ Hitems). }
  intros i cells mapping Hcells Hmapping j col Hcol.
  destruct (Forall2_lookup_l _ _ _ _ _ Hrows Hcells)
    as (metrics & Hmetrics & cols & rest & Hheader & -> & Hkeys & Hrest).
  destruct (Forall2_lookup_l _ _ _ _ _ Hitems Hmetrics)
    as (mapping' & Hmapping' & Hmap).
  rewrite Hmapping in Hmapping'. injection Hmapping' as <-. subst mapping.
  rewrite <-get_list_to_map. rewrite Hheader in Hcol.
  by apply (aligned_lookup (cols ++ rest)); [apply later_header_aligned|].
Qed.

End sheet.

(** The sample sheet: two new columns, and the first row of cells is one
    cell shorter than the header that is written back. *)
Example output_google_sheet_sample :
  output_google_sheet sample_header sample_rows =
    (["name"; "date"; "time_open_count"; "time_to_close_bug_count";
      "time_to_close_feature_count"],
     [[Some (Str "A"); Some (Str "2020-04-20"); None; Some (Int 2)];
      [Some (Str "B"); Some (Str "2020-04-20"); None; None; Some (Int 1)];
      [Some (Str "org"); Some (Str "2020-04-20"); None; Some (Int 2);
       Some (Int 1)]]).
Proof. vm_compute. reflexivity. Qed.

(** A witness of X24: the rows of [sample_rows] as mappings. *)
Lemma sheet_cells_of_rows_witness :
  Forall2 (λ cells (mapping : gmap string cell),
             ∀ j col,
               (output_google_sheet sample_header sample_rows).1 !! j =
                 Some col →
               default None (cells !! j) = mapping !! col)
          (output_google_sheet sample_header sample_rows).2
          (list_to_map <$> sample_rows).
Proof.
  apply (sheet_cells_of_rows sample_header sample_rows
           (list_to_map <$> sample_rows)).
  apply Forall2_fmap_r, Forall_Forall2_diag, list.Forall_forall. done.
Defined.
